(** * Signal-flow visualisation (sfv): the linear visualizer

    A shallow embedding of [sfv/visualizers/linearvisualizer.py]:
    the entry point [LinearVisualizer.visualize] and its helpers
    [_update_edges], [_update_single_label_name] and
    [_update_single_label_activity].

    Numbers.  The Python code computes with NumPy doubles.  Here the
    entries of [F] and [acts] and the widths are exact rationals ([Q]):
    rounding and infinities are outside the model, except for line 68,
    which is also given with a rounding operator ([line_68]) and in
    binary64 arithmetic ([width_for_f64]).  The entries of the adjacency
    matrix [A], which the code only tests for zero and for sign, may be
    NaN ([adj]).  [np.log10] is a function of the host numeric library and
    is a field of the [Host] class below.

    Effects.  The code mutates the caller's Network in place and may raise.
    A computation is a function from the state to the state reached
    together with either a value or the exception raised; mutations done
    before an exception stay visible in the state returned. *)

From Stdlib Require Import QArith Qround Qabs ZArith Lia Lqa Bool Ascii String.
From Stdlib Require PrimFloat.
From stdpp Require Import gmap strings list fin_maps.

Local Open Scope Q_scope.

(** ** Exceptions and results *)

Inductive exn : Type :=
| ValueError (msg : string)
| KeyError
| IndexError
| TypeError
| RuntimeError (msg : string).

Inductive result (A : Type) : Type :=
| Ok (a : A)
| Raise (e : exn).
Arguments Ok {A} a.
Arguments Raise {A} e.

(** A computation over a mutable state [S]. *)
Definition M (S A : Type) : Type := S -> S * result A.

Definition ret {S A} (a : A) : M S A := fun s => (s, Ok a).
Definition bind {S A B} (m : M S A) (k : A -> M S B) : M S B :=
  fun s => match m s with
           | (s', Ok a) => k a s'
           | (s', Raise e) => (s', Raise e)
           end.
Definition lift {S A} (r : result A) : M S A := fun s => (s, r).
Definition get {S} : M S S := fun s => (s, Ok s).
Definition put {S} (s : S) : M S unit := fun _ => (s, Ok tt).
Definition modify {S} (f : S -> S) : M S unit := fun s => (f s, Ok tt).

Notation "x <- m ;; k" := (bind m (fun x => k))
  (at level 100, m at next level, right associativity).
Notation "m ;;; k" := (bind m (fun _ => k))
  (at level 100, right associativity).

(** [for x in xs: body x] *)
Fixpoint for_each {S A} (xs : list A) (body : A -> M S unit) : M S unit :=
  match xs with
  | [] => ret tt
  | x :: xs' => body x ;;; for_each xs' body
  end.

(** ** NumPy kernels on exact rationals *)

Definition Qltb (x y : Q) : bool := negb (Qle_bool y x).

Definition np_maximum (x y : Q) : Q := if Qle_bool x y then y else x.
Definition np_minimum (x y : Q) : Q := if Qle_bool x y then x else y.

(** [np.clip(x, a_min, a_max)] is [minimum(maximum(x, a_min), a_max)]. *)
Definition np_clip (x a_min a_max : Q) : Q :=
  np_minimum (np_maximum x a_min) a_max.

Definition zero_size_max_msg : string :=
  "zero-size array to reduction operation maximum which has no identity".
Definition zero_size_min_msg : string :=
  "zero-size array to reduction operation minimum which has no identity".

(** [a.max()] and [a.min()]; both raise on an empty array. *)
Definition np_max (a : list Q) : result Q :=
  match a with
  | [] => Raise (ValueError zero_size_max_msg)
  | x :: a' => Ok (fold_left np_maximum a' x)
  end.

Definition np_min (a : list Q) : result Q :=
  match a with
  | [] => Raise (ValueError zero_size_min_msg)
  | x :: a' => Ok (fold_left np_minimum a' x)
  end.

Fixpoint insert_sorted (x : Q) (l : list Q) : list Q :=
  match l with
  | [] => [x]
  | y :: l' => if Qle_bool x y then x :: l else y :: insert_sorted x l'
  end.

Definition np_sort (a : list Q) : list Q := fold_right insert_sorted [] a.

Definition percentile_range_msg : string :=
  "Percentiles must be in the range [0, 100]".

(** [np.percentile(a, q)] with the default (linear) method: the virtual
    index is [q/100 * (n-1)]; the result interpolates between the two
    closest ranks of the sorted data.  The range of [q] is checked first.
    On an empty array NumPy's behaviour depends on its version (an
    IndexError, or NaN with a warning); the model raises.  [visualize]
    takes the percentile of an empty array only when [acts] is empty, and
    then no node can be visited ([acts[idx]] raises). *)
Definition np_percentile (a : list Q) (q : Q) : result Q :=
  if negb (Qle_bool 0 q && Qle_bool q 100) then
    Raise (ValueError percentile_range_msg)
  else
    match np_sort a with
    | [] => Raise IndexError
    | (x0 :: _) as s =>
        let n := Z.of_nat (length s) in
        let v := q / 100 * inject_Z (n - 1) in
        let prev := Qfloor v in
        let next := Z.min (prev + 1) (n - 1) in
        let gamma := v - inject_Z prev in
        let lo := nth (Z.to_nat prev) s x0 in
        let hi := nth (Z.to_nat next) s x0 in
        Ok (lo + (hi - lo) * gamma)
    end.

(** [np.int32(x)]: conversion of a double to an integer truncates
    towards zero. *)
Definition np_int32 (x : Q) : Z := Z.quot (Qnum x) (Zpos (Qden x)).

(** Indexing a one-dimensional array (or list) with a Python integer:
    negative indices count from the end. *)
Definition getitem {A} (a : list A) (i : Z) : result A :=
  let n := Z.of_nat (length a) in
  let k := if (i <? 0)%Z then (n + i)%Z else i in
  if (k <? 0)%Z then Raise IndexError
  else match a !! Z.to_nat k with
       | Some x => Ok x
       | None => Raise IndexError
       end.

(** ** Matrices *)

Abbreviation matrix := (list (list Q)).

(** An entry of the adjacency matrix [A]: a number or NaN.  Every
    comparison with NaN is false: NaN is not equal to zero, so
    [nonzero] selects it, and it is neither greater nor less than
    zero. *)
Inductive adj : Type :=
| Num (a : Q)
| NaN.

Abbreviation adjacency := (list (list adj)).

(** [a == 0], [a > 0] and [a < 0] on an entry of [A]. *)
Definition adj_eq0 (a : adj) : bool :=
  match a with Num q => Qeq_bool q 0 | NaN => false end.
Definition adj_gt0 (a : adj) : bool :=
  match a with Num q => Qltb 0 q | NaN => false end.
Definition adj_lt0 (a : adj) : bool :=
  match a with Num q => Qltb q 0 | NaN => false end.

(** [M[i, j]] for non-negative [i], [j] (the indices produced by
    [nonzero]). *)
Definition mat_get {T} (m : list (list T)) (i j : nat) : result T :=
  match m !! i with
  | Some row => match row !! j with
                | Some x => Ok x
                | None => Raise IndexError
                end
  | None => Raise IndexError
  end.

Fixpoint nonzero_row (i j : nat) (row : list adj) : list (nat * nat) :=
  match row with
  | [] => []
  | x :: row' =>
      if adj_eq0 x then nonzero_row i (S j) row'
      else (i, j) :: nonzero_row i (S j) row'
  end.

Fixpoint nonzero_from (i : nat) (m : adjacency) : list (nat * nat) :=
  match m with
  | [] => []
  | row :: m' => nonzero_row i 0 row ++ nonzero_from (S i) m'
  end.

(** [np.array(A).nonzero()], zipped: the positions of the nonzero entries
    in row-major order. *)
Definition nonzero (m : adjacency) : list (nat * nat) := nonzero_from 0 m.

(** [m[np.array(m).nonzero()]]: the nonzero entries in row-major order. *)
Definition nonzero_entries (m : matrix) : list Q :=
  filter (fun x => Qeq_bool x 0 = false) (concat m).

(** ** The host toolkit's objects *)

Record QFont : Type := mkQFont { family : string; pointSize : Z }.

(** A colour value: one of Qt's global colours or [QColor(r, g, b, a)]
    ([QColor(r, g, b)] has alpha 255). *)
Inductive Color : Type :=
| Qt_black
| Qt_white
| QColor (r g b a : Z).

(** The two arrowhead classes: [PosHead] is the 'TRIANGLE' class,
    [NegHead] the 'HAMMER' class. *)
Inductive HeadClass : Type := PosHead | NegHead.

Record Head : Type := mkHead {
  head_class : HeadClass;
  head_width : Q;
  head_height : Q;
  head_offset : Q
}.

Record Edge : Type := mkEdge {
  edge_head : Head;
  edge_FILL_COLOR : Color;
  edge_width : Q
}.

Record Node : Type := mkNode {
  node_iden : string;
  node_name : string;
  node_width : Q;
  node_height : Q;
  node_FILL_COLOR : Color;
  node_BORDER_WIDTH : Q;
  node_BORDER_COLOR : Color
}.

(** A text label.  An attribute that was never set is [None] (the
    toolkit's default).  [label_parent] is the identifier of the node the
    label is attached to. *)
Record Label : Type := mkLabel {
  label_iden : string;
  label_parent : string;
  label_text : string;
  label_FONT : option QFont;
  label_TEXT_COLOR : option Color;
  label_FONT_BOLD : option bool;
  label_pos : option (Q * Q)
}.

(** [net.nodes] is an insertion-ordered dict, [net.labels] a dict keyed by
    label identifier, [net.nxgraph] a directed graph whose edge
    [(src, tgt)] carries the edge object under 'GRAPHICS'. *)
Record Network : Type := mkNetwork {
  nodes : list (string * Node);
  labels : gmap string Label;
  nxgraph : gmap (string * string) Edge
}.

Definition set_text (t : string) (l : Label) : Label :=
  mkLabel (label_iden l) (label_parent l) t (label_FONT l)
          (label_TEXT_COLOR l) (label_FONT_BOLD l) (label_pos l).
Definition set_iden (i : string) (l : Label) : Label :=
  mkLabel i (label_parent l) (label_text l) (label_FONT l)
          (label_TEXT_COLOR l) (label_FONT_BOLD l) (label_pos l).
Definition set_FONT (f : QFont) (l : Label) : Label :=
  mkLabel (label_iden l) (label_parent l) (label_text l) (Some f)
          (label_TEXT_COLOR l) (label_FONT_BOLD l) (label_pos l).
Definition set_TEXT_COLOR (c : Color) (l : Label) : Label :=
  mkLabel (label_iden l) (label_parent l) (label_text l) (label_FONT l)
          (Some c) (label_FONT_BOLD l) (label_pos l).
Definition set_FONT_BOLD (b : bool) (l : Label) : Label :=
  mkLabel (label_iden l) (label_parent l) (label_text l) (label_FONT l)
          (label_TEXT_COLOR l) (Some b) (label_pos l).
Definition setPos (x y : Q) (l : Label) : Label :=
  mkLabel (label_iden l) (label_parent l) (label_text l) (label_FONT l)
          (label_TEXT_COLOR l) (label_FONT_BOLD l) (Some (x, y)).

Definition set_size (w h : Q) (n : Node) : Node :=
  mkNode (node_iden n) (node_name n) w h (node_FILL_COLOR n)
         (node_BORDER_WIDTH n) (node_BORDER_COLOR n).
Definition set_fill_border (fill : Color) (bw : Q) (bc : Color) (n : Node)
  : Node :=
  mkNode (node_iden n) (node_name n) (node_width n) (node_height n)
         fill bw bc.

(** [TextLabel(node, text=t)]: a new label attached to [node]; nothing
    but the text is set. *)
Definition TextLabel (node : Node) (t : string) : Label :=
  mkLabel "" (node_iden node) t None None None None.

(** The host's Network keeps [net.labels] keyed by [label.iden]:
    [net.add_label(label)] registers the label under its identifier,
    [net.remove_label(label)] deletes that entry. *)
Definition add_label (l : Label) (ls : gmap string Label)
  : gmap string Label := <[label_iden l := l]> ls.

Definition remove_label (l : Label) (ls : gmap string Label)
  : result (gmap string Label) :=
  match ls !! label_iden l with
  | Some _ => Ok (delete (label_iden l) ls)
  | None => Raise KeyError
  end.

(** What the code needs from NumPy, Python, Qt and the graphics toolkit
    and this development does not define: [np.log10]; the string
    formatting operator [fmt % x] applied to a NumPy scalar (it may
    raise); [s.upper()], Python's upper-casing of Unicode text;
    [label.boundingRect()] as (width, height); [QColor(c).lightness()];
    and what assigning [edge.width] does to the edge's arrowhead: the
    toolkit resizes the head, giving it the (width, height) it derives
    from the head's class and the edge's new width, and keeps the head's
    offset. *)
Class Host : Type := {
  log10 : Q -> Q;
  pyformat : string -> Q -> result string;
  str_upper : string -> string;
  boundingRect : Label -> Q * Q;
  lightness : Color -> Z;
  head_size : HeadClass -> Q -> Q * Q
}.

(** ** Dicts *)

(** [n2i] is a dict from node identifier to matrix index, kept in
    insertion order.  A dict holds each key once: where a statement
    needs it, that is the hypothesis [NoDup n2i.*1]. *)
Abbreviation dict_n2i := (list (string * Z)).

Fixpoint n2i_get (n2i : dict_n2i) (k : string) : result Z :=
  match n2i with
  | [] => Raise KeyError
  | (k', v) :: rest => if String.eqb k k' then Ok v else n2i_get rest k
  end.

(** [{val: key for key, val in n2i.items()}] *)
Definition invert (n2i : dict_n2i) : gmap Z string :=
  fold_left (fun acc kv => <[kv.2 := kv.1]> acc) n2i ∅.

Definition i2n_get (i2n : gmap Z string) (i : nat) : result string :=
  match i2n !! Z.of_nat i with
  | Some s => Ok s
  | None => Raise KeyError
  end.

(** ** Arguments of [visualize] *)

(** What a caller may pass as [color_up] or [color_dn]: [None], a
    [QColor] (always truthy), a NumPy array with several elements (its
    truth value is ambiguous and asking for it raises), or any other
    object, of which only the truth value matters. *)
Inductive ColorArg : Type :=
| ArgNone
| ArgQColor (r g b : Z)
| ArgNdarray
| ArgOther (truthy : bool).

Record Options : Type := mkOptions {
  color_up : ColorArg;
  color_dn : ColorArg;
  lw_min : Q;
  lw_max : Q;
  pct_edge : Q;
  show_label : bool;
  show_act : bool;
  pct_act : Q;
  fmt_act : string;
  fix_node_size : bool;
  fix_act_label : bool;
  font : option QFont
}.

(** The defaults of the signature of [visualize]. *)
Definition default_options : Options :=
  mkOptions ArgNone ArgNone 1 10 90 true true 50 "%.5f" false false None.

Abbreviation rgb := (Z * Z * Z)%type.

Definition color_white : rgb := (255, 255, 255)%Z.

Definition ambiguous_msg : string :=
  "The truth value of an array with more than one element is ambiguous".

(** Lines 216-234: [if not c: default / elif isinstance(c, QColor):
    components / else: raise ValueError]. *)
Definition resolve_color (default : rgb) (msg : string) (c : ColorArg)
  : result rgb :=
  match c with
  | ArgNone => Ok default
  | ArgOther false => Ok default
  | ArgQColor r g b => Ok (r, g, b)
  | ArgNdarray => Raise (ValueError ambiguous_msg)
  | ArgOther true => Raise (ValueError msg)
  end.

Definition color_up_msg : string :=
  "color_up should be 3-dimensional np.ndarray or QtGui.QColor".
Definition color_dn_msg : string :=
  "color_dn should be 3-dimensional np.ndarray or QtGui.QColor".

(** Lines 259-264: [np.int32(color_white + t * (target - color_white))],
    channel by channel. *)
Definition channel (t : Q) (white target : Z) : Z :=
  np_int32 (inject_Z white + t * (inject_Z target - inject_Z white)).

Definition blend (t : Q) (target : rgb) : rgb :=
  let '(r, g, b) := target in
  let '(wr, wg, wb) := color_white in
  (channel t wr r, channel t wg g, channel t wb b).

(** Lines 42-56 of [_update_edges]: the arrowhead class and the edge
    colour for flow [f]; [a] is the read [A[i, j]], which the code performs
    only when [f] is neither positive nor negative. *)
Definition head_and_color (f : Q) (a : result adj)
  : result (HeadClass * Color) :=
  if Qltb 0 f then Ok (PosHead, QColor 255 10 10 70)
  else if Qltb f 0 then Ok (NegHead, QColor 10 10 255 70)
  else
    match a with
    | Raise e => Raise e
    | Ok a =>
        if adj_gt0 a then Ok (PosHead, QColor 100 100 100 100)
        else if adj_lt0 a then Ok (NegHead, QColor 100 100 100 100)
        else Raise (RuntimeError "The logic is abnormal.")
    end.

(** The helpers that work on one node see the node object and
    [net.labels]. *)
Abbreviation NodeState := (Node * gmap string Label)%type.

Section Visualizer.
Context `{Host}.

(** ['%s_act' % iden.upper()] (lines 100 and 280). *)
Definition act_label_iden (iden : string) : string :=
  str_upper iden +:+ "_act".

(** Line 27: [np.log10(np.abs(F[np.array(F).nonzero()]))]. *)
Definition log_flows_of (F : matrix) : list Q :=
  map (fun x => log10 (Qabs x)) (nonzero_entries F).

(** Lines 61-69 of [_update_edges]: the width of an edge with flow [f]. *)
Definition width_for (flow_max flow_min flow_thr lw_min lw_max f : Q) : Q :=
  if Qeq_bool f 0 then lw_min
  else if Qeq_bool (flow_max - flow_min) 0 then (1 # 2) * (lw_max + lw_min)
  else
    let log_f := log10 (Qabs f) in
    let log_f := np_clip log_f flow_min flow_thr in
    (log_f - flow_min) / (flow_max - flow_min) * (lw_max - lw_min) + lw_min.

(** [net.nxgraph[src][tgt]['GRAPHICS']] *)
Definition get_edge (src tgt : string) : M Network Edge :=
  fun net => match nxgraph net !! (src, tgt) with
             | Some e => (net, Ok e)
             | None => (net, Raise KeyError)
             end.

(** The edge object is mutated in place. *)
Definition set_edge (src tgt : string) (e : Edge) : M Network unit :=
  modify (fun net =>
    mkNetwork (nodes net) (labels net) (<[(src, tgt) := e]> (nxgraph net))).

(** [edge.width = w] as seen on the edge's head [h]: the toolkit resizes
    the head for the new width. *)
Definition resized (h : Head) (w : Q) : Head :=
  mkHead (head_class h)
         (head_size (head_class h) w).1 (head_size (head_class h) w).2
         (head_offset h).

(** Lines 34-69: the body of the loop of [_update_edges] at the nonzero
    position [(i, j)] of [A].  The assignments to [edge.head],
    [edge['FILL_COLOR']] and [edge.width] (lines 58, 59 and 61-69) come
    after everything that can raise, so they are one write: the new head
    is built from the old head's three arguments (lines 40-52), installed
    (line 58) and resized when the width is assigned (lines 61-69). *)
Definition update_edge_at (A : adjacency) (F : matrix) (i2n : gmap Z string)
    (flow_max flow_min flow_thr lw_min lw_max : Q) (ij : nat * nat)
  : M Network unit :=
  let '(i, j) := ij in
  tgt <- lift (i2n_get i2n i) ;;
  src <- lift (i2n_get i2n j) ;;
  f <- lift (mat_get F i j) ;;
  edge <- get_edge src tgt ;;
  let head_old := edge_head edge in
  hc <- lift (head_and_color f (mat_get A i j)) ;;
  let head := mkHead hc.1 (head_width head_old) (head_height head_old)
                     (head_offset head_old) in
  let w := width_for flow_max flow_min flow_thr lw_min lw_max f in
  set_edge src tgt (mkEdge (resized head w) hc.2 w).

Definition _update_edges (A : adjacency) (F : matrix) (i2n : gmap Z string)
    (pct_edge lw_min lw_max : Q) : M Network unit :=
  let log_flows := log_flows_of F in
  flow_max <- lift (np_max log_flows) ;;
  flow_min <- lift (np_min log_flows) ;;
  flow_thr <- lift (np_percentile log_flows pct_edge) ;;
  for_each (nonzero A)
    (update_edge_at A F i2n flow_max flow_min flow_thr lw_min lw_max).

Definition _update_single_label_name (name : string) (fix_node_size : bool)
    (font : QFont) : M NodeState unit :=
  fun '(node, ls) =>
    match ls !! name with
    | None => ((node, ls), Raise KeyError)
    | Some label_name =>
        let light := lightness (node_FILL_COLOR node) in
        let label_name := set_TEXT_COLOR Qt_black label_name in
        let label_name := set_FONT font label_name in
        let label_name :=
          if (light <? 200)%Z
          then set_FONT_BOLD true (set_TEXT_COLOR Qt_white label_name)
          else set_FONT_BOLD false (set_TEXT_COLOR Qt_black label_name) in
        let rect := boundingRect label_name in
        let label_name :=
          setPos (- rect.1 / 2) (- rect.2 / 2) label_name in
        let node :=
          if fix_node_size then node
          else set_size ((11 # 10) * rect.1) ((11 # 10) * rect.2) node in
        ((node, <[name := label_name]> ls), Ok tt)
    end.

Definition _update_single_label_activity (activity : Q)
    (fix_act_label : bool) (fmt : string) (font : QFont)
  : M NodeState unit :=
  fun '(node, ls) =>
    let iden := act_label_iden (node_iden node) in
    match pyformat fmt activity with
    | Raise e => ((node, ls), Raise e)
    | Ok str_x =>
        let made :=
          match ls !! iden with
          | None => Ok (set_iden iden (TextLabel node str_x))
          | Some label_act =>
              match pyformat str_x activity with
              | Ok t => Ok (set_text t label_act)
              | Raise e => Raise e
              end
          end in
        match made with
        | Raise e => ((node, ls), Raise e)
        | Ok label_act =>
            let label_act :=
              if fix_act_label then label_act
              else
                let label_act := set_FONT font label_act in
                let label_act :=
                  set_TEXT_COLOR (QColor 20 20 20 255) label_act in
                let rect := boundingRect label_act in
                let pos_x := node_width node / 2 + (1 # 2) in
                setPos pos_x (- rect.2 / 2) label_act in
            match ls !! iden with
            | None => ((node, add_label label_act ls), Ok tt)
            | Some _ => ((node, <[iden := label_act]> ls), Ok tt)
            end
        end
    end.

(** Lines 244-248: [arr_t[i] = np.clip(np.abs(elem) / thr, 0, 1)], for
    [acts] an array of doubles. *)
Definition arr_t_of (acts : list Q) (thr : Q) : list Q :=
  map (fun elem => np_clip (Qabs elem / thr) 0 1) acts.

(** Lines 259-265: the fill colour of a node with activity [act] and
    factor [t].  In exact arithmetic [act <= 0] is the complement of
    [act > 0], so the [elif] is an [else]. *)
Definition fill_for (act t : Q) (color_up color_dn : rgb) : Color :=
  let '(r, g, b) :=
    if Qltb 0 act then blend t color_up else blend t color_dn in
  QColor r g b 255.

(** Lines 251-282: the body of the loop over [net.nodes.items()] for the
    entry [iden]. *)
Definition visit_node (acts arr_t : list Q) (n2i : dict_n2i)
    (color_up color_dn : rgb) (o : Options) (font : QFont) (iden : string)
  : M NodeState unit :=
  idx <- lift (n2i_get n2i iden) ;;
  (if fix_node_size o then ret tt
   else modify (fun st : NodeState => (set_size 20 20 st.1, st.2))) ;;;
  act <- lift (getitem acts idx) ;;
  t <- lift (getitem arr_t idx) ;;
  modify (fun st : NodeState =>
    (set_fill_border (fill_for act t color_up color_dn) 2
                     (QColor 40 40 40 255) st.1,
     st.2)) ;;;
  (if show_label o then
     st <- get ;;
     _update_single_label_name (node_name st.1) (fix_node_size o) font
   else ret tt) ;;;
  if show_act o then
    _update_single_label_activity act (fix_act_label o) (fmt_act o) font
  else
    let iden_label := act_label_iden iden in
    st <- get ;;
    match st.2 !! iden_label with
    | Some l =>
        ls <- lift (remove_label l st.2) ;;
        put (st.1, ls)
    | None => ret tt
    end.

(** The loop over [net.nodes.items()]: every node object is mutated in
    place, [net.labels] is shared by all iterations. *)
Fixpoint map_nodes (body : string -> M NodeState unit)
    (todo : list (string * Node)) (ls : gmap string Label)
  : (list (string * Node) * gmap string Label) * result unit :=
  match todo with
  | [] => (([], ls), Ok tt)
  | (iden, node) :: rest =>
      match body iden (node, ls) with
      | ((node', ls'), Ok _) =>
          let '((rest', ls''), r) := map_nodes body rest ls' in
          (((iden, node') :: rest', ls''), r)
      | ((node', ls'), Raise e) => (((iden, node') :: rest, ls'), Raise e)
      end
  end.

Definition for_nodes (body : string -> M NodeState unit) : M Network unit :=
  fun net =>
    let '((ns, ls), r) := map_nodes body (nodes net) (labels net) in
    (mkNetwork ns ls (nxgraph net), r).

(** Lines 213-283 of [visualize]: the arguments are resolved, the colour
    scale is computed and every node is visited. *)
Definition visualize_nodes (acts : list Q) (n2i : dict_n2i) (o : Options)
  : M Network unit :=
  color_up <- lift (resolve_color (255, 0, 0)%Z color_up_msg (color_up o)) ;;
  color_dn <- lift (resolve_color (0, 0, 255)%Z color_dn_msg (color_dn o)) ;;
  let font :=
    match font o with Some f => f | None => mkQFont "Arial" 10 end in
  let abs_act := map Qabs acts in
  thr <- lift (np_percentile abs_act (pct_act o)) ;;
  let thr := if Qeq_bool thr 0 then 1 else thr in
  let arr_t := arr_t_of acts thr in
  for_nodes (visit_node acts arr_t n2i color_up color_dn o font).

(** [LinearVisualizer.visualize]: the node pass, then line 285, the edge
    pass with the inverse [i2n] of [n2i] (built on line 213; building it
    has no effect on the Network). *)
Definition visualize (F : matrix) (acts : list Q) (A : adjacency)
    (n2i : dict_n2i) (o : Options) : M Network unit :=
  let i2n := invert n2i in
  visualize_nodes acts n2i o ;;;
  _update_edges A F i2n (pct_edge o) (lw_min o) (lw_max o).

(** ** Vocabulary of the statements *)

(** Edge [e], stored under [k = (src, tgt)], is what the loop body writes
    at position [p] of the adjacency matrix. *)
Definition edge_written (A : adjacency) (F : matrix) (i2n : gmap Z string)
    (flow_max flow_min flow_thr lw_min lw_max : Q)
    (p : nat * nat) (k : string * string) (e : Edge) : Prop :=
  exists f hc,
    i2n !! Z.of_nat p.1 = Some k.2 /\
    i2n !! Z.of_nat p.2 = Some k.1 /\
    mat_get F p.1 p.2 = Ok f /\
    head_and_color f (mat_get A p.1 p.2) = Ok hc /\
    head_class (edge_head e) = hc.1 /\
    edge_FILL_COLOR e = hc.2 /\
    edge_width e = width_for flow_max flow_min flow_thr lw_min lw_max f /\
    (head_width (edge_head e), head_height (edge_head e))
    = head_size hc.1 (edge_width e).

(** The label the activity helper leaves under the key, from the label
    [l0] it starts with (the one found, or the one just made). *)
Definition restyled (fixed : bool) (font : QFont) (n : Node) (l0 : Label)
  : Label :=
  if fixed then l0
  else
    let l1 := set_TEXT_COLOR (QColor 20 20 20 255) (set_FONT font l0) in
    setPos (node_width n / 2 + (1 # 2)) (- (boundingRect l1).2 / 2) l1.

(** The spec's words: [m] is the largest (smallest) of the decimal
    logarithms of the absolute values of the nonzero entries of [F]. *)
Definition is_flow_max (F : matrix) (m : Q) : Prop :=
  (exists i j f, mat_get F i j = Ok f /\ ~ f == 0 /\ m = log10 (Qabs f)) /\
  forall i j f, mat_get F i j = Ok f -> ~ f == 0 -> log10 (Qabs f) <= m.

Definition is_flow_min (F : matrix) (m : Q) : Prop :=
  (exists i j f, mat_get F i j = Ok f /\ ~ f == 0 /\ m = log10 (Qabs f)) /\
  forall i j f, mat_get F i j = Ok f -> ~ f == 0 -> m <= log10 (Qabs f).

End Visualizer.

(** The spec's words on an entry of [A]: nonzero (what the edge loop
    visits), positive, negative. *)
Definition adj_nonzero (a : adj) : Prop :=
  match a with Num q => ~ q == 0 | NaN => True end.
Definition adj_pos (a : adj) : Prop :=
  match a with Num q => 0 < q | NaN => False end.
Definition adj_neg (a : adj) : Prop :=
  match a with Num q => q < 0 | NaN => False end.

(** The key [(src, tgt)] of the edge that the loop of [_update_edges]
    looks up at position [(i, j)]: the target is the row's node, the
    source the column's. *)
Definition edge_key (i2n : gmap Z string) (p : nat * nat)
  : option (string * string) :=
  match i2n !! Z.of_nat p.2, i2n !! Z.of_nat p.1 with
  | Some src, Some tgt => Some (src, tgt)
  | _, _ => None
  end.

(** The spec's words: linear interpolation of [x] from the interval
    [[a, b]] into the interval [[c, d]]. *)
Definition linear_interpolation (x a b c d : Q) : Q :=
  c + (x - a) / (b - a) * (d - c).

(** The spec's words: [x] clipped to the interval [[lo, hi]]. *)
Definition clipped (x lo hi : Q) : Q :=
  if Qltb x lo then lo else if Qltb hi x then hi else x.

(** What the host's Network maintains: every label is registered under
    its own identifier, every node under its own identifier. *)
Definition labels_wf (ls : gmap string Label) : Prop :=
  forall k l, ls !! k = Some l -> label_iden l = k.

Definition nodes_wf (ns : list (string * Node)) : Prop :=
  forall k n, (k, n) ∈ ns -> node_iden n = k.

Definition i2n_injective (i2n : gmap Z string) : Prop :=
  forall i j s, i2n !! i = Some s -> i2n !! j = Some s -> i = j.

(** ** Line 68 in floating-point arithmetic *)

(** What a floating-point operation does to its exact result: it rounds
    it.  Rounding to nearest is monotone, leaves 0 and 1 alone, and
    leaves a rounded value alone.  Overflow is not modelled. *)
Record rounding (fl : Q -> Q) : Prop := mkRounding {
  fl_mono : forall x y, x <= y -> fl x <= fl y;
  fl_0 : fl 0 == 0;
  fl_1 : fl 1 == 1;
  fl_idem : forall x, fl (fl x) == fl x
}.

(** Line 68,
    [(log_f - flow_min) / (flow_max - flow_min) * (lw_max - lw_min) + lw_min],
    with every operation rounded by [fl]; [log_f] is the clipped
    log-flow of line 67. *)
Definition line_68 (fl : Q -> Q) (log_f flow_min flow_max lw_min lw_max : Q)
  : Q :=
  fl (fl (fl (fl (log_f - flow_min) / fl (flow_max - flow_min))
          * fl (lw_max - lw_min))
      + lw_min).

(** Rounding to the nearest multiple of 1/16, halves upwards. *)
Definition round_16 (x : Q) : Q :=
  inject_Z (Qfloor (x * 16 + (1 # 2))) / 16.

Section Binary64.
Import PrimFloat.
Local Open Scope float_scope.



End Binary64.


(** ** A concrete host, for running the model *)

(** Upper-casing of the letters a-z; it agrees with [s.upper()] on ASCII
    text. *)
Definition upper_ascii (c : ascii) : ascii :=
  let n := nat_of_ascii c in
  if (97 <=? n)%nat && (n <=? 122)%nat then ascii_of_nat (n - 32) else c.

Fixpoint ascii_upper (s : string) : string :=
  match s with
  | EmptyString => EmptyString
  | String c s' => String (upper_ascii c) (ascii_upper s')
  end.

(** The integer part of the decimal logarithm of a positive rational:
    exact on the powers of ten. *)
Fixpoint ilog10 (fuel : nat) (x : Q) : Q :=
  match fuel with
  | O => 0
  | S fuel' =>
      if Qle_bool 10 x then 1 + ilog10 fuel' (x / 10)
      else if Qltb x 1 then ilog10 fuel' (x * 10) - 1
      else 0
  end.

Definition digit_of (d : Z) : ascii := ascii_of_nat (48 + Z.to_nat d).

Fixpoint digits (fuel : nat) (n : Z) (acc : string) : string :=
  match fuel with
  | O => acc
  | S fuel' =>
      let acc' := String (digit_of (n mod 10)) acc in
      if (n <? 10)%Z then acc' else digits fuel' (n / 10) acc'
  end.

(** [str(n)] for an integer. *)
Definition decimal (n : Z) : string :=
  if (n <? 0)%Z
  then String "-" (digits (Z.to_nat (Z.log2 (- n)) + 1) (- n) "")
  else digits (Z.to_nat (Z.log2 n) + 1) n "".

(** [fmt % x] for a NumPy scalar [x], for format strings whose only
    conversions are [%d] (the value truncated towards zero) and [%%].
    A second conversion finds no argument left; any other conversion is
    outside this fragment and is reported as an error.  A NumPy scalar
    supports subscripting, so an operand that no conversion consumed is
    not an error: a string without conversions formats to itself. *)
Fixpoint format_d (fmt : string) (x : Q) (used : bool) : result string :=
  match fmt with
  | EmptyString => Ok EmptyString
  | String c rest =>
      if Ascii.eqb c "%" then
        match rest with
        | EmptyString => Raise (ValueError "incomplete format")
        | String c' rest' =>
            if Ascii.eqb c' "%" then
              match format_d rest' x used with
              | Ok r => Ok (String "%" r)
              | Raise e => Raise e
              end
            else if Ascii.eqb c' "d" then
              if used then Raise TypeError
              else
                match format_d rest' x true with
                | Ok r => Ok (decimal (np_int32 x) +:+ r)
                | Raise e => Raise e
                end
            else Raise (ValueError "unsupported format character")
        end
      else
        match format_d rest x used with
        | Ok r => Ok (String c r)
        | Raise e => Raise e
        end
  end.

(** Lightness of a colour in the HSL model, on the scale 0..255. *)
Definition hsl_lightness (c : Color) : Z :=
  match c with
  | Qt_black => 0
  | Qt_white => 255
  | QColor r g b _ =>
      ((Z.max r (Z.max g b) + Z.min r (Z.min g b)) / 2)%Z
  end.

(** A fixed-pitch text box: six units per character, twelve high. *)
Definition box_rect (l : Label) : Q * Q :=
  (inject_Z (6 * Z.of_nat (String.length (label_text l))), 12).

(** A head five times as wide and as high as its edge is wide. *)
Definition five_times (c : HeadClass) (w : Q) : Q * Q := (5 * w, 5 * w).

Definition demo_host : Host :=
  {| log10 := ilog10 64;
     pyformat := fun fmt x => format_d fmt x false;
     str_upper := ascii_upper;
     boundingRect := box_rect;
     lightness := hsl_lightness;
     head_size := five_times |}.

(** ** Sample inputs *)

Definition node_of (iden : string) : Node :=
  mkNode iden iden 20 20 Qt_white 1 Qt_black.

Definition name_label (iden : string) : Label :=
  mkLabel iden iden iden None None None None.

Definition plain_edge : Edge := mkEdge (mkHead NegHead 3 4 5) Qt_black 1.

(** The example of the spec: nodes A and B with edge B -> A, and the
    reverse edge. *)
Definition net_AB : Network :=
  mkNetwork [("A", node_of "A"); ("B", node_of "B")]
            (<["A" := name_label "A"]> (<["B" := name_label "B"]> ∅))
            (<[("B", "A") := plain_edge]> (<[("A", "B") := plain_edge]> ∅)).

Definition n2i_AB : dict_n2i := [("A", 0%Z); ("B", 1%Z)].
Definition A_AB : adjacency := [[Num 0; Num 1]; [Num 0; Num 0]].
Definition F_AB : matrix := [[0; 5]; [0; 0]].
Definition acts_AB : list Q := [1 # 10; - (2 # 10)].

(** Both edges carry flow: 10 into A, 100 into B. *)
Definition A_both : adjacency := [[Num 0; Num 1]; [Num 1; Num 0]].
Definition F_both : matrix := [[0; 10]; [100; 0]].

(** The defaults, with an integer format for the activity labels. *)
Definition options_d : Options :=
  mkOptions ArgNone ArgNone 1 10 90 true true 50 "%d" false false None.

Definition with_show_act (b : bool) (o : Options) : Options :=
  mkOptions (color_up o) (color_dn o) (lw_min o) (lw_max o) (pct_edge o)
            (show_label o) b (pct_act o) (fmt_act o) (fix_node_size o)
            (fix_act_label o) (font o).

Definition with_widths (lo hi pct : Q) (o : Options) : Options :=
  mkOptions (color_up o) (color_dn o) lo hi pct
            (show_label o) (show_act o) (pct_act o) (fmt_act o)
            (fix_node_size o) (fix_act_label o) (font o).

Definition with_color_up (c : ColorArg) (o : Options) : Options :=
  mkOptions c (color_dn o) (lw_min o) (lw_max o) (pct_edge o)
            (show_label o) (show_act o) (pct_act o) (fmt_act o)
            (fix_node_size o) (fix_act_label o) (font o).

(** An activity label of node A that a caller styled by hand. *)
Definition styled_act_label : Label :=
  mkLabel "A_act" "A" "old" (Some (mkQFont "Times" 8)) (Some Qt_black)
          None (Some (0, 0)).

Definition net_AB_act : Network :=
  mkNetwork (nodes net_AB)
            (<["A_act" := styled_act_label]> (labels net_AB))
            (nxgraph net_AB).

(** ** Vocabulary of the further statements *)

(** The offset of an edge's arrowhead. *)
Definition edge_head_offset (e : Edge) : Q := head_offset (edge_head e).

Section Vocabulary.
Context `{Host}.

(** What the activity step of a visit can do to [net.labels]: nothing, or
    register a label under the node's activity key, or remove the label
    found under the activity key of the dict key. *)
Definition act_phase (o : Options) (k : string) (n : Node)
    (ls1 ls' : gmap string Label) : Prop :=
  ls' = ls1 \/
  (show_act o = true /\
   exists l', ls' = <[act_label_iden (node_iden n) := l']> ls1 /\
     (label_iden l' = act_label_iden (node_iden n) \/
      exists l, ls1 !! act_label_iden (node_iden n) = Some l /\
                label_iden l' = label_iden l)) \/
  (show_act o = false /\
   exists l, ls1 !! act_label_iden k = Some l /\
             ls' = delete (label_iden l) ls1).

(** What the name step can do: nothing, or restyle the label found under
    the node's name. *)
Definition name_phase (o : Options) (n : Node)
    (ls ls1 : gmap string Label) : Prop :=
  ls1 = ls \/
  (show_label o = true /\
   exists l l', ls !! node_name n = Some l /\
     ls1 = <[node_name n := l']> ls /\ label_iden l' = label_iden l).

(** No entry of [net.nodes] other than the one at position [pos] has [K]
    as its name or as an activity key. *)
Definition key_free_elsewhere (ns : list (string * Node)) (pos : nat)
    (K : string) : Prop :=
  forall pos2 k2 n2,
    ns !! pos2 = Some (k2, n2) -> pos2 <> pos ->
    K <> node_name n2 /\ K <> act_label_iden (node_iden n2) /\
    K <> act_label_iden k2.

End Vocabulary.

(** A colour triple whose channels are in the range of a QColor. *)
Definition in_gamut (c : rgb) : Prop :=
  (0 <= c.1.1 <= 255)%Z /\ (0 <= c.1.2 <= 255)%Z /\ (0 <= c.2 <= 255)%Z.

(** ** More sample inputs *)

Definition with_pct_act (pct : Q) (o : Options) : Options :=
  mkOptions (color_up o) (color_dn o) (lw_min o) (lw_max o) (pct_edge o)
            (show_label o) (show_act o) pct (fmt_act o) (fix_node_size o)
            (fix_act_label o) (font o).

(** The example network with a caller's own label. *)
Definition net_AB_note : Network :=
  mkNetwork (nodes net_AB)
            (<["note" := name_label "note"]> (labels net_AB))
            (nxgraph net_AB).

(** Activities on one side of zero, and with a zero. *)
Definition acts_pos : list Q := [1 # 10; 2 # 10].
Definition acts_zero : list Q := [0; - (2 # 10)].

(** Node A of the example after a node pass with the defaults: filled,
    bordered and sized by its one-letter name label. *)
Definition node_A_after (fill : Color) : Node :=
  set_fill_border fill 2 (QColor 40 40 40 255)
    (set_size ((11 # 10) * 6) ((11 # 10) * 12) (node_of "A")).

Definition node_B_after (fill : Color) : Node :=
  set_fill_border fill 2 (QColor 40 40 40 255)
    (set_size ((11 # 10) * 6) ((11 # 10) * 12) (node_of "B")).

Definition with_fix_act_label (b : bool) (o : Options) : Options :=
  mkOptions (color_up o) (color_dn o) (lw_min o) (lw_max o) (pct_edge o)
            (show_label o) (show_act o) (pct_act o) (fmt_act o)
            (fix_node_size o) b (font o).

(** The adjacency of both edges with NaN where the flow matrix of the
    example is zero. *)
Definition A_nan : adjacency := [[Num 0; Num 1]; [NaN; Num 0]].

(** The example network with node A displayed under the name "A_act",
    which is also the key of its activity label. *)
Definition net_alias : Network :=
  mkNetwork [("A", mkNode "A" "A_act" 20 20 Qt_white 1 Qt_black);
             ("B", node_of "B")]
            (<["A_act" := styled_act_label]> (<["B" := name_label "B"]> ∅))
            (nxgraph net_AB).

(** A network of one node with a lower-case identifier, its name label
    and its activity label; no edge. *)
Definition net_akt : Network :=
  mkNetwork [("akt", node_of "akt")]
            (<["akt" := name_label "akt"]>
               (<["AKT_act" := mkLabel "AKT_act" "akt" "0" None None None
                                       None]> ∅))
            ∅.

Definition n2i_akt : dict_n2i := [("akt", 0%Z)].
Definition A_akt : adjacency := [[Num 0]].
Definition F_akt : matrix := [[5]].
Definition acts_akt : list Q := [3].

(** * Properties *)

Lemma Ok_inj {A} (x y : A) : Ok x = Ok y -> x = y.
Proof. congruence. Qed.

(** ** Comparisons *)

Lemma Qltb_true (x y : Q) : Qltb x y = true <-> x < y.
Proof.
  unfold Qltb. rewrite negb_true_iff.
  destruct (Qle_bool y x) eqn:E.
  - apply Qle_bool_iff in E. split; [discriminate | intros; lra].
  - split; [intros _ | reflexivity].
    destruct (Qlt_le_dec x y) as [Hlt | Hle]; [exact Hlt |].
    apply Qle_bool_iff in Hle. congruence.
Qed.

Lemma Qltb_false (x y : Q) : Qltb x y = false <-> y <= x.
Proof.
  unfold Qltb. rewrite negb_false_iff. apply Qle_bool_iff.
Qed.

Lemma Qle_bool_false (x y : Q) : Qle_bool x y = false <-> y < x.
Proof.
  rewrite <- Qltb_true. unfold Qltb. rewrite negb_true_iff. reflexivity.
Qed.

Lemma Qeq_bool_false (x y : Q) : Qeq_bool x y = false <-> ~ x == y.
Proof.
  split.
  - intros E Heq. apply Qeq_bool_iff in Heq. congruence.
  - intros Hne. destruct (Qeq_bool x y) eqn:E; [| reflexivity].
    apply Qeq_bool_iff in E. contradiction.
Qed.

(** The tests on an entry of the adjacency matrix. *)
Lemma adj_eq0_false (a : adj) : adj_eq0 a = false <-> adj_nonzero a.
Proof.
  destruct a as [q |]; simpl; [apply Qeq_bool_false | tauto].
Qed.

Lemma adj_eq0_true (a : adj) : adj_eq0 a = true <-> ~ adj_nonzero a.
Proof.
  rewrite <- adj_eq0_false. destruct (adj_eq0 a); split; congruence.
Qed.

Lemma adj_gt0_true (a : adj) : adj_gt0 a = true <-> adj_pos a.
Proof.
  destruct a as [q |]; simpl; [apply Qltb_true | split; [discriminate | tauto]].
Qed.

Lemma adj_lt0_true (a : adj) : adj_lt0 a = true <-> adj_neg a.
Proof.
  destruct a as [q |]; simpl; [apply Qltb_true | split; [discriminate | tauto]].
Qed.

Lemma adj_gt0_false (a : adj) : adj_gt0 a = false <-> ~ adj_pos a.
Proof.
  rewrite <- adj_gt0_true. destruct (adj_gt0 a); split; congruence.
Qed.

Lemma adj_lt0_false (a : adj) : adj_lt0 a = false <-> ~ adj_neg a.
Proof.
  rewrite <- adj_lt0_true. destruct (adj_lt0 a); split; congruence.
Qed.

Ltac qcases :=
  repeat match goal with
  | |- context [Qle_bool ?x ?y] =>
      let E := fresh "E" in
      destruct (Qle_bool x y) eqn:E;
      [apply Qle_bool_iff in E | apply Qle_bool_false in E]
  | |- context [Qltb ?x ?y] =>
      let E := fresh "E" in
      destruct (Qltb x y) eqn:E;
      [apply Qltb_true in E | apply Qltb_false in E]
  | |- context [Qeq_bool ?x ?y] =>
      let E := fresh "E" in
      destruct (Qeq_bool x y) eqn:E;
      [apply Qeq_bool_iff in E | apply Qeq_bool_false in E]
  end.

Ltac clip_cases :=
  unfold np_clip; unfold np_maximum; qcases; unfold np_minimum; qcases.

(** ** [np.clip], [max], [min], [np.percentile] *)

Lemma np_clip_bounds (x lo hi : Q) :
  lo <= hi -> lo <= np_clip x lo hi /\ np_clip x lo hi <= hi.
Proof.
  intros Hle. clip_cases; lra.
Qed.

Lemma np_clip_mono (x y lo hi : Q) :
  x <= y -> np_clip x lo hi <= np_clip y lo hi.
Proof.
  intros Hle. clip_cases; lra.
Qed.

Lemma np_clip_above (x lo hi : Q) :
  lo <= hi -> hi <= x -> np_clip x lo hi == hi.
Proof.
  intros H1 H2. clip_cases; lra.
Qed.

Lemma np_clip_inside (x lo hi : Q) :
  lo <= x -> x <= hi -> np_clip x lo hi == x.
Proof.
  intros H1 H2. clip_cases; lra.
Qed.

Lemma fold_maximum_ge (l : list Q) (x : Q) :
  x <= fold_left np_maximum l x /\
  Forall (fun y => y <= fold_left np_maximum l x) l.
Proof.
  revert x. induction l as [| y l IH]; intros x; simpl.
  - split; [lra | constructor].
  - destruct (IH (np_maximum x y)) as [H1 H2].
    assert (Hx : x <= np_maximum x y /\ y <= np_maximum x y)
      by (unfold np_maximum; qcases; lra).
    split; [lra |]. constructor; [lra | exact H2].
Qed.

Lemma fold_minimum_le (l : list Q) (x : Q) :
  fold_left np_minimum l x <= x /\
  Forall (fun y => fold_left np_minimum l x <= y) l.
Proof.
  revert x. induction l as [| y l IH]; intros x; simpl.
  - split; [lra | constructor].
  - destruct (IH (np_minimum x y)) as [H1 H2].
    assert (Hx : np_minimum x y <= x /\ np_minimum x y <= y)
      by (unfold np_minimum; qcases; lra).
    split; [lra |]. constructor; [lra | exact H2].
Qed.

Lemma fold_maximum_In (l : list Q) (x : Q) :
  In (fold_left np_maximum l x) (x :: l).
Proof.
  revert x. induction l as [| y l IH]; intros x; simpl.
  - left; reflexivity.
  - specialize (IH (np_maximum x y)). simpl in IH.
    unfold np_maximum in IH at 1. destruct (Qle_bool x y); tauto.
Qed.

Lemma fold_minimum_In (l : list Q) (x : Q) :
  In (fold_left np_minimum l x) (x :: l).
Proof.
  revert x. induction l as [| y l IH]; intros x; simpl.
  - left; reflexivity.
  - specialize (IH (np_minimum x y)). simpl in IH.
    unfold np_minimum in IH at 1. destruct (Qle_bool x y); tauto.
Qed.

(** The maximum is an element of the array and bounds every element. *)
Lemma np_max_spec (a : list Q) (m : Q) :
  np_max a = Ok m -> In m a /\ Forall (fun y => y <= m) a.
Proof.
  destruct a as [| x a]; simpl; [discriminate |].
  intros [= <-]. split.
  - apply (fold_maximum_In a x).
  - destruct (fold_maximum_ge a x). constructor; assumption.
Qed.

Lemma np_min_spec (a : list Q) (m : Q) :
  np_min a = Ok m -> In m a /\ Forall (fun y => m <= y) a.
Proof.
  destruct a as [| x a]; simpl; [discriminate |].
  intros [= <-]. split.
  - apply (fold_minimum_In a x).
  - destruct (fold_minimum_le a x). constructor; assumption.
Qed.

Lemma insert_sorted_In (x y : Q) (l : list Q) :
  In y (insert_sorted x l) <-> y = x \/ In y l.
Proof.
  induction l as [| z l IH]; simpl.
  - intuition.
  - destruct (Qle_bool x z); simpl; [intuition | rewrite IH; intuition].
Qed.

Lemma np_sort_In (y : Q) (a : list Q) : In y (np_sort a) <-> In y a.
Proof.
  induction a as [| x a IH]; simpl; [reflexivity |].
  rewrite insert_sorted_In, IH. intuition.
Qed.

Lemma nth_In_or_default (n : nat) (l : list Q) (d : Q) :
  In d l -> In (nth n l d) l.
Proof.
  intros Hd. destruct (Nat.lt_ge_cases n (length l)) as [Hlt | Hge].
  - apply nth_In; exact Hlt.
  - rewrite nth_overflow by exact Hge. exact Hd.
Qed.

(** A percentile lies between the extremes of the data. *)
Lemma np_percentile_between (a : list Q) (q p lo hi : Q) :
  np_percentile a q = Ok p ->
  Forall (fun y => lo <= y) a -> Forall (fun y => y <= hi) a ->
  lo <= p /\ p <= hi.
Proof.
  unfold np_percentile. intros Hp Hlo Hhi.
  destruct (negb (Qle_bool 0 q && Qle_bool q 100)); [discriminate |].
  destruct (np_sort a) as [| x0 s] eqn:Es; [discriminate |].
  apply Ok_inj in Hp. subst p. cbv zeta.
  set (v := q / 100 * inject_Z (Z.of_nat (length (x0 :: s)) - 1)).
  assert (Hin : forall n, In (nth n (x0 :: s) x0) a).
  { intros n. apply np_sort_In. rewrite Es.
    apply nth_In_or_default. left; reflexivity. }
  rewrite Forall_forall in Hlo, Hhi.
  set (l := nth (Z.to_nat (Qfloor v)) (x0 :: s) x0).
  match goal with
  | |- context [nth (Z.to_nat (Z.min ?a ?b)) ?s ?d] =>
      set (h := nth (Z.to_nat (Z.min a b)) s d)
  end.
  assert (Hl : lo <= l /\ l <= hi).
  { split; [apply Hlo | apply Hhi]; apply list_elem_of_In, Hin. }
  assert (Hh : lo <= h /\ h <= hi).
  { split; [apply Hlo | apply Hhi]; apply list_elem_of_In, Hin. }
  assert (Hg : 0 <= v - inject_Z (Qfloor v) /\ v - inject_Z (Qfloor v) <= 1).
  { pose proof (Qfloor_le v). pose proof (Qlt_floor v) as Hlt.
    rewrite inject_Z_plus in Hlt. change (inject_Z 1) with 1 in Hlt.
    split; lra. }
  set (g := v - inject_Z (Qfloor v)) in *.
  split; nra.
Qed.

Lemma np_percentile_Ok (a : list Q) (q : Q) :
  a <> [] -> 0 <= q -> q <= 100 -> exists p, np_percentile a q = Ok p.
Proof.
  intros Ha H0 H100. unfold np_percentile.
  apply Qle_bool_iff in H0. apply Qle_bool_iff in H100.
  rewrite H0, H100. simpl.
  destruct (np_sort a) as [| x0 s] eqn:Es.
  - destruct a as [| x a]; [congruence |].
    assert (Hx : In x (np_sort (x :: a))) by (apply np_sort_In; left; reflexivity).
    rewrite Es in Hx. destruct Hx.
  - eexists; reflexivity.
Qed.

(** ** The state and error monad *)

Lemma bind_inv {S A B} (m : M S A) (k : A -> M S B) (s s' : S)
    (r : result B) :
  bind m k s = (s', r) ->
  (exists a s1, m s = (s1, Ok a) /\ k a s1 = (s', r)) \/
  (exists e, m s = (s', Raise e) /\ r = Raise e).
Proof.
  unfold bind. destruct (m s) as [s1 [a | e]]; intros Hk.
  - left. exists a, s1. split; [reflexivity | exact Hk].
  - right. exists e. injection Hk as <- <-. split; reflexivity.
Qed.

Lemma bind_Ok_inv {S A B} (m : M S A) (k : A -> M S B) (s s' : S) (b : B) :
  bind m k s = (s', Ok b) ->
  exists a s1, m s = (s1, Ok a) /\ k a s1 = (s', Ok b).
Proof.
  intros Hb. apply bind_inv in Hb as [Hok | (e & _ & He)];
    [exact Hok | discriminate].
Qed.

Lemma lift_inv {S A} (r r' : result A) (s s' : S) :
  lift r s = (s', r') -> s' = s /\ r = r'.
Proof. unfold lift. intros [= <- <-]. split; reflexivity. Qed.

(** Peel one [bind] off a computation that returned normally. *)
Ltac bind_ok H :=
  let a := fresh "a" in
  let s1 := fresh "s" in
  let Hm := fresh "Hm" in
  apply bind_Ok_inv in H as (a & s1 & Hm & H);
  try match type of a with unit => destruct a end.

Tactic Notation "step_ok" hyp(H) "as" ident(a) ident(s1) ident(Hm) :=
  apply bind_Ok_inv in H as (a & s1 & Hm & H);
  try match type of a with unit => destruct a end.

Ltac lift_ok H :=
  let Hs := fresh "Hs" in
  let Hr := fresh "Hr" in
  apply lift_inv in H as [Hs Hr]; subst.

(** A completed loop has run its body at every element, between a
    completed prefix and a completed suffix. *)
Lemma for_each_Ok_split {S A} (body : A -> M S unit) (xs : list A)
    (x : A) (s s' : S) :
  for_each xs body s = (s', Ok tt) -> x ∈ xs ->
  exists pre post s1 s2,
    xs = pre ++ x :: post /\
    for_each pre body s = (s1, Ok tt) /\
    body x s1 = (s2, Ok tt) /\
    for_each post body s2 = (s', Ok tt).
Proof.
  revert s. induction xs as [| y xs IH]; intros s Hb Hin.
  - inversion Hin.
  - simpl in Hb. bind_ok Hb.
    apply elem_of_cons in Hin as [-> | Hin].
    + exists [], xs, s, s0. simpl. unfold ret. auto.
    + destruct (IH _ Hb Hin) as (pre & post & s1 & s2 & -> & Hpre & Hx & Hpost).
      exists (y :: pre), post, s1, s2. simpl. unfold bind. rewrite Hm.
      auto.
Qed.

(** A loop that completed on a prefix goes on from the state the prefix
    left. *)
Lemma for_each_app {S A} (body : A -> M S unit) (xs ys : list A)
    (s s1 : S) :
  for_each xs body s = (s1, Ok tt) ->
  for_each (xs ++ ys) body s = for_each ys body s1.
Proof.
  revert s. induction xs as [| x xs IH]; intros s; simpl.
  - unfold ret. intros [= <-]. reflexivity.
  - intros Hb. bind_ok Hb. unfold bind. rewrite Hm. apply IH. exact Hb.
Qed.

(** An exception raised by the body at the head of the loop ends the
    loop: nothing catches it. *)
Lemma for_each_raise {S A} (body : A -> M S unit) (x : A) (xs : list A)
    (s s' : S) (e : exn) :
  body x s = (s', Raise e) -> for_each (x :: xs) body s = (s', Raise e).
Proof. intros Hb. simpl. unfold bind. rewrite Hb. reflexivity. Qed.

(** ** Nonzero positions of a matrix *)

Lemma nonzero_row_spec (i j0 : nat) (row : list adj) (p : nat * nat) :
  p ∈ nonzero_row i j0 row <->
  exists j a, p = (i, (j0 + j)%nat) /\ row !! j = Some a /\ adj_nonzero a.
Proof.
  revert j0. induction row as [| x row IH]; intros j0; simpl.
  - split; [intros Hp; inversion Hp | intros (j & a & _ & Hl & _)].
    rewrite lookup_nil in Hl. discriminate.
  - destruct (adj_eq0 x) eqn:Ex.
    + rewrite IH. apply adj_eq0_true in Ex. split.
      * intros (j & a & -> & Hl & Hne). exists (S j), a.
        split; [f_equal; lia | split; assumption].
      * intros (j & a & -> & Hl & Hne). destruct j as [| j].
        -- simpl in Hl. injection Hl as ->. contradiction.
        -- exists j, a. split; [f_equal; lia | split; assumption].
    + apply adj_eq0_false in Ex. rewrite elem_of_cons, IH. split.
      * intros [-> | (j & a & -> & Hl & Hne)].
        -- exists 0%nat, x. split; [f_equal; lia | split; [reflexivity | exact Ex]].
        -- exists (S j), a. split; [f_equal; lia | split; assumption].
      * intros (j & a & -> & Hl & Hne). destruct j as [| j].
        -- left. f_equal; lia.
        -- right. exists j, a. split; [f_equal; lia | split; assumption].
Qed.

Lemma nonzero_from_spec (i0 : nat) (m : adjacency) (p : nat * nat) :
  p ∈ nonzero_from i0 m <->
  exists i a,
    p.1 = (i0 + i)%nat /\ mat_get m i p.2 = Ok a /\ adj_nonzero a.
Proof.
  revert i0. induction m as [| row m IH]; intros i0; simpl.
  - split; [intros Hp; inversion Hp | intros (i & a & _ & Hg & _)].
    unfold mat_get in Hg. destruct i; simpl in Hg; discriminate.
  - rewrite elem_of_app, nonzero_row_spec, IH. split.
    + intros [(j & a & -> & Hl & Hne) | (i & a & Hp & Hg & Hne)].
      * exists 0%nat, a. simpl. split; [lia |].
        unfold mat_get. simpl. rewrite Hl. split; [reflexivity | exact Hne].
      * exists (S i), a. split; [lia | split; [exact Hg | exact Hne]].
    + intros (i & a & Hp & Hg & Hne). destruct i as [| i].
      * left. unfold mat_get in Hg. simpl in Hg.
        destruct (row !! p.2) as [x |] eqn:Hl; [| discriminate].
        injection Hg as ->. exists p.2, a.
        split; [destruct p; simpl in *; f_equal; lia | split; assumption].
      * right. exists i, a. split; [lia | split; [exact Hg | exact Hne]].
Qed.

(** The positions visited by the edge loop are exactly the positions
    where the matrix has a nonzero entry. *)
Lemma nonzero_spec (m : adjacency) (i j : nat) :
  (i, j) ∈ nonzero m <-> exists a, mat_get m i j = Ok a /\ adj_nonzero a.
Proof.
  unfold nonzero. rewrite nonzero_from_spec. simpl. split.
  - intros (i' & a & -> & Hg & Hne). exists a. split; assumption.
  - intros (a & Hg & Hne). exists i, a. split; [reflexivity | split; assumption].
Qed.

Lemma mat_get_concat (m : matrix) (i j : nat) (a : Q) :
  mat_get m i j = Ok a -> a ∈ concat m.
Proof.
  unfold mat_get. intros Hg.
  destruct (m !! i) as [row |] eqn:Hi; [| discriminate].
  destruct (row !! j) as [x |] eqn:Hj; [| discriminate].
  injection Hg as ->. apply list_elem_of_In, in_concat. exists row.
  split; apply list_elem_of_In; eapply list_elem_of_lookup_2; eassumption.
Qed.

Lemma concat_mat_get (m : matrix) (a : Q) :
  a ∈ concat m -> exists i j, mat_get m i j = Ok a.
Proof.
  intros Ha. apply list_elem_of_In, in_concat in Ha as (row & Hrow & Hin).
  apply list_elem_of_In, list_elem_of_lookup in Hrow as [i Hi].
  apply list_elem_of_In, list_elem_of_lookup in Hin as [j Hj].
  exists i, j. unfold mat_get. rewrite Hi, Hj. reflexivity.
Qed.

(** The nonzero entries, as the code selects them. *)
Lemma nonzero_entries_spec (m : matrix) (a : Q) :
  a ∈ nonzero_entries m <->
  (exists i j, mat_get m i j = Ok a) /\ ~ a == 0.
Proof.
  unfold nonzero_entries. rewrite list_elem_of_filter, Qeq_bool_false.
  split.
  - intros [Hne Hin]. split; [apply concat_mat_get; exact Hin | exact Hne].
  - intros [(i & j & Hg) Hne]. split; [exact Hne |].
    eapply mat_get_concat; exact Hg.
Qed.

(** ** The inverse of [n2i] *)

Lemma invert_fold_lookup (n2i : dict_n2i) (acc : gmap Z string)
    (i : Z) (s : string) :
  fold_left (fun acc kv => <[kv.2 := kv.1]> acc) n2i acc !! i = Some s ->
  acc !! i = Some s \/ (s, i) ∈ n2i.
Proof.
  revert acc. induction n2i as [| [k v] n2i IH]; intros acc; simpl.
  - intros Hl; left; exact Hl.
  - intros Hl. apply IH in Hl as [Hl | Hin].
    + destruct (decide (v = i)) as [-> | Hne].
      * rewrite lookup_insert_eq in Hl. injection Hl as ->.
        right. left.
      * rewrite lookup_insert_ne in Hl by exact Hne. left; exact Hl.
    + right. right. exact Hin.
Qed.

Lemma invert_lookup (n2i : dict_n2i) (i : Z) (s : string) :
  invert n2i !! i = Some s -> (s, i) ∈ n2i.
Proof.
  unfold invert. intros Hl. apply invert_fold_lookup in Hl as [Hl | Hin].
  - rewrite lookup_empty in Hl. discriminate.
  - exact Hin.
Qed.

Lemma NoDup_fst_functional (n2i : dict_n2i) (s : string) (i j : Z) :
  NoDup n2i.*1 -> (s, i) ∈ n2i -> (s, j) ∈ n2i -> i = j.
Proof.
  induction n2i as [| [k v] n2i IH]; simpl; intros Hnd Hi Hj.
  - inversion Hi.
  - apply NoDup_cons in Hnd as [Hk Hnd].
    apply elem_of_cons in Hi as [Hi | Hi];
      apply elem_of_cons in Hj as [Hj | Hj].
    + congruence.
    + injection Hi as -> ->. exfalso. apply Hk.
      apply list_elem_of_fmap. exists (k, j). split; [reflexivity | exact Hj].
    + injection Hj as -> ->. exfalso. apply Hk.
      apply list_elem_of_fmap. exists (k, i). split; [reflexivity | exact Hi].
    + apply IH; assumption.
Qed.

(** A dict has each key once, so its inverse never maps two indices to
    one name. *)
Lemma invert_inj (n2i : dict_n2i) (i j : Z) (s : string) :
  NoDup n2i.*1 ->
  invert n2i !! i = Some s -> invert n2i !! j = Some s -> i = j.
Proof.
  intros Hnd Hi Hj. apply invert_lookup in Hi, Hj.
  eapply NoDup_fst_functional; eassumption.
Qed.

Section Properties.
Context `{Host}.

(** ** The edge pass *)

Lemma update_edge_at_Ok (A : adjacency) (F : matrix) (i2n : gmap Z string)
    (flow_max flow_min flow_thr lw_min lw_max : Q) (p : nat * nat)
    (net net' : Network) :
  update_edge_at A F i2n flow_max flow_min flow_thr lw_min lw_max p net
    = (net', Ok tt) ->
  exists k e,
    edge_written A F i2n flow_max flow_min flow_thr lw_min lw_max p k e /\
    nodes net' = nodes net /\ labels net' = labels net /\
    nxgraph net' = <[k := e]> (nxgraph net).
Proof.
  destruct p as [i j]. unfold update_edge_at. intros Hb.
  bind_ok Hb. lift_ok Hm. rename a into tgt.
  bind_ok Hb. lift_ok Hm. rename a into src.
  bind_ok Hb. lift_ok Hm. rename a into f.
  bind_ok Hb. rename a into edge.
  unfold get_edge in Hm.
  destruct (nxgraph net !! (src, tgt)) as [e0 |] eqn:He; [| discriminate].
  injection Hm as <- <-.
  bind_ok Hb. lift_ok Hm. rename a into hc.
  unfold set_edge, modify in Hb. injection Hb as <-.
  unfold i2n_get in *.
  destruct (i2n !! Z.of_nat i) as [t |] eqn:Hi; [| discriminate].
  destruct (i2n !! Z.of_nat j) as [s |] eqn:Hj; [| discriminate].
  injection Hr as ->. injection Hr0 as ->.
  eexists (src, tgt), _. split; [| simpl; auto].
  exists f, hc. simpl. rewrite Hi, Hj.
  do 7 (split; [first [assumption | reflexivity] |]).
  destruct (head_size hc.1 _); reflexivity.
Qed.

Lemma update_edge_at_frame (A : adjacency) (F : matrix) (i2n : gmap Z string)
    (flow_max flow_min flow_thr lw_min lw_max : Q) (p : nat * nat)
    (net net' : Network) (r : result unit) :
  update_edge_at A F i2n flow_max flow_min flow_thr lw_min lw_max p net
    = (net', r) ->
  nodes net' = nodes net /\ labels net' = labels net.
Proof.
  destruct p as [i j].
  unfold update_edge_at, bind, lift, get_edge, set_edge, modify, i2n_get.
  destruct (i2n !! Z.of_nat i) as [tgt |]; [| intros [= <- _]; auto].
  destruct (i2n !! Z.of_nat j) as [src |]; [| intros [= <- _]; auto].
  destruct (mat_get F i j) as [f |]; [| intros [= <- _]; auto].
  destruct (nxgraph net !! (src, tgt)) as [e |]; [| intros [= <- _]; auto].
  destruct (head_and_color f (mat_get A i j)) as [hc |];
    intros [= <- _]; auto.
Qed.

Lemma edge_written_key A F i2n fmax fmin fthr lmin lmax p k e :
  edge_written A F i2n fmax fmin fthr lmin lmax p k e ->
  edge_key i2n p = Some k.
Proof.
  intros (f & hc & H1 & H2 & _). unfold edge_key. rewrite H1, H2.
  destruct k; reflexivity.
Qed.

Lemma edge_key_inj (i2n : gmap Z string) (p p' : nat * nat)
    (k : string * string) :
  i2n_injective i2n ->
  edge_key i2n p = Some k -> edge_key i2n p' = Some k -> p = p'.
Proof.
  unfold edge_key. intros Hinj Hp Hp'.
  destruct (i2n !! Z.of_nat p.2) as [s |] eqn:H2; [| discriminate].
  destruct (i2n !! Z.of_nat p.1) as [t |] eqn:H1; [| discriminate].
  destruct (i2n !! Z.of_nat p'.2) as [s' |] eqn:H2'; [| discriminate].
  destruct (i2n !! Z.of_nat p'.1) as [t' |] eqn:H1'; [| discriminate].
  injection Hp as <-. injection Hp' as [= -> ->].
  pose proof (Hinj _ _ _ H1 H1') as E1.
  pose proof (Hinj _ _ _ H2 H2') as E2.
  destruct p, p'; simpl in *. f_equal; lia.
Qed.

(** After a completed loop, the edge of every visited position holds what
    the body wrote for a visited position with the same key; an edge
    that is the key of no visited position is untouched. *)
Lemma edge_loop_spec (A : adjacency) (F : matrix) (i2n : gmap Z string)
    (flow_max flow_min flow_thr lw_min lw_max : Q) (ps : list (nat * nat))
    (net net' : Network) :
  for_each ps
    (update_edge_at A F i2n flow_max flow_min flow_thr lw_min lw_max) net
    = (net', Ok tt) ->
  (forall k, (forall p, p ∈ ps -> edge_key i2n p <> Some k) ->
     nxgraph net' !! k = nxgraph net !! k) /\
  (forall p, p ∈ ps -> exists k e p',
     edge_key i2n p = Some k /\ p' ∈ ps /\
     nxgraph net' !! k = Some e /\
     edge_written A F i2n flow_max flow_min flow_thr lw_min lw_max p' k e).
Proof.
  revert net. induction ps as [| p0 ps IH]; intros net; simpl.
  - unfold ret. intros [= <-]. split; [auto |].
    intros p Hp. inversion Hp.
  - intros Hb. bind_ok Hb.
    apply update_edge_at_Ok in Hm as (k0 & e0 & Hw & Hn & Hl & Hg).
    apply IH in Hb as (Hframe & Hall).
    pose proof (edge_written_key _ _ _ _ _ _ _ _ _ _ _ Hw) as Hk0.
    split.
    + intros k Hk. rewrite Hframe.
      * rewrite Hg. apply lookup_insert_ne. intros ->.
        apply (Hk p0); [left | exact Hk0].
      * intros p Hp. apply Hk. right. exact Hp.
    + assert (Hlater : forall p, p ∈ ps -> exists k e p',
                edge_key i2n p = Some k /\ p' ∈ p0 :: ps /\
                nxgraph net' !! k = Some e /\
                edge_written A F i2n flow_max flow_min flow_thr
                             lw_min lw_max p' k e).
      { intros p Hp. destruct (Hall p Hp) as (k & e & p' & Hk & Hp' & Hl' & Hw').
        exists k, e, p'. split; [exact Hk |].
        split; [right; exact Hp' | split; assumption]. }
      intros p Hp. apply elem_of_cons in Hp as [-> | Hp]; [| auto].
      destruct (decide (Exists (fun p' => edge_key i2n p' = Some k0) ps))
        as [Hex | Hnex].
      * apply Exists_exists in Hex as (p' & Hp' & Hk').
        destruct (Hlater p' Hp') as (k & e & p'' & Hk & Hp'' & Hl' & Hw').
        assert (k = k0) by congruence. subst k.
        exists k0, e, p''. auto.
      * exists k0, e0, p0. split; [exact Hk0 |].
        split; [left |]. split; [| exact Hw].
        rewrite Hframe; [rewrite Hg; apply lookup_insert_eq |].
        intros p' Hp' Hk'. apply Hnex, Exists_exists.
        exists p'. split; assumption.
Qed.

(** The edge pass never touches nodes or labels, however it ends. *)
Lemma edge_loop_frame (A : adjacency) (F : matrix) (i2n : gmap Z string)
    (flow_max flow_min flow_thr lw_min lw_max : Q) (ps : list (nat * nat))
    (net net' : Network) (r : result unit) :
  for_each ps
    (update_edge_at A F i2n flow_max flow_min flow_thr lw_min lw_max) net
    = (net', r) ->
  nodes net' = nodes net /\ labels net' = labels net.
Proof.
  revert net. induction ps as [| p0 ps IH]; intros net; simpl.
  - unfold ret. intros [= <- _]. auto.
  - intros Hb. apply bind_inv in Hb as [(a & s1 & Hm & Hb) | (e & Hm & _)].
    + apply update_edge_at_frame in Hm as [Hn Hl].
      apply IH in Hb as [Hn' Hl']. split; congruence.
    + apply update_edge_at_frame in Hm. exact Hm.
Qed.

Lemma update_edges_frame (A : adjacency) (F : matrix) (i2n : gmap Z string)
    (pct lmin lmax : Q) (net net' : Network) (r : result unit) :
  _update_edges A F i2n pct lmin lmax net = (net', r) ->
  nodes net' = nodes net /\ labels net' = labels net.
Proof.
  unfold _update_edges. intros Hb.
  repeat match goal with
  | Hb : bind (lift _) _ _ = _ |- _ =>
      apply bind_inv in Hb as [(? & ? & Hm & Hb) | (? & Hm & _)];
      apply lift_inv in Hm as [-> _]
  end; try (split; reflexivity).
  eapply edge_loop_frame; exact Hb.
Qed.

(** What a completed edge pass has done. *)
Lemma update_edges_Ok (A : adjacency) (F : matrix) (i2n : gmap Z string)
    (pct lmin lmax : Q) (net net' : Network) :
  _update_edges A F i2n pct lmin lmax net = (net', Ok tt) ->
  exists flow_max flow_min flow_thr,
    np_max (log_flows_of F) = Ok flow_max /\
    np_min (log_flows_of F) = Ok flow_min /\
    np_percentile (log_flows_of F) pct = Ok flow_thr /\
    forall p, p ∈ nonzero A -> exists k e p',
      edge_key i2n p = Some k /\ p' ∈ nonzero A /\
      nxgraph net' !! k = Some e /\
      edge_written A F i2n flow_max flow_min flow_thr lmin lmax p' k e.
Proof.
  unfold _update_edges. intros Hb.
  bind_ok Hb. lift_ok Hm. rename a into flow_max.
  bind_ok Hb. lift_ok Hm. rename a into flow_min.
  bind_ok Hb. lift_ok Hm. rename a into flow_thr.
  exists flow_max, flow_min, flow_thr. repeat split; try assumption.
  apply edge_loop_spec in Hb as (_ & Hall). exact Hall.
Qed.

(** With an injective [i2n] the edge of a visited position holds what the
    body wrote for that very position. *)
Lemma update_edges_Ok_exact (A : adjacency) (F : matrix) (i2n : gmap Z string)
    (pct lmin lmax : Q) (net net' : Network) :
  i2n_injective i2n ->
  _update_edges A F i2n pct lmin lmax net = (net', Ok tt) ->
  exists flow_max flow_min flow_thr,
    np_max (log_flows_of F) = Ok flow_max /\
    np_min (log_flows_of F) = Ok flow_min /\
    np_percentile (log_flows_of F) pct = Ok flow_thr /\
    forall p, p ∈ nonzero A -> exists k e,
      nxgraph net' !! k = Some e /\
      edge_written A F i2n flow_max flow_min flow_thr lmin lmax p k e.
Proof.
  intros Hinj Hb.
  apply update_edges_Ok in Hb as (fmax & fmin & fthr & H1 & H2 & H3 & Hall).
  exists fmax, fmin, fthr. repeat split; try assumption.
  intros p Hp. destruct (Hall p Hp) as (k & e & p' & Hk & Hp' & Hl & Hw).
  pose proof (edge_written_key _ _ _ _ _ _ _ _ _ _ _ Hw) as Hk'.
  rewrite (edge_key_inj _ _ _ _ Hinj Hk Hk'). exists k, e. auto.
Qed.

(** [visualize] is the node pass followed by the edge pass. *)
Lemma visualize_inv (F : matrix) (acts : list Q) (A : adjacency)
    (n2i : dict_n2i) (o : Options) (net net' : Network) (r : result unit) :
  visualize F acts A n2i o net = (net', r) ->
  (exists net1,
     visualize_nodes acts n2i o net = (net1, Ok tt) /\
     _update_edges A F (invert n2i) (pct_edge o) (lw_min o) (lw_max o) net1
       = (net', r)) \/
  (exists e, visualize_nodes acts n2i o net = (net', Raise e) /\
             r = Raise e).
Proof.
  unfold visualize. intros Hb.
  apply bind_inv in Hb as [([] & s1 & Hm & Hb) | (e & Hm & Hr)].
  - left. exists s1. split; assumption.
  - right. exists e. split; assumption.
Qed.

Lemma visualize_Ok_inv (F : matrix) (acts : list Q) (A : adjacency)
    (n2i : dict_n2i) (o : Options) (net net' : Network) :
  visualize F acts A n2i o net = (net', Ok tt) ->
  exists net1,
    visualize_nodes acts n2i o net = (net1, Ok tt) /\
    _update_edges A F (invert n2i) (pct_edge o) (lw_min o) (lw_max o) net1
      = (net', Ok tt).
Proof.
  intros Hv. apply visualize_inv in Hv as [Hok | (e & _ & He)];
    [exact Hok | discriminate].
Qed.

Lemma invert_injective (n2i : dict_n2i) :
  NoDup n2i.*1 -> i2n_injective (invert n2i).
Proof. intros Hnd i j s. apply invert_inj. exact Hnd. Qed.

(** ** Log-flows and widths *)

Lemma log_flows_elem (F : matrix) (x : Q) :
  In x (log_flows_of F) <->
  exists i j f, mat_get F i j = Ok f /\ ~ f == 0 /\ x = log10 (Qabs f).
Proof.
  unfold log_flows_of. rewrite in_map_iff. split.
  - intros (f & <- & Hin).
    apply list_elem_of_In, nonzero_entries_spec in Hin as [(i & j & Hg) Hne].
    exists i, j, f. auto.
  - intros (i & j & f & Hg & Hne & ->). exists f. split; [reflexivity |].
    apply list_elem_of_In, nonzero_entries_spec. split; [| exact Hne].
    exists i, j. exact Hg.
Qed.

Lemma log_flows_max (F : matrix) (m : Q) :
  np_max (log_flows_of F) = Ok m -> is_flow_max F m.
Proof.
  intros Hm. apply np_max_spec in Hm as [Hin Hall]. split.
  - apply log_flows_elem. exact Hin.
  - intros i j f Hg Hne. rewrite Forall_forall in Hall.
    apply Hall, list_elem_of_In, log_flows_elem. exists i, j, f. auto.
Qed.

Lemma log_flows_min (F : matrix) (m : Q) :
  np_min (log_flows_of F) = Ok m -> is_flow_min F m.
Proof.
  intros Hm. apply np_min_spec in Hm as [Hin Hall]. split.
  - apply log_flows_elem. exact Hin.
  - intros i j f Hg Hne. rewrite Forall_forall in Hall.
    apply Hall, list_elem_of_In, log_flows_elem. exists i, j, f. auto.
Qed.

(** The three statistics of a nonempty array are ordered. *)
Lemma flow_stats_ordered (l : list Q) (pct fmax fmin fthr : Q) :
  np_max l = Ok fmax -> np_min l = Ok fmin -> np_percentile l pct = Ok fthr ->
  fmin <= fthr /\ fthr <= fmax.
Proof.
  intros Hmax Hmin Hthr.
  apply np_max_spec in Hmax as [_ Hmax]. apply np_min_spec in Hmin as [_ Hmin].
  eapply np_percentile_between; eassumption.
Qed.

Lemma np_clip_clipped (x lo hi : Q) :
  lo <= hi -> np_clip x lo hi == clipped x lo hi.
Proof.
  intros Hle. unfold clipped. clip_cases; qcases; lra.
Qed.



Lemma width_for_mono (fmax fmin fthr lmin lmax f1 f2 : Q) :
  lmin <= lmax -> fmin <= fmax -> ~ f1 == 0 -> ~ f2 == 0 ->
  log10 (Qabs f1) <= log10 (Qabs f2) ->
  width_for fmax fmin fthr lmin lmax f1
    <= width_for fmax fmin fthr lmin lmax f2.
Proof.
  intros Hl Hf Hn1 Hn2 Hle. unfold width_for.
  apply Qeq_bool_false in Hn1, Hn2. rewrite Hn1, Hn2.
  destruct (Qeq_bool (fmax - fmin) 0) eqn:Ed; [lra |].
  apply Qeq_bool_false in Ed.
  pose proof (np_clip_mono _ _ fmin fthr Hle) as Hc.
  set (c1 := np_clip (log10 (Qabs f1)) fmin fthr) in *.
  set (c2 := np_clip (log10 (Qabs f2)) fmin fthr) in *.
  assert (Hd : 0 < fmax - fmin) by lra.
  assert (Ht : (c1 - fmin) / (fmax - fmin) <= (c2 - fmin) / (fmax - fmin)).
  { apply Qmult_le_compat_r; [lra |]. apply Qlt_le_weak, Qinv_lt_0_compat, Hd. }
  set (t1 := (c1 - fmin) / (fmax - fmin)) in *.
  set (t2 := (c2 - fmin) / (fmax - fmin)) in *.
  nra.
Qed.

Lemma width_for_clamped (fmax fmin fthr lmin lmax f : Q) :
  fmin <= fthr -> ~ f == 0 -> fthr <= log10 (Qabs f) ->
  width_for fmax fmin fthr lmin lmax f ==
  if Qeq_bool (fmax - fmin) 0 then (1 # 2) * (lmax + lmin)
  else linear_interpolation fthr fmin fmax lmin lmax.
Proof.
  intros H1 Hn Hge. unfold width_for, linear_interpolation.
  apply Qeq_bool_false in Hn. rewrite Hn.
  destruct (Qeq_bool (fmax - fmin) 0) eqn:Ed; [reflexivity |].
  rewrite (np_clip_above _ _ _ H1 Hge). ring.
Qed.

(** The [_update_edges] code on an edge with nonzero flow, when the
    extremes differ, against the spec's wording. *)
Lemma width_for_interpolation (fmax fmin fthr lmin lmax f : Q) :
  fmin <= fthr -> ~ f == 0 -> ~ fmax == fmin ->
  width_for fmax fmin fthr lmin lmax f ==
  linear_interpolation (clipped (log10 (Qabs f)) fmin fthr)
                       fmin fmax lmin lmax.
Proof.
  intros H1 Hn Hd. unfold width_for, linear_interpolation.
  apply Qeq_bool_false in Hn. rewrite Hn.
  assert (Ed : Qeq_bool (fmax - fmin) 0 = false).
  { apply Qeq_bool_false. intros E. apply Hd. lra. }
  rewrite Ed. rewrite (np_clip_clipped _ _ _ H1). ring.
Qed.

(** Where the edge loop goes: the positions with a nonzero adjacency
    entry. *)
Lemma visited_position (A : adjacency) (i j : nat) (a : adj) :
  mat_get A i j = Ok a -> adj_nonzero a -> (i, j) ∈ nonzero A.
Proof. intros Hg Hne. apply nonzero_spec. exists a. auto. Qed.

Lemma edge_key_Some (i2n : gmap Z string) (i j : nat) (k : string * string) :
  edge_key i2n (i, j) = Some k ->
  i2n !! Z.of_nat i = Some k.2 /\ i2n !! Z.of_nat j = Some k.1.
Proof.
  unfold edge_key. simpl.
  destruct (i2n !! Z.of_nat j) as [s |]; [| discriminate].
  destruct (i2n !! Z.of_nat i) as [t |]; [| discriminate].
  intros [= <-]. split; reflexivity.
Qed.

Lemma head_and_color_class (f : Q) (a : adj) (hc : HeadClass * Color) :
  head_and_color f (Ok a) = Ok hc ->
  (0 < f -> hc.1 = PosHead) /\
  (f < 0 -> hc.1 = NegHead) /\
  (f == 0 -> adj_pos a -> hc.1 = PosHead) /\
  (f == 0 -> adj_neg a -> hc.1 = NegHead).
Proof.
  unfold head_and_color.
  destruct (Qltb 0 f) eqn:E1; [apply Qltb_true in E1 | apply Qltb_false in E1].
  { intros [= <-]; simpl; repeat split; intros; try reflexivity; lra. }
  destruct (Qltb f 0) eqn:E2; [apply Qltb_true in E2 | apply Qltb_false in E2].
  { intros [= <-]; simpl; repeat split; intros; try reflexivity; lra. }
  destruct (adj_gt0 a) eqn:E3.
  - apply adj_gt0_true in E3. intros [= <-]; simpl.
    repeat split; intros; try reflexivity; try lra.
    destruct a as [q |]; simpl in *; [lra | contradiction].
  - apply adj_gt0_false in E3.
    destruct (adj_lt0 a) eqn:E4; [| discriminate].
    intros [= <-]; simpl.
    repeat split; intros; try reflexivity; try lra. contradiction.
Qed.

Lemma head_and_color_abnormal (f : Q) (a : adj) :
  f == 0 -> ~ adj_pos a -> ~ adj_neg a ->
  head_and_color f (Ok a) = Raise (RuntimeError "The logic is abnormal.").
Proof.
  intros Hf Hp Hn. unfold head_and_color.
  apply adj_gt0_false in Hp. apply adj_lt0_false in Hn. rewrite Hp, Hn.
  qcases; try reflexivity; lra.
Qed.

(** The loop body at a position whose flow is zero and whose adjacency
    entry has no sign: when it finds its edge it raises, the Network as
    it was. *)
Lemma update_edge_at_abnormal (A : adjacency) (F : matrix)
    (i2n : gmap Z string) (fmax fmin fthr lmin lmax : Q) (i j : nat)
    (f : Q) (a : adj) (net : Network) (k : string * string) :
  mat_get F i j = Ok f -> mat_get A i j = Ok a ->
  f == 0 -> ~ adj_pos a -> ~ adj_neg a ->
  edge_key i2n (i, j) = Some k -> is_Some (nxgraph net !! k) ->
  update_edge_at A F i2n fmax fmin fthr lmin lmax (i, j) net
  = (net, Raise (RuntimeError "The logic is abnormal.")).
Proof.
  intros Hf Ha H0 Hp Hn Hk [e He].
  apply edge_key_Some in Hk as [Hi Hj].
  unfold update_edge_at, bind, lift, i2n_get, get_edge.
  rewrite Hi, Hj, Hf. destruct k as [src tgt]. simpl. rewrite He, Ha.
  rewrite head_and_color_abnormal by assumption. reflexivity.
Qed.

(** C2: for every position (i, j) where A is nonzero, a completed call of
    [visualize] leaves on the edge from node [i2n[j]] to node [i2n[i]] a
    positive head if F[i, j] > 0, a negative head if F[i, j] < 0, and for
    F[i, j] = 0 the head given by the sign of A[i, j].  When F[i, j] is
    zero and A[i, j] has neither sign (it is NaN), no call completes, and
    a call whose edge loop reaches the position (the node pass and the
    statistics of the flows are computed, the positions before it are
    done, the edge exists) ends with the RuntimeError of line 54, which
    nothing catches; the Network is as the loop left it before that
    position. *)
Theorem C2_arrowhead_polarity (F : matrix) (acts : list Q) (A : adjacency)
    (n2i : dict_n2i) (o : Options) (net : Network) (i j : nat) (a : adj) :
  mat_get A i j = Ok a -> adj_nonzero a ->
  (forall net',
     NoDup n2i.*1 ->
     visualize F acts A n2i o net = (net', Ok tt) ->
     exists tgt src f e,
       invert n2i !! Z.of_nat i = Some tgt /\
       invert n2i !! Z.of_nat j = Some src /\
       mat_get F i j = Ok f /\
       nxgraph net' !! (src, tgt) = Some e /\
       (0 < f -> head_class (edge_head e) = PosHead) /\
       (f < 0 -> head_class (edge_head e) = NegHead) /\
       (f == 0 -> adj_pos a -> head_class (edge_head e) = PosHead) /\
       (f == 0 -> adj_neg a -> head_class (edge_head e) = NegHead)) /\
  (forall f,
     mat_get F i j = Ok f -> f == 0 -> ~ adj_pos a -> ~ adj_neg a ->
     (forall net', visualize F acts A n2i o net <> (net', Ok tt)) /\
     (forall net1 flow_max flow_min flow_thr ps qs net2 k,
        visualize_nodes acts n2i o net = (net1, Ok tt) ->
        np_max (log_flows_of F) = Ok flow_max ->
        np_min (log_flows_of F) = Ok flow_min ->
        np_percentile (log_flows_of F) (pct_edge o) = Ok flow_thr ->
        nonzero A = ps ++ (i, j) :: qs ->
        for_each ps
          (update_edge_at A F (invert n2i) flow_max flow_min flow_thr
             (lw_min o) (lw_max o)) net1 = (net2, Ok tt) ->
        edge_key (invert n2i) (i, j) = Some k ->
        is_Some (nxgraph net2 !! k) ->
        visualize F acts A n2i o net
        = (net2, Raise (RuntimeError "The logic is abnormal.")))).
Proof.
  intros Ha Hne. split.
  - intros net' Hnd Hv.
    apply visualize_Ok_inv in Hv as (net1 & _ & He).
    apply update_edges_Ok_exact in He
      as (fmax & fmin & fthr & _ & _ & _ & Hall);
      [| apply invert_injective; exact Hnd].
    destruct (Hall (i, j) (visited_position _ _ _ _ Ha Hne))
      as ([src tgt] & e & Hl & f & hc & Hi & Hj & Hf & Hhc & Hcl & _).
    simpl in *. rewrite Ha in Hhc.
    apply head_and_color_class in Hhc. rewrite <- Hcl in Hhc.
    exists tgt, src, f, e. tauto.
  - intros f Hf H0 Hp Hn. split.
    + intros net' Hv.
      apply visualize_Ok_inv in Hv as (net1 & _ & He).
      unfold _update_edges in He.
      step_ok He as fmax s0 Hmax. lift_ok Hmax.
      step_ok He as fmin s1 Hmin. lift_ok Hmin.
      step_ok He as fthr s2 Hthr. lift_ok Hthr.
      destruct (for_each_Ok_split _ _ (i, j) _ _ He
                  (visited_position _ _ _ _ Ha Hne))
        as (pre & post & s1 & s2 & _ & _ & Hbody & _).
      apply update_edge_at_Ok in Hbody
        as (k & e & (g & hc & _ & _ & Hg & Hhc & _) & _).
      simpl in Hg, Hhc. assert (g = f) by congruence. subst g.
      rewrite Ha, head_and_color_abnormal in Hhc by assumption.
      discriminate.
    + intros net1 fmax fmin fthr ps qs net2 k Hnodes Hmax Hmin Hthr Hnz
             Hpre Hk Hsome.
      unfold visualize, bind. rewrite Hnodes.
      unfold _update_edges, bind, lift. rewrite Hmax, Hmin, Hthr, Hnz.
      rewrite (for_each_app _ _ _ _ _ Hpre).
      apply for_each_raise.
      eapply update_edge_at_abnormal; eassumption.
Qed.

(** C3: for every position (i, j) where A is nonzero, with f = F[i, j], a
    completed call of [visualize] leaves on the edge a width equal to
    lw_min when f = 0, to (lw_min + lw_max)/2 when the extremes flow_max
    and flow_min of the log-flows coincide, and otherwise to the linear
    interpolation of clip(log10|f|, flow_min, flow_thr) from
    [flow_min, flow_max] into [lw_min, lw_max], flow_thr being the
    pct_edge-th percentile of the log-flows. *)
Theorem C3_edge_width (F : matrix) (acts : list Q) (A : adjacency)
    (n2i : dict_n2i) (o : Options) (net net' : Network)
    (i j : nat) (a : adj) :
  NoDup n2i.*1 ->
  visualize F acts A n2i o net = (net', Ok tt) ->
  mat_get A i j = Ok a -> adj_nonzero a ->
  exists flow_max flow_min flow_thr tgt src f e,
    is_flow_max F flow_max /\ is_flow_min F flow_min /\
    np_percentile (log_flows_of F) (pct_edge o) = Ok flow_thr /\
    invert n2i !! Z.of_nat i = Some tgt /\
    invert n2i !! Z.of_nat j = Some src /\
    mat_get F i j = Ok f /\
    nxgraph net' !! (src, tgt) = Some e /\
    (f == 0 -> edge_width e == lw_min o) /\
    (~ f == 0 -> flow_max == flow_min ->
       edge_width e == (lw_min o + lw_max o) / 2) /\
    (~ f == 0 -> ~ flow_max == flow_min ->
       edge_width e ==
       linear_interpolation (clipped (log10 (Qabs f)) flow_min flow_thr)
                            flow_min flow_max (lw_min o) (lw_max o)).
Proof.
  intros Hnd Hv Ha Hne.
  apply visualize_Ok_inv in Hv as (net1 & _ & He).
  apply update_edges_Ok_exact in He
    as (fmax & fmin & fthr & Hmax & Hmin & Hthr & Hall);
    [| apply invert_injective; exact Hnd].
  destruct (Hall (i, j) (visited_position _ _ _ _ Ha Hne))
    as ([src tgt] & e & Hl & f & hc & Hi & Hj & Hf & _ & _ & _ & Hw & _).
  simpl in *.
  destruct (flow_stats_ordered _ _ _ _ _ Hmax Hmin Hthr) as [Hlo Hhi].
  exists fmax, fmin, fthr, tgt, src, f, e.
  split; [apply log_flows_max; exact Hmax |].
  split; [apply log_flows_min; exact Hmin |].
  do 5 (split; [assumption |]). rewrite Hw. repeat split.
  - intros Hz. unfold width_for. apply Qeq_bool_iff in Hz. rewrite Hz.
    reflexivity.
  - intros Hnz Heq. unfold width_for. apply Qeq_bool_false in Hnz.
    rewrite Hnz.
    assert (Ed : Qeq_bool (fmax - fmin) 0 = true)
      by (apply Qeq_bool_iff; lra).
    rewrite Ed. field.
  - intros Hnz Hd. apply width_for_interpolation; assumption.
Qed.


(** Exact arithmetic is the rounding operator that rounds nothing. *)
Lemma exact_rounding : rounding (fun x => x).
Proof. constructor; intros; (reflexivity || assumption). Qed.

(** The grid of the multiples of 1/16 gives a rounding operator. *)
Lemma Qfloor_unique (q : Q) (z : Z) :
  inject_Z z <= q -> q < inject_Z (z + 1) -> Qfloor q = z.
Proof.
  intros Hle Hlt.
  pose proof (Qfloor_le q) as H1. pose proof (Qlt_floor q) as H2.
  assert (Ha : (z < Qfloor q + 1)%Z).
  { rewrite Zlt_Qlt. lra. }
  assert (Hb : (Qfloor q < z + 1)%Z).
  { rewrite Zlt_Qlt. lra. }
  lia.
Qed.

Lemma round_16_rounding : rounding round_16.
Proof.
  constructor.
  - intros x y Hle. unfold round_16.
    apply Qmult_le_compat_r; [| discriminate].
    rewrite <- Zle_Qle. apply Qfloor_resp_le. lra.
  - reflexivity.
  - reflexivity.
  - intros x. unfold round_16.
    set (z := Qfloor (x * 16 + (1 # 2))).
    assert (E : Qfloor (inject_Z z / 16 * 16 + (1 # 2)) = z).
    { apply Qfloor_unique.
      - field_simplify. lra.
      - rewrite inject_Z_plus. field_simplify. lra. }
    rewrite E. reflexivity.
Qed.


(** C6 (amended): after a completed call of [visualize], whenever
    lw_min <= lw_max, the widths of two edges with nonzero flows f1 and f2
    are ordered like log10|f1| and log10|f2| when both lie in
    [flow_min, flow_thr]; whatever lw_min and lw_max are, an edge whose
    log10|f| is at least flow_thr has the width taken at flow_thr. *)
Theorem C6_edge_width_monotone (F : matrix) (acts : list Q) (A : adjacency)
    (n2i : dict_n2i) (o : Options) (net net' : Network)
    (i1 j1 i2 j2 : nat) (a1 a2 : adj) (f1 f2 : Q) :
  NoDup n2i.*1 ->
  visualize F acts A n2i o net = (net', Ok tt) ->
  mat_get A i1 j1 = Ok a1 -> adj_nonzero a1 ->
  mat_get A i2 j2 = Ok a2 -> adj_nonzero a2 ->
  mat_get F i1 j1 = Ok f1 -> ~ f1 == 0 ->
  mat_get F i2 j2 = Ok f2 -> ~ f2 == 0 ->
  exists flow_max flow_min flow_thr tgt1 src1 e1 tgt2 src2 e2,
    is_flow_max F flow_max /\ is_flow_min F flow_min /\
    np_percentile (log_flows_of F) (pct_edge o) = Ok flow_thr /\
    invert n2i !! Z.of_nat i1 = Some tgt1 /\
    invert n2i !! Z.of_nat j1 = Some src1 /\
    nxgraph net' !! (src1, tgt1) = Some e1 /\
    invert n2i !! Z.of_nat i2 = Some tgt2 /\
    invert n2i !! Z.of_nat j2 = Some src2 /\
    nxgraph net' !! (src2, tgt2) = Some e2 /\
    (lw_min o <= lw_max o ->
     flow_min <= log10 (Qabs f1) ->
     log10 (Qabs f1) <= log10 (Qabs f2) ->
     log10 (Qabs f2) <= flow_thr ->
     edge_width e1 <= edge_width e2) /\
    (flow_thr <= log10 (Qabs f1) ->
     edge_width e1 ==
     if Qeq_bool (flow_max - flow_min) 0
     then (1 # 2) * (lw_max o + lw_min o)
     else linear_interpolation flow_thr flow_min flow_max
                               (lw_min o) (lw_max o)).
Proof.
  intros Hnd Hv Ha1 Hn1 Ha2 Hn2 Hf1 Hz1 Hf2 Hz2.
  apply visualize_Ok_inv in Hv as (net1 & _ & He).
  apply update_edges_Ok_exact in He
    as (fmax & fmin & fthr & Hmax & Hmin & Hthr & Hall);
    [| apply invert_injective; exact Hnd].
  destruct (Hall (i1, j1) (visited_position _ _ _ _ Ha1 Hn1))
    as ([src1 tgt1] & e1 & Hl1 & g1 & hc1 & Hi1 & Hj1 & Hg1 & _ & _ & _
        & Hw1 & _).
  destruct (Hall (i2, j2) (visited_position _ _ _ _ Ha2 Hn2))
    as ([src2 tgt2] & e2 & Hl2 & g2 & hc2 & Hi2 & Hj2 & Hg2 & _ & _ & _
        & Hw2 & _).
  simpl in *.
  assert (g1 = f1) by congruence. assert (g2 = f2) by congruence. subst.
  destruct (flow_stats_ordered _ _ _ _ _ Hmax Hmin Hthr) as [Hlo Hhi].
  exists fmax, fmin, fthr, tgt1, src1, e1, tgt2, src2, e2.
  split; [apply log_flows_max; exact Hmax |].
  split; [apply log_flows_min; exact Hmin |].
  do 7 (split; [assumption |]). rewrite Hw1, Hw2. split.
  - intros Hlw _ Hle _. apply width_for_mono; try assumption. lra.
  - intros Hge. apply width_for_clamped; assumption.
Qed.

Lemma all_zero_no_entries (F : matrix) :
  Forall (Forall (fun x => x == 0)) F -> nonzero_entries F = [].
Proof.
  intros Hz. destruct (nonzero_entries F) as [| x l] eqn:E; [reflexivity |].
  assert (Hx : x ∈ nonzero_entries F) by (rewrite E; left).
  apply nonzero_entries_spec in Hx as [(i & j & Hg) Hne].
  exfalso. apply Hne. unfold mat_get in Hg.
  destruct (F !! i) as [row |] eqn:Hi; [| discriminate].
  destruct (row !! j) as [y |] eqn:Hj; [| discriminate].
  injection Hg as ->. rewrite Forall_forall in Hz.
  assert (Hrow : Forall (fun x => x == 0) row).
  { apply Hz. eapply list_elem_of_lookup_2; exact Hi. }
  rewrite Forall_forall in Hrow. apply Hrow.
  eapply list_elem_of_lookup_2; exact Hj.
Qed.

(** C9: if every entry of F is zero while A has a nonzero entry, the edge
    pass raises at once (the maximum of an empty array), whatever the
    Network; a call of [visualize] whose node pass completes ends with
    that exception, the Network as the node pass left it; and no call
    completes. *)
Theorem C9_all_zero_flow_fails (F : matrix) (A : adjacency) (i j : nat)
    (a : adj) :
  Forall (Forall (fun x => x == 0)) F ->
  mat_get A i j = Ok a -> adj_nonzero a ->
  (forall i2n pct lmin lmax net,
     _update_edges A F i2n pct lmin lmax net
     = (net, Raise (ValueError zero_size_max_msg))) /\
  (forall acts n2i o net net1,
     visualize_nodes acts n2i o net = (net1, Ok tt) ->
     visualize F acts A n2i o net
     = (net1, Raise (ValueError zero_size_max_msg))) /\
  (forall acts n2i o net net',
     visualize F acts A n2i o net <> (net', Ok tt)).
Proof.
  intros Hz _ _.
  assert (Hedges : forall i2n pct lmin lmax net,
            _update_edges A F i2n pct lmin lmax net
            = (net, Raise (ValueError zero_size_max_msg))).
  { intros. unfold _update_edges, log_flows_of.
    rewrite (all_zero_no_entries F Hz). reflexivity. }
  split; [exact Hedges | split].
  - intros acts n2i o net net1 Hn. unfold visualize, bind. rewrite Hn.
    apply Hedges.
  - intros acts n2i o net net' Hv.
    apply visualize_Ok_inv in Hv as (net1 & _ & He).
    rewrite Hedges in He. discriminate.
Qed.

(** ** The node pass *)

(** The name-label helper: it needs the label to exist, rewrites its
    colour, font and position, and may resize the node; nothing else. *)
Lemma update_single_label_name_inv (name : string) (fixed : bool)
    (font : QFont) (n n' : Node) (ls ls' : gmap string Label)
    (r : result unit) :
  _update_single_label_name name fixed font (n, ls) = ((n', ls'), r) ->
  node_iden n' = node_iden n /\ node_name n' = node_name n /\
  node_FILL_COLOR n' = node_FILL_COLOR n /\
  ((exists e, r = Raise e /\ n' = n /\ ls' = ls /\ ls !! name = None) \/
   (exists l l', r = Ok tt /\ ls !! name = Some l /\
                 ls' = <[name := l']> ls /\
                 label_iden l' = label_iden l /\
                 label_text l' = label_text l)).
Proof.
  unfold _update_single_label_name.
  destruct (ls !! name) as [l |] eqn:Hl.
  - intros [= <- <- <-].
    split; [destruct fixed; reflexivity |].
    split; [destruct fixed; reflexivity |].
    split; [destruct fixed; reflexivity |].
    right. eexists l, _. split; [reflexivity |]. split; [reflexivity |].
    split; [reflexivity |].
    destruct (lightness (node_FILL_COLOR n) <? 200)%Z; split; reflexivity.
  - intros [= <- <- <-]. do 3 (split; [reflexivity |]).
    left. exists KeyError. auto.
Qed.

(** The activity helper never touches the node; when it returns, the
    label under the node's activity key is the found label with a new
    text, or a new label, restyled unless [fix_act_label]. *)
Lemma update_single_label_activity_inv (act : Q) (fixed : bool)
    (fmt : string) (font : QFont) (n n' : Node)
    (ls ls' : gmap string Label) (r : result unit) :
  _update_single_label_activity act fixed fmt font (n, ls) = ((n', ls'), r) ->
  let key := act_label_iden (node_iden n) in
  n' = n /\
  ((exists e, r = Raise e /\ ls' = ls) \/
   (exists str_x, r = Ok tt /\ pyformat fmt act = Ok str_x /\
      match ls !! key with
      | None =>
          ls' = <[key := restyled fixed font n
                            (set_iden key (TextLabel n str_x))]> ls
      | Some l =>
          exists t, pyformat str_x act = Ok t /\
                    ls' = <[key := restyled fixed font n (set_text t l)]> ls
      end)).
Proof.
  intros Hb key. unfold _update_single_label_activity in Hb. fold key in Hb.
  destruct (pyformat fmt act) as [str_x | e] eqn:Hfmt.
  2: { injection Hb as <- <- <-. split; [reflexivity |]. left. eauto. }
  destruct (ls !! key) as [l |] eqn:Hl.
  - destruct (pyformat str_x act) as [t | e] eqn:Hfmt2.
    + injection Hb as <- <- <-. split; [reflexivity |]. right.
      exists str_x. split; [reflexivity |]. split; [reflexivity |].
      exists t. split; [assumption |]. unfold restyled.
      destruct fixed; reflexivity.
    + injection Hb as <- <- <-. split; [reflexivity |]. left. eauto.
  - injection Hb as <- <- <-. split; [reflexivity |]. right.
    exists str_x. split; [reflexivity |]. split; [reflexivity |].
    unfold restyled, add_label. destruct fixed; reflexivity.
Qed.

(** What one completed visit of the node loop has done. *)
Lemma visit_node_Ok (acts arr_t : list Q) (n2i : dict_n2i)
    (cu cd : rgb) (o : Options) (font : QFont) (k : string)
    (n n' : Node) (ls ls' : gmap string Label) :
  visit_node acts arr_t n2i cu cd o font k (n, ls) = ((n', ls'), Ok tt) ->
  exists idx act t n1 ls1,
    n2i_get n2i k = Ok idx /\
    getitem acts idx = Ok act /\
    getitem arr_t idx = Ok t /\
    let n0 := set_fill_border (fill_for act t cu cd) 2 (QColor 40 40 40 255)
                (if fix_node_size o then n else set_size 20 20 n) in
    (if show_label o
     then _update_single_label_name (node_name n0) (fix_node_size o) font
            (n0, ls) = ((n1, ls1), Ok tt)
     else n1 = n0 /\ ls1 = ls) /\
    (if show_act o
     then _update_single_label_activity act (fix_act_label o) (fmt_act o)
            font (n1, ls1) = ((n', ls'), Ok tt)
     else n' = n1 /\
          match ls1 !! act_label_iden k with
          | Some l => remove_label l ls1 = Ok ls'
          | None => ls' = ls1
          end).
Proof.
  unfold visit_node. intros Hb.
  step_ok Hb as idx s0 Hidx. lift_ok Hidx.
  step_ok Hb as u1 s1 Hsize.
  step_ok Hb as act s2 Hact. lift_ok Hact.
  step_ok Hb as t s3 Ht. lift_ok Ht.
  step_ok Hb as u2 s4 Hfill.
  step_ok Hb as u3 s5 Hname.
  exists idx, act, t. destruct s5 as [n1 ls1]. exists n1, ls1.
  do 3 (split; [assumption |]). cbv zeta.
  assert (Hs : s1 = (if fix_node_size o then n else set_size 20 20 n, ls)).
  { destruct (fix_node_size o).
    - unfold ret in Hsize. injection Hsize as <-. reflexivity.
    - unfold modify in Hsize. injection Hsize as <-. reflexivity. }
  subst s1. unfold modify in Hfill. injection Hfill as <-. simpl in Hname.
  split.
  - destruct (show_label o).
    + step_ok Hname as st s6 Hget.
      unfold get in Hget. injection Hget as <- <-. exact Hname.
    + unfold ret in Hname. injection Hname as <- <-. split; reflexivity.
  - destruct (show_act o); [exact Hb |].
    step_ok Hb as st s6 Hget. unfold get in Hget. injection Hget as <- <-.
    simpl in Hb.
    destruct (ls1 !! act_label_iden k) as [l |] eqn:Hl.
    + step_ok Hb as ls2 s7 Hrm. lift_ok Hrm.
      unfold put in Hb. injection Hb as <- <-.
      split; [reflexivity | assumption].
    + unfold ret in Hb. injection Hb as <- <-. split; reflexivity.
Qed.

(** A visit keeps the identity of the node and gives it the fill colour
    computed from its activity. *)
Lemma visit_node_fill (acts arr_t : list Q) (n2i : dict_n2i)
    (cu cd : rgb) (o : Options) (font : QFont) (k : string)
    (n n' : Node) (ls ls' : gmap string Label) :
  visit_node acts arr_t n2i cu cd o font k (n, ls) = ((n', ls'), Ok tt) ->
  node_iden n' = node_iden n /\
  exists idx act t,
    n2i_get n2i k = Ok idx /\ getitem acts idx = Ok act /\
    getitem arr_t idx = Ok t /\
    node_FILL_COLOR n' = fill_for act t cu cd.
Proof.
  intros Hv.
  apply visit_node_Ok in Hv
    as (idx & act & t & n1 & ls1 & Hi & Ha & Ht & Hname & Hact).
  cbv zeta in Hname.
  set (n0 := set_fill_border _ _ _ _) in Hname.
  assert (H1 : node_iden n1 = node_iden n /\
               node_FILL_COLOR n1 = fill_for act t cu cd).
  { destruct (show_label o).
    - apply update_single_label_name_inv in Hname as (E1 & _ & E3 & _).
      rewrite E1, E3. subst n0. destruct (fix_node_size o); auto.
    - destruct Hname as [-> _]. subst n0.
      destruct (fix_node_size o); auto. }
  assert (H2 : n' = n1).
  { destruct (show_act o).
    - apply update_single_label_activity_inv in Hact as [E _]. exact E.
    - tauto. }
  subst n'. destruct H1 as [E1 E2]. split; [exact E1 |].
  exists idx, act, t. auto.
Qed.

(** The nodes after a completed pass correspond one to one, in order, to
    the nodes before; [P] relates each pair when every completed visit
    guarantees it. *)
Lemma map_nodes_Forall2 (body : string -> M NodeState unit)
    (P : string -> Node -> Node -> Prop) :
  (forall k n ls n' ls',
     body k (n, ls) = ((n', ls'), Ok tt) -> P k n n') ->
  forall todo ls ns' ls',
    map_nodes body todo ls = ((ns', ls'), Ok tt) ->
    Forall2 (fun kn kn' => kn'.1 = kn.1 /\ P kn.1 kn.2 kn'.2) todo ns'.
Proof.
  intros Hbody. induction todo as [| [k n] todo IH]; intros ls ns' ls'; simpl.
  - intros [= <- <-]. constructor.
  - destruct (body k (n, ls)) as [[n1 ls1] [[] | e]] eqn:Hb.
    + destruct (map_nodes body todo ls1) as [[rest ls2] r] eqn:Hrest.
      intros [= <- <- ->]. constructor.
      * simpl. split; [reflexivity |]. eapply Hbody; exact Hb.
      * eapply IH; exact Hrest.
    + intros [= _ _ ?].
Qed.

Lemma map_lookup_list {A B} (f : A -> B) (l : list A) (i : nat) :
  map f l !! i = option_map f (l !! i).
Proof.
  revert i. induction l as [| x l IH]; intros [| i]; simpl; auto.
Qed.

Lemma getitem_map {A B} (f : A -> B) (l : list A) (i : Z) (a : A) :
  getitem l i = Ok a -> getitem (map f l) i = Ok (f a).
Proof.
  unfold getitem. rewrite length_map.
  destruct (_ <? 0)%Z; [intros [=] |].
  rewrite map_lookup_list. destruct (l !! _); intros [= <-]. reflexivity.
Qed.

(** What a completed node pass has done. *)
Lemma visualize_nodes_Ok (acts : list Q) (n2i : dict_n2i) (o : Options)
    (net net1 : Network) :
  visualize_nodes acts n2i o net = (net1, Ok tt) ->
  exists cu cd thr0 ns' ls',
    resolve_color (255, 0, 0)%Z color_up_msg (color_up o) = Ok cu /\
    resolve_color (0, 0, 255)%Z color_dn_msg (color_dn o) = Ok cd /\
    np_percentile (map Qabs acts) (pct_act o) = Ok thr0 /\
    map_nodes
      (visit_node acts
         (arr_t_of acts (if Qeq_bool thr0 0 then 1 else thr0)) n2i cu cd o
         (match font o with Some f => f | None => mkQFont "Arial" 10 end))
      (nodes net) (labels net) = ((ns', ls'), Ok tt) /\
    net1 = mkNetwork ns' ls' (nxgraph net).
Proof.
  unfold visualize_nodes. intros Hb.
  step_ok Hb as cu s0 Hcu. lift_ok Hcu.
  step_ok Hb as cd s1 Hcd. lift_ok Hcd.
  step_ok Hb as thr0 s2 Hthr. lift_ok Hthr.
  unfold for_nodes in Hb.
  destruct (map_nodes _ (nodes net) (labels net)) as [[ns' ls'] r] eqn:Hmap.
  injection Hb as <- ->.
  exists cu, cd, thr0, ns', ls'. auto.
Qed.

(** The edge pass leaves nodes and labels as the node pass made them. *)
Lemma visualize_nodes_kept (F : matrix) (acts : list Q) (A : adjacency)
    (n2i : dict_n2i) (o : Options) (net net1 : Network) :
  visualize_nodes acts n2i o net = (net1, Ok tt) ->
  nodes (visualize F acts A n2i o net).1 = nodes net1 /\
  labels (visualize F acts A n2i o net).1 = labels net1.
Proof.
  intros Hn. unfold visualize, bind. rewrite Hn.
  destruct (_update_edges A F (invert n2i) (pct_edge o) (lw_min o)
                          (lw_max o) net1) as [net' r] eqn:He.
  simpl. eapply update_edges_frame; exact He.
Qed.

(** Every node of a completed node pass carries the fill colour computed
    from its activity. *)
Lemma visualize_nodes_fill (acts : list Q) (n2i : dict_n2i) (o : Options)
    (net net1 : Network) (k : string) (n : Node) :
  visualize_nodes acts n2i o net = (net1, Ok tt) ->
  (k, n) ∈ nodes net1 ->
  exists cu cd thr0 idx act,
    resolve_color (255, 0, 0)%Z color_up_msg (color_up o) = Ok cu /\
    resolve_color (0, 0, 255)%Z color_dn_msg (color_dn o) = Ok cd /\
    np_percentile (map Qabs acts) (pct_act o) = Ok thr0 /\
    n2i_get n2i k = Ok idx /\ getitem acts idx = Ok act /\
    node_FILL_COLOR n =
      fill_for act
        (np_clip (Qabs act / (if Qeq_bool thr0 0 then 1 else thr0)) 0 1)
        cu cd.
Proof.
  intros Hn Hin.
  apply visualize_nodes_Ok in Hn
    as (cu & cd & thr0 & ns' & ls' & Hcu & Hcd & Hthr & Hmap & ->).
  simpl in Hin.
  eapply (map_nodes_Forall2 _ (fun k n0 n' => exists idx act t,
            n2i_get n2i k = Ok idx /\ getitem acts idx = Ok act /\
            getitem (arr_t_of acts (if Qeq_bool thr0 0 then 1 else thr0))
                    idx = Ok t /\
            node_FILL_COLOR n' = fill_for act t cu cd)) in Hmap.
  2: { intros k0 n0 ls0 n0' ls0' Hv. apply visit_node_fill in Hv as [_ Hv].
       exact Hv. }
  apply list_elem_of_lookup in Hin as [pos Hpos].
  destruct (Forall2_lookup_r _ _ _ _ _ Hmap Hpos)
    as ([k0 n0] & _ & Hk & idx & act & t & Hi & Ha & Ht & Hfill).
  simpl in *. subst k0.
  unfold arr_t_of in Ht.
  rewrite (getitem_map _ _ _ _ Ha) in Ht. injection Ht as <-.
  exists cu, cd, thr0, idx, act. auto 10.
Qed.

Lemma np_int32_inject (x : Q) (z : Z) : x == inject_Z z -> np_int32 x = z.
Proof.
  unfold Qeq, np_int32, inject_Z. simpl. intros E.
  rewrite Z.mul_1_r in E. rewrite E. apply Z.quot_mul. discriminate.
Qed.

Lemma blend_zero (t : Q) (target : rgb) :
  t == 0 -> blend t target = color_white.
Proof.
  intros Ht. destruct target as [[r g] b]. unfold blend, color_white, channel.
  rewrite !(np_int32_inject _ 255); [reflexivity | | |];
    rewrite Ht; unfold inject_Z; ring.
Qed.


(** C4: if every entry of acts is zero, the percentile threshold is zero
    and is replaced by 1, every factor t is zero, and in a call of
    [visualize] whose node pass completes every node is filled pure
    white. *)
Theorem C4_flat_activity_white (F : matrix) (acts : list Q) (A : adjacency)
    (n2i : dict_n2i) (o : Options) (net net1 : Network)
    (k : string) (n : Node) :
  Forall (fun a => a == 0) acts ->
  visualize_nodes acts n2i o net = (net1, Ok tt) ->
  (k, n) ∈ nodes (visualize F acts A n2i o net).1 ->
  (exists thr0,
     np_percentile (map Qabs acts) (pct_act o) = Ok thr0 /\
     thr0 == 0 /\
     (if Qeq_bool thr0 0 then 1 else thr0) = 1 /\
     Forall (fun t => t == 0) (arr_t_of acts 1)) /\
  node_FILL_COLOR n = QColor 255 255 255 255.
Proof.
  intros Hz Hn Hin.
  destruct (visualize_nodes_kept F acts A n2i o net net1 Hn) as [Hnodes _].
  rewrite Hnodes in Hin.
  destruct (visualize_nodes_fill _ _ _ _ _ _ _ Hn Hin)
    as (cu & cd & thr0 & idx & a & _ & _ & Hthr & _ & Ha & Hfill).
  assert (Habs : Forall (fun y => y == 0) (map Qabs acts)).
  { rewrite Forall_forall in Hz. apply Forall_forall. intros y Hy.
    apply list_elem_of_In, in_map_iff in Hy as (x & <- & Hx).
    rewrite (Hz x) by (apply list_elem_of_In; exact Hx). reflexivity. }
  assert (Hthr0 : thr0 == 0).
  { destruct (np_percentile_between _ _ _ 0 0 Hthr).
    - eapply Forall_impl; [exact Habs |]. simpl. intros y ->. lra.
    - eapply Forall_impl; [exact Habs |]. simpl. intros y ->. lra.
    - lra. }
  assert (Hone : (if Qeq_bool thr0 0 then 1 else thr0) = 1).
  { apply Qeq_bool_iff in Hthr0. rewrite Hthr0. reflexivity. }
  assert (Hclip : forall x, x == 0 -> np_clip (Qabs x / 1) 0 1 == 0).
  { intros x Hx.
    assert (Hy : Qabs x / 1 == 0) by (rewrite Hx; reflexivity).
    revert Hy. generalize (Qabs x / 1). intros y Hy. clip_cases; lra. }
  split.
  - exists thr0. do 3 (split; [assumption |]).
    unfold arr_t_of. rewrite Forall_forall in Hz. apply Forall_forall.
    intros t Ht. apply list_elem_of_In, in_map_iff in Ht as (x & <- & Hx).
    apply Hclip, Hz, list_elem_of_In, Hx.
  - assert (Hazero : a == 0).
    { rewrite Forall_forall in Hz. apply Hz. unfold getitem in Ha.
      destruct (_ <? 0)%Z; [discriminate |].
      destruct (acts !! _) as [x |] eqn:Hl; [| discriminate].
      injection Ha as <-. eapply list_elem_of_lookup_2; exact Hl. }
    rewrite Hone in Hfill. rewrite Hfill. unfold fill_for.
    rewrite !(blend_zero _ _ (Hclip a Hazero)).
    destruct (Qltb 0 a); reflexivity.
Qed.

(** A colour argument that is neither falsy nor a QColor. *)
Lemma resolve_color_rejects (default : rgb) (msg : string) (c : ColorArg) :
  c = ArgNdarray \/ c = ArgOther true ->
  exists m, resolve_color default msg c = Raise (ValueError m).
Proof. intros [-> | ->]; simpl; eauto. Qed.

(** C8: if color_up or color_dn is neither falsy nor a QColor, [visualize]
    raises ValueError and the Network it returns is the Network it was
    given: nodes, edges and labels are untouched. *)
Theorem C8_invalid_color_atomic (F : matrix) (acts : list Q) (A : adjacency)
    (n2i : dict_n2i) (o : Options) (net : Network) :
  (color_up o = ArgNdarray \/ color_up o = ArgOther true) \/
  (color_dn o = ArgNdarray \/ color_dn o = ArgOther true) ->
  exists msg, visualize F acts A n2i o net = (net, Raise (ValueError msg)).
Proof.
  intros Hbad. unfold visualize, visualize_nodes, bind, lift.
  destruct (resolve_color (255, 0, 0)%Z color_up_msg (color_up o))
    as [cu | e] eqn:Hup.
  - destruct Hbad as [Hbad | Hbad].
    + apply (resolve_color_rejects (255, 0, 0)%Z color_up_msg) in Hbad
        as [m Hm]. congruence.
    + apply (resolve_color_rejects (0, 0, 255)%Z color_dn_msg) in Hbad
        as [m Hm]. rewrite Hm. eauto.
  - destruct (color_up o) as [| r g b | | []]; simpl in Hup;
      try discriminate; injection Hup as <-; eauto.
Qed.

(** ** Activity labels *)

(** The loop over the nodes, with an invariant on [net.labels] that may
    mention the entries visited so far. *)
Lemma map_nodes_ind (body : string -> M NodeState unit)
    (I : list (string * Node) -> gmap string Label -> Prop) :
  (forall done k n ls n' ls',
     I done ls -> body k (n, ls) = ((n', ls'), Ok tt) ->
     I (done ++ [(k, n)]) ls') ->
  forall todo done ls ns' ls',
    I done ls -> map_nodes body todo ls = ((ns', ls'), Ok tt) ->
    I (done ++ todo) ls'.
Proof.
  intros Hstep. induction todo as [| [k n] todo IH];
    intros done ls ns' ls' HI; simpl.
  - intros [= _ <-]. rewrite app_nil_r. exact HI.
  - destruct (body k (n, ls)) as [[n1 ls1] [[] | e]] eqn:Hb.
    + destruct (map_nodes body todo ls1) as [[rest ls2] r] eqn:Hrest.
      intros [= _ <- ->].
      replace (done ++ (k, n) :: todo) with ((done ++ [(k, n)]) ++ todo)
        by (rewrite <- app_assoc; reflexivity).
      eapply IH; [| exact Hrest]. eapply Hstep; eassumption.
    + intros [= _ _ ?].
Qed.

Lemma labels_wf_insert (ls : gmap string Label) (k : string) (l : Label) :
  labels_wf ls -> label_iden l = k -> labels_wf (<[k := l]> ls).
Proof.
  intros Hwf Hl k' l'. destruct (decide (k = k')) as [<- | Hne].
  - rewrite lookup_insert_eq. intros [= <-]. exact Hl.
  - rewrite lookup_insert_ne by exact Hne. apply Hwf.
Qed.

(** The name-label step keeps the label registry well formed and neither
    adds nor removes a key. *)
Lemma name_step_labels (o : Options) (font : QFont) (n0 n1 : Node)
    (ls ls1 : gmap string Label) :
  (if show_label o
   then _update_single_label_name (node_name n0) (fix_node_size o) font
          (n0, ls) = ((n1, ls1), Ok tt)
   else n1 = n0 /\ ls1 = ls) ->
  node_iden n1 = node_iden n0 /\
  (labels_wf ls -> labels_wf ls1) /\
  (forall K, ls1 !! K = None <-> ls !! K = None).
Proof.
  destruct (show_label o).
  - intros Hb. apply update_single_label_name_inv in Hb
      as (Hid & _ & _ & [(e & He & _) | (l & l' & _ & Hl & -> & Hil & _)]);
      [discriminate |].
    split; [exact Hid |]. split.
    + intros Hwf. apply labels_wf_insert; [exact Hwf |].
      rewrite Hil. apply Hwf. exact Hl.
    + intros K. destruct (decide (node_name n0 = K)) as [<- | Hne].
      * rewrite lookup_insert_eq, Hl. split; discriminate.
      * rewrite lookup_insert_ne by exact Hne. reflexivity.
  - intros [-> ->]. split; [reflexivity |]. split; [auto | reflexivity].
Qed.

(** A visit with show_act false: the node's activity key is absent
    afterwards and no key appears. *)
Lemma visit_node_hides (acts arr_t : list Q) (n2i : dict_n2i)
    (cu cd : rgb) (o : Options) (font : QFont) (k : string)
    (n n' : Node) (ls ls' : gmap string Label) :
  show_act o = false -> labels_wf ls ->
  visit_node acts arr_t n2i cu cd o font k (n, ls) = ((n', ls'), Ok tt) ->
  labels_wf ls' /\ ls' !! act_label_iden k = None /\
  (forall K, ls !! K = None -> ls' !! K = None).
Proof.
  intros Hshow Hwf Hv.
  apply visit_node_Ok in Hv
    as (idx & act & t & n1 & ls1 & _ & _ & _ & Hname & Hact).
  cbv zeta in Hname. apply name_step_labels in Hname as (_ & Hwf1 & Hdom).
  specialize (Hwf1 Hwf). rewrite Hshow in Hact. destruct Hact as [_ Hact].
  destruct (ls1 !! act_label_iden k) as [l |] eqn:Hl.
  - unfold remove_label in Hact. rewrite (Hwf1 _ _ Hl), Hl in Hact.
    injection Hact as <-. split.
    + intros K l'. destruct (decide (act_label_iden k = K)) as [<- | Hne].
      * rewrite lookup_delete_eq. discriminate.
      * rewrite lookup_delete_ne by exact Hne. apply Hwf1.
    + split; [apply lookup_delete_eq |].
      intros K HK. apply Hdom in HK.
      destruct (decide (act_label_iden k = K)) as [<- | Hne].
      * apply lookup_delete_eq.
      * rewrite lookup_delete_ne by exact Hne. exact HK.
  - subst ls'. split; [exact Hwf1 |]. split; [exact Hl |].
    intros K HK. apply Hdom. exact HK.
Qed.

(** A visit with show_act true: the node's activity key is present
    afterwards, under a label with that identifier, and no key
    disappears. *)
Lemma visit_node_shows (acts arr_t : list Q) (n2i : dict_n2i)
    (cu cd : rgb) (o : Options) (font : QFont) (k : string)
    (n n' : Node) (ls ls' : gmap string Label) :
  show_act o = true -> labels_wf ls ->
  visit_node acts arr_t n2i cu cd o font k (n, ls) = ((n', ls'), Ok tt) ->
  labels_wf ls' /\ is_Some (ls' !! act_label_iden (node_iden n)) /\
  (forall K, is_Some (ls !! K) -> is_Some (ls' !! K)).
Proof.
  intros Hshow Hwf Hv.
  apply visit_node_Ok in Hv
    as (idx & act & t & n1 & ls1 & _ & _ & _ & Hname & Hact).
  cbv zeta in Hname. apply name_step_labels in Hname as (Hid & Hwf1 & Hdom).
  specialize (Hwf1 Hwf). rewrite Hshow in Hact.
  assert (Hid1 : node_iden n1 = node_iden n).
  { rewrite Hid. destruct (fix_node_size o); reflexivity. }
  apply update_single_label_activity_inv in Hact
    as [_ [(e & He & _) | (str_x & _ & _ & Hcase)]]; [discriminate |].
  cbv zeta in Hcase. rewrite Hid1 in Hcase.
  set (K0 := act_label_iden (node_iden n)) in *.
  assert (Hins : exists l', ls' = <[K0 := l']> ls1 /\ label_iden l' = K0).
  { destruct (ls1 !! K0) as [l |] eqn:Hl.
    - destruct Hcase as (t' & _ & ->). eexists. split; [reflexivity |].
      unfold restyled. destruct (fix_act_label o); simpl; apply (Hwf1 _ _ Hl).
    - subst ls'. eexists. split; [reflexivity |].
      unfold restyled. destruct (fix_act_label o); reflexivity. }
  destruct Hins as (l' & -> & Hil). split.
  - apply labels_wf_insert; assumption.
  - split; [rewrite lookup_insert_eq; eauto |].
    intros K HK. destruct (decide (K0 = K)) as [<- | Hne].
    + rewrite lookup_insert_eq. eauto.
    + rewrite lookup_insert_ne by exact Hne.
      destruct (ls1 !! K) eqn:E; [eauto |].
      apply Hdom in E. rewrite E in HK. destruct HK as [? [=]].
Qed.

(** The node pass keeps every node under its key and with its
    identifier. *)
Lemma nodes_pass_idens (acts : list Q) (n2i : dict_n2i) (o : Options)
    (net net1 : Network) :
  visualize_nodes acts n2i o net = (net1, Ok tt) ->
  Forall2 (fun kn kn' => kn'.1 = kn.1 /\ node_iden kn'.2 = node_iden kn.2)
          (nodes net) (nodes net1).
Proof.
  intros Hn. apply visualize_nodes_Ok in Hn
    as (cu & cd & thr0 & ns' & ls' & _ & _ & _ & Hmap & ->).
  simpl.
  eapply (map_nodes_Forall2 _ (fun _ n n' => node_iden n' = node_iden n)),
    Hmap.
  intros k n ls n' ls0 Hv. apply visit_node_fill in Hv as [Hid _]. exact Hid.
Qed.

Lemma nodes_pass_wf (acts : list Q) (n2i : dict_n2i) (o : Options)
    (net net1 : Network) :
  visualize_nodes acts n2i o net = (net1, Ok tt) ->
  nodes_wf (nodes net) ->
  nodes_wf (nodes net1) /\
  (forall k n, (k, n) ∈ nodes net -> exists n1, (k, n1) ∈ nodes net1).
Proof.
  intros Hn Hwf. apply nodes_pass_idens in Hn. split.
  - intros k n1 Hin. apply list_elem_of_lookup in Hin as [pos Hpos].
    destruct (Forall2_lookup_r _ _ _ _ _ Hn Hpos)
      as ([k0 n0] & Hpos0 & Hk & Hid).
    simpl in *. subst k0. rewrite Hid. apply Hwf.
    eapply list_elem_of_lookup_2; exact Hpos0.
  - intros k n Hin. apply list_elem_of_lookup in Hin as [pos Hpos].
    destruct (Forall2_lookup_l _ _ _ _ _ Hn Hpos)
      as ([k1 n1] & Hpos1 & Hk & _).
    simpl in *. subst k1. exists n1.
    eapply list_elem_of_lookup_2; exact Hpos1.
Qed.

(** A completed node pass with show_act false leaves no activity label of
    any node. *)
Lemma nodes_pass_hides (acts : list Q) (n2i : dict_n2i) (o : Options)
    (net net1 : Network) :
  show_act o = false -> labels_wf (labels net) ->
  visualize_nodes acts n2i o net = (net1, Ok tt) ->
  labels_wf (labels net1) /\
  forall k n, (k, n) ∈ nodes net -> labels net1 !! act_label_iden k = None.
Proof.
  intros Hshow Hwf Hn. apply visualize_nodes_Ok in Hn
    as (cu & cd & thr0 & ns' & ls' & _ & _ & _ & Hmap & ->).
  simpl.
  pose (I := fun (done : list (string * Node)) (ls : gmap string Label) =>
            labels_wf ls /\
            forall k n, (k, n) ∈ done -> ls !! act_label_iden k = None).
  apply (map_nodes_ind _ I) with (done := []) in Hmap; [exact Hmap | |].
  - intros done k n ls n' ls0 [Hwf0 Hdone] Hv.
    apply visit_node_hides in Hv as (Hwf' & Hk & Hkeep); try assumption.
    split; [exact Hwf' |]. intros k0 n0 Hin.
    apply elem_of_app in Hin as [Hin | Hin].
    + apply Hkeep. eapply Hdone; exact Hin.
    + apply list_elem_of_singleton in Hin. injection Hin as -> ->. exact Hk.
  - split; [exact Hwf |]. intros k n Hin. inversion Hin.
Qed.

(** A completed node pass with show_act true leaves an activity label
    for every node. *)
Lemma nodes_pass_shows (acts : list Q) (n2i : dict_n2i) (o : Options)
    (net net1 : Network) :
  show_act o = true -> labels_wf (labels net) ->
  visualize_nodes acts n2i o net = (net1, Ok tt) ->
  labels_wf (labels net1) /\
  forall k n, (k, n) ∈ nodes net ->
    is_Some (labels net1 !! act_label_iden (node_iden n)).
Proof.
  intros Hshow Hwf Hn. apply visualize_nodes_Ok in Hn
    as (cu & cd & thr0 & ns' & ls' & _ & _ & _ & Hmap & ->).
  simpl.
  pose (I := fun (done : list (string * Node)) (ls : gmap string Label) =>
            labels_wf ls /\
            forall k n, (k, n) ∈ done ->
              is_Some (ls !! act_label_iden (node_iden n))).
  apply (map_nodes_ind _ I) with (done := []) in Hmap; [exact Hmap | |].
  - intros done k n ls n' ls0 [Hwf0 Hdone] Hv.
    apply visit_node_shows in Hv as (Hwf' & Hk & Hkeep); try assumption.
    split; [exact Hwf' |]. intros k0 n0 Hin.
    apply elem_of_app in Hin as [Hin | Hin].
    + apply Hkeep. eapply Hdone; exact Hin.
    + apply list_elem_of_singleton in Hin. injection Hin as -> ->. exact Hk.
  - split; [exact Hwf |]. intros k n Hin. inversion Hin.
Qed.

(** C7: on a well-formed Network, a call of [visualize] with show_act
    false whose node pass completes leaves no label under the uppercased
    identifier plus "_act" of any node; a following call with show_act
    true whose node pass completes leaves, for every node, a label
    registered under that key and carrying it as identifier.  The
    upper-casing is Python's [str.upper], a function of the host. *)
Theorem C7_show_act_round_trip
    (F1 : matrix) (acts1 : list Q) (A1 : adjacency) (n2i1 : dict_n2i)
    (o1 : Options)
    (F2 : matrix) (acts2 : list Q) (A2 : adjacency) (n2i2 : dict_n2i)
    (o2 : Options)
    (net0 netA netB : Network) (k : string) (n : Node) :
  nodes_wf (nodes net0) -> labels_wf (labels net0) ->
  show_act o1 = false -> show_act o2 = true ->
  visualize_nodes acts1 n2i1 o1 net0 = (netA, Ok tt) ->
  visualize_nodes acts2 n2i2 o2 (visualize F1 acts1 A1 n2i1 o1 net0).1
    = (netB, Ok tt) ->
  (k, n) ∈ nodes net0 ->
  labels (visualize F1 acts1 A1 n2i1 o1 net0).1
    !! (str_upper k +:+ "_act") = None /\
  exists l,
    labels (visualize F2 acts2 A2 n2i2 o2
              (visualize F1 acts1 A1 n2i1 o1 net0).1).1
      !! (str_upper k +:+ "_act") = Some l /\
    label_iden l = str_upper k +:+ "_act".
Proof.
  intros Hnwf Hlwf Hoff Hon HA HB Hin.
  change (str_upper k +:+ "_act") with (act_label_iden k).
  destruct (visualize_nodes_kept F1 acts1 A1 n2i1 o1 net0 netA HA)
    as [Hnodes1 Hlabels1].
  set (net1 := (visualize F1 acts1 A1 n2i1 o1 net0).1) in *.
  destruct (visualize_nodes_kept F2 acts2 A2 n2i2 o2 net1 netB HB)
    as [_ Hlabels2].
  destruct (nodes_pass_hides _ _ _ _ _ Hoff Hlwf HA) as [HwfA Hnone].
  destruct (nodes_pass_wf _ _ _ _ _ HA Hnwf) as [HnwfA HkeysA].
  rewrite Hlabels1, Hlabels2. split; [eapply Hnone; exact Hin |].
  assert (Hwf1 : labels_wf (labels net1)) by (rewrite Hlabels1; exact HwfA).
  destruct (nodes_pass_shows _ _ _ _ _ Hon Hwf1 HB) as [HwfB Hsome].
  destruct (HkeysA k n Hin) as [n1 Hin1].
  assert (Hin1' : (k, n1) ∈ nodes net1) by (rewrite Hnodes1; exact Hin1).
  destruct (Hsome k n1 Hin1') as [l Hl].
  rewrite (HnwfA k n1 Hin1) in Hl.
  exists l. split; [exact Hl | apply HwfB; exact Hl].
Qed.

(** ** More on the edge pass *)

(** One iteration of the edge loop, however it ends: it leaves the graph
    alone or rewrites the one edge of its position, keeping the head's
    offset. *)
Lemma update_edge_at_any (A : adjacency) (F : matrix) (i2n : gmap Z string)
    (flow_max flow_min flow_thr lw_min lw_max : Q) (p : nat * nat)
    (net net' : Network) (r : result unit) :
  update_edge_at A F i2n flow_max flow_min flow_thr lw_min lw_max p net
    = (net', r) ->
  nxgraph net' = nxgraph net \/
  exists k e e',
    edge_key i2n p = Some k /\ nxgraph net !! k = Some e /\
    edge_head_offset e' = edge_head_offset e /\
    nxgraph net' = <[k := e']> (nxgraph net).
Proof.
  destruct p as [i j].
  unfold update_edge_at, bind, lift, get_edge, set_edge, modify, i2n_get,
    edge_key. simpl.
  destruct (i2n !! Z.of_nat i) as [tgt |]; [| intros [= <- _]; auto].
  destruct (i2n !! Z.of_nat j) as [src |]; [| intros [= <- _]; auto].
  destruct (mat_get F i j) as [f |]; [| intros [= <- _]; auto].
  destruct (nxgraph net !! (src, tgt)) as [e |] eqn:He;
    [| intros [= <- _]; auto].
  destruct (head_and_color f (mat_get A i j)) as [hc |];
    intros [= <- _]; [| auto].
  right. eexists (src, tgt), e, _. simpl.
  split; [reflexivity |]. split; [exact He |].
  split; [| reflexivity]. reflexivity.
Qed.

Lemma edge_loop_any (A : adjacency) (F : matrix) (i2n : gmap Z string)
    (flow_max flow_min flow_thr lw_min lw_max : Q) (ps : list (nat * nat))
    (net net' : Network) (r : result unit) :
  for_each ps
    (update_edge_at A F i2n flow_max flow_min flow_thr lw_min lw_max) net
    = (net', r) ->
  (forall k, edge_head_offset <$> (nxgraph net' !! k)
             = edge_head_offset <$> (nxgraph net !! k)) /\
  (forall k, (forall p, p ∈ ps -> edge_key i2n p <> Some k) ->
     nxgraph net' !! k = nxgraph net !! k).
Proof.
  revert net. induction ps as [| p0 ps IH]; intros net; simpl.
  - unfold ret. intros [= <- _]. split; reflexivity.
  - intros Hb.
    assert (Hstep : forall net1 r1,
              update_edge_at A F i2n flow_max flow_min flow_thr lw_min
                lw_max p0 net = (net1, r1) ->
              (forall k, edge_head_offset <$> (nxgraph net1 !! k)
                         = edge_head_offset <$> (nxgraph net !! k)) /\
              (forall k, edge_key i2n p0 <> Some k ->
                 nxgraph net1 !! k = nxgraph net !! k)).
    { intros net1 r1 H1.
      apply update_edge_at_any in H1
        as [-> | (k0 & e & e' & Hk & He & Hg & ->)]; [split; reflexivity |].
      split; intros k.
      - destruct (decide (k0 = k)) as [<- | Hne].
        + rewrite lookup_insert_eq, He. simpl. rewrite Hg. reflexivity.
        + rewrite lookup_insert_ne by exact Hne. reflexivity.
      - intros Hk'. apply lookup_insert_ne. congruence. }
    apply bind_inv in Hb as [(a & s1 & Hm & Hb) | (e & Hm & _)].
    + apply Hstep in Hm as [Hg1 Hf1]. apply IH in Hb as [Hg2 Hf2].
      split; intros k.
      * rewrite Hg2. apply Hg1.
      * intros Hk. rewrite Hf2, Hf1; [reflexivity | |].
        -- apply Hk. left.
        -- intros p Hp. apply Hk. right. exact Hp.
    + apply Hstep in Hm as [Hg1 Hf1]. split; [exact Hg1 |].
      intros k Hk. apply Hf1, Hk. left.
Qed.

Lemma update_edges_any (A : adjacency) (F : matrix) (i2n : gmap Z string)
    (pct lmin lmax : Q) (net net' : Network) (r : result unit) :
  _update_edges A F i2n pct lmin lmax net = (net', r) ->
  (forall k, edge_head_offset <$> (nxgraph net' !! k)
             = edge_head_offset <$> (nxgraph net !! k)) /\
  (forall k, (forall p, p ∈ nonzero A -> edge_key i2n p <> Some k) ->
     nxgraph net' !! k = nxgraph net !! k).
Proof.
  unfold _update_edges. intros Hb.
  repeat match goal with
  | Hb : bind (lift _) _ _ = _ |- _ =>
      apply bind_inv in Hb as [(? & ? & Hm & Hb) | (? & Hm & _)];
      apply lift_inv in Hm as [-> _]
  end; try (split; reflexivity).
  eapply edge_loop_any; exact Hb.
Qed.

(** The node pass never touches the graph, however it ends. *)
Lemma visualize_nodes_nxgraph (acts : list Q) (n2i : dict_n2i) (o : Options)
    (net net' : Network) (r : result unit) :
  visualize_nodes acts n2i o net = (net', r) -> nxgraph net' = nxgraph net.
Proof.
  unfold visualize_nodes. intros Hb.
  repeat match goal with
  | Hb : bind (lift _) _ _ = _ |- _ =>
      apply bind_inv in Hb as [(? & ? & Hm & Hb) | (? & Hm & _)];
      apply lift_inv in Hm as [-> _]
  end; try reflexivity.
  unfold for_nodes in Hb.
  destruct (map_nodes _ (nodes net) (labels net)) as [[ns ls] r'].
  injection Hb as <- _. reflexivity.
Qed.

Lemma visualize_edges_any (F : matrix) (acts : list Q) (A : adjacency)
    (n2i : dict_n2i) (o : Options) (net : Network) :
  (forall k,
     edge_head_offset <$> (nxgraph (visualize F acts A n2i o net).1 !! k)
     = edge_head_offset <$> (nxgraph net !! k)) /\
  (forall k, (forall p, p ∈ nonzero A ->
                edge_key (invert n2i) p <> Some k) ->
     nxgraph (visualize F acts A n2i o net).1 !! k = nxgraph net !! k).
Proof.
  destruct (visualize F acts A n2i o net) as [net' r] eqn:Hv. simpl.
  apply visualize_inv in Hv as [(net1 & Hn & He) | (e & Hn & _)].
  - apply visualize_nodes_nxgraph in Hn. apply update_edges_any in He.
    rewrite Hn in He. exact He.
  - apply visualize_nodes_nxgraph in Hn. rewrite Hn. split; reflexivity.
Qed.

(** Whatever the outcome of [visualize], the graph has the same edges as
    before: the call adds no edge and removes none. *)
Theorem visualize_keeps_edge_set (F : matrix) (acts : list Q)
    (A : adjacency) (n2i : dict_n2i) (o : Options) (net : Network)
    (k : string * string) :
  is_Some (nxgraph (visualize F acts A n2i o net).1 !! k)
  <-> is_Some (nxgraph net !! k).
Proof.
  pose proof (proj1 (visualize_edges_any F acts A n2i o net) k) as Hk.
  rewrite <- !fmap_is_Some with (f := edge_head_offset), Hk. reflexivity.
Qed.

(** Whatever the outcome of [visualize], an edge that is not the edge
    (i2n[j], i2n[i]) of a nonzero position (i, j) of A is left exactly as
    it was. *)
Theorem visualize_untouched_edge (F : matrix) (acts : list Q) (A : adjacency)
    (n2i : dict_n2i) (o : Options) (net : Network) (k : string * string) :
  (forall p, p ∈ nonzero A -> edge_key (invert n2i) p <> Some k) ->
  nxgraph (visualize F acts A n2i o net).1 !! k = nxgraph net !! k.
Proof. apply visualize_edges_any. Qed.

(** The edge of a nonzero position of A after a completed call. *)
Lemma visualize_edge_at (F : matrix) (acts : list Q) (A : adjacency)
    (n2i : dict_n2i) (o : Options) (net net' : Network)
    (i j : nat) (a : adj) :
  NoDup n2i.*1 ->
  visualize F acts A n2i o net = (net', Ok tt) ->
  mat_get A i j = Ok a -> adj_nonzero a ->
  exists fmax fmin fthr tgt src f e hc,
    np_max (log_flows_of F) = Ok fmax /\
    np_min (log_flows_of F) = Ok fmin /\
    np_percentile (log_flows_of F) (pct_edge o) = Ok fthr /\
    invert n2i !! Z.of_nat i = Some tgt /\
    invert n2i !! Z.of_nat j = Some src /\
    mat_get F i j = Ok f /\
    nxgraph net' !! (src, tgt) = Some e /\
    head_and_color f (Ok a) = Ok hc /\
    head_class (edge_head e) = hc.1 /\
    edge_FILL_COLOR e = hc.2 /\
    edge_width e = width_for fmax fmin fthr (lw_min o) (lw_max o) f.
Proof.
  intros Hnd Hv Ha Hne.
  apply visualize_Ok_inv in Hv as (net1 & _ & He).
  apply update_edges_Ok_exact in He
    as (fmax & fmin & fthr & Hmax & Hmin & Hthr & Hall);
    [| apply invert_injective; exact Hnd].
  destruct (Hall (i, j) (visited_position _ _ _ _ Ha Hne))
    as ([src tgt] & e & Hl & f & hc & Hi & Hj & Hf & Hhc & Hcl & Hfill & Hw
        & _).
  simpl in *. rewrite Ha in Hhc.
  exists fmax, fmin, fthr, tgt, src, f, e, hc. auto 12.
Qed.

Lemma head_and_color_fill (f : Q) (a : adj) (hc : HeadClass * Color) :
  head_and_color f (Ok a) = Ok hc ->
  (0 < f -> hc.2 = QColor 255 10 10 70) /\
  (f < 0 -> hc.2 = QColor 10 10 255 70) /\
  (f == 0 -> hc.2 = QColor 100 100 100 100).
Proof.
  unfold head_and_color. qcases;
    try (destruct (adj_gt0 a); [| destruct (adj_lt0 a); [| discriminate]]);
    intros [= <-]; simpl; repeat split; intros; try reflexivity; lra.
Qed.

(** After a completed call, the edge of every nonzero position of A is
    tinted by the sign of its flow: translucent red for positive flow,
    translucent blue for negative flow, translucent grey for zero flow
    (lines 42-59). *)
Theorem edge_colour_by_flow_sign (F : matrix) (acts : list Q)
    (A : adjacency) (n2i : dict_n2i) (o : Options) (net net' : Network)
    (i j : nat) (a : adj) :
  NoDup n2i.*1 ->
  visualize F acts A n2i o net = (net', Ok tt) ->
  mat_get A i j = Ok a -> adj_nonzero a ->
  exists tgt src f e,
    invert n2i !! Z.of_nat i = Some tgt /\
    invert n2i !! Z.of_nat j = Some src /\
    mat_get F i j = Ok f /\
    nxgraph net' !! (src, tgt) = Some e /\
    (0 < f -> edge_FILL_COLOR e = QColor 255 10 10 70) /\
    (f < 0 -> edge_FILL_COLOR e = QColor 10 10 255 70) /\
    (f == 0 -> edge_FILL_COLOR e = QColor 100 100 100 100).
Proof.
  intros Hnd Hv Ha Hne.
  destruct (visualize_edge_at _ _ _ _ _ _ _ _ _ _ Hnd Hv Ha Hne)
    as (fmax & fmin & fthr & tgt & src & f & e & hc & _ & _ & _ & Hi & Hj
        & Hf & Hl & Hhc & _ & Hfill & _).
  apply head_and_color_fill in Hhc. rewrite <- Hfill in Hhc.
  exists tgt, src, f, e. tauto.
Qed.

(** A completed iteration found its indices in i2n, its entry in F and
    its edge in the graph. *)
Lemma update_edge_at_Ok_found (A : adjacency) (F : matrix) (i2n : gmap Z string)
    (flow_max flow_min flow_thr lw_min lw_max : Q) (i j : nat)
    (net net' : Network) :
  update_edge_at A F i2n flow_max flow_min flow_thr lw_min lw_max (i, j) net
    = (net', Ok tt) ->
  exists tgt src f,
    i2n !! Z.of_nat i = Some tgt /\ i2n !! Z.of_nat j = Some src /\
    mat_get F i j = Ok f /\ is_Some (nxgraph net !! (src, tgt)).
Proof.
  unfold update_edge_at, bind, lift, get_edge, i2n_get.
  destruct (i2n !! Z.of_nat i) as [tgt |]; [| intros [=]].
  destruct (i2n !! Z.of_nat j) as [src |]; [| intros [=]].
  destruct (mat_get F i j) as [f |]; [| intros [=]].
  destruct (nxgraph net !! (src, tgt)) as [e |] eqn:He; [| intros [=]].
  intros _. exists tgt, src, f. eauto.
Qed.

(** What a completed call shows about its inputs: F has a nonzero entry,
    pct_edge lies in [0, 100], and for every nonzero position (i, j) of A
    both indices are values of n2i, F has an entry at (i, j), and the
    graph had the edge from i2n[j] to i2n[i] before the call. *)
Theorem completed_call_inputs (F : matrix) (acts : list Q) (A : adjacency)
    (n2i : dict_n2i) (o : Options) (net net' : Network) :
  visualize F acts A n2i o net = (net', Ok tt) ->
  (exists i' j' f', mat_get F i' j' = Ok f' /\ ~ f' == 0) /\
  0 <= pct_edge o /\ pct_edge o <= 100 /\
  forall i j a,
    mat_get A i j = Ok a -> adj_nonzero a ->
    exists tgt src f,
      invert n2i !! Z.of_nat i = Some tgt /\
      invert n2i !! Z.of_nat j = Some src /\
      (tgt, Z.of_nat i) ∈ n2i /\ (src, Z.of_nat j) ∈ n2i /\
      mat_get F i j = Ok f /\
      is_Some (nxgraph net !! (src, tgt)).
Proof.
  intros Hv.
  apply visualize_Ok_inv in Hv as (net1 & Hn & He).
  apply visualize_nodes_nxgraph in Hn.
  unfold _update_edges in He.
  step_ok He as fmax s0 Hmax. lift_ok Hmax.
  step_ok He as fmin s1 Hmin. lift_ok Hmin.
  step_ok He as fthr s2 Hthr. lift_ok Hthr.
  split; [| split; [| split]].
  - match goal with Hm : np_max _ = Ok _ |- _ =>
      apply np_max_spec in Hm as [Hin _] end.
    apply log_flows_elem in Hin as (i0 & j0 & f0 & Hg & Hnz & _). eauto.
  - match goal with Hp : np_percentile _ _ = Ok _ |- _ =>
      unfold np_percentile in Hp;
      destruct (Qle_bool 0 (pct_edge o)) eqn:E1;
      destruct (Qle_bool (pct_edge o) 100) eqn:E2; try discriminate Hp end.
    apply Qle_bool_iff in E1. exact E1.
  - match goal with Hp : np_percentile _ _ = Ok _ |- _ =>
      unfold np_percentile in Hp;
      destruct (Qle_bool 0 (pct_edge o)) eqn:E1;
      destruct (Qle_bool (pct_edge o) 100) eqn:E2; try discriminate Hp end.
    apply Qle_bool_iff in E2. exact E2.
  - intros i j a Ha Hne.
    destruct (for_each_Ok_split _ _ (i, j) _ _ He
                (visited_position _ _ _ _ Ha Hne))
      as (pre & post & s1 & s2 & _ & Hpre & Hbody & _).
    apply update_edge_at_Ok_found in Hbody
      as (tgt & src & f & Hi & Hj & Hf & Hsome).
    exists tgt, src, f.
    do 2 (split; [assumption |]).
    split; [apply invert_lookup; exact Hi |].
    split; [apply invert_lookup; exact Hj |].
    split; [exact Hf |].
    apply edge_loop_any in Hpre as [Hgeo _].
    specialize (Hgeo (src, tgt)). rewrite Hn in Hgeo.
    destruct Hsome as [e He1]. rewrite He1 in Hgeo.
    destruct (nxgraph net !! (src, tgt)); [eauto | discriminate].
Qed.

Lemma np_percentile_range (a : list Q) (q : Q) :
  q < 0 \/ 100 < q ->
  np_percentile a q = Raise (ValueError percentile_range_msg).
Proof.
  intros Hq. unfold np_percentile.
  destruct (Qle_bool 0 q) eqn:E1; destruct (Qle_bool q 100) eqn:E2;
    try reflexivity.
  apply Qle_bool_iff in E1, E2. lra.
Qed.

(** A percentile rank for the edges outside [0, 100] makes the edge pass
    raise ValueError before it touches any edge: the call never
    completes, the graph is as it was, and a node pass that completed
    keeps its effect on nodes and labels. *)
Theorem pct_edge_out_of_range (F : matrix) (acts : list Q) (A : adjacency)
    (n2i : dict_n2i) (o : Options) (net : Network) :
  pct_edge o < 0 \/ 100 < pct_edge o ->
  nxgraph (visualize F acts A n2i o net).1 = nxgraph net /\
  (visualize F acts A n2i o net).2 <> Ok tt /\
  forall net1,
    visualize_nodes acts n2i o net = (net1, Ok tt) ->
    exists msg,
      visualize F acts A n2i o net = (net1, Raise (ValueError msg)).
Proof.
  intros Hq.
  assert (Hedges : forall net1, exists msg,
            _update_edges A F (invert n2i) (pct_edge o) (lw_min o)
                          (lw_max o) net1
            = (net1, Raise (ValueError msg))).
  { intros net1. unfold _update_edges, bind, lift.
    destruct (np_max (log_flows_of F)) as [fmax | e] eqn:Hmax.
    - destruct (np_min (log_flows_of F)) as [fmin | e] eqn:Hmin.
      + rewrite (np_percentile_range _ _ Hq). eauto.
      + destruct (log_flows_of F); simpl in *; [discriminate |].
        discriminate.
    - destruct (log_flows_of F); simpl in *; [| discriminate].
      injection Hmax as <-. eauto. }
  destruct (visualize_nodes acts n2i o net) as [net1 r] eqn:Hn.
  pose proof (visualize_nodes_nxgraph _ _ _ _ _ _ Hn) as Hg.
  unfold visualize, bind. rewrite Hn. destruct r as [[] | e].
  - destruct (Hedges net1) as [msg Hm]. rewrite Hm. simpl.
    split; [exact Hg |]. split; [discriminate |].
    intros net2 [= <-]. eauto.
  - simpl. split; [exact Hg |]. split; [discriminate |]. intros net2 [=].
Qed.

(** A percentile rank for the activities outside [0, 100] makes
    [visualize] raise ValueError before anything is mutated. *)
Theorem pct_act_out_of_range (F : matrix) (acts : list Q) (A : adjacency)
    (n2i : dict_n2i) (o : Options) (net : Network) :
  pct_act o < 0 \/ 100 < pct_act o ->
  exists msg, visualize F acts A n2i o net = (net, Raise (ValueError msg)).
Proof.
  intros Hq. unfold visualize, visualize_nodes, bind, lift.
  destruct (resolve_color (255, 0, 0)%Z color_up_msg (color_up o))
    as [cu | e] eqn:Hup.
  - destruct (resolve_color (0, 0, 255)%Z color_dn_msg (color_dn o))
      as [cd | e] eqn:Hdn.
    + rewrite (np_percentile_range _ _ Hq). eauto.
    + destruct (color_dn o) as [| r g b | | []]; simpl in Hdn;
        try discriminate; injection Hdn as <-; eauto.
  - destruct (color_up o) as [| r g b | | []]; simpl in Hup;
      try discriminate; injection Hup as <-; eauto.
Qed.

Lemma width_for_at_min (fmax fmin fthr lmin lmax f : Q) :
  fmin <= fthr -> ~ f == 0 -> ~ fmax == fmin -> log10 (Qabs f) <= fmin ->
  width_for fmax fmin fthr lmin lmax f == lmin.
Proof.
  intros H1 Hn Hd Hle. unfold width_for.
  apply Qeq_bool_false in Hn. rewrite Hn.
  assert (Ed : Qeq_bool (fmax - fmin) 0 = false).
  { apply Qeq_bool_false. intros E. apply Hd. lra. }
  rewrite Ed.
  assert (Hc : np_clip (log10 (Qabs f)) fmin fthr == fmin)
    by (clip_cases; lra).
  rewrite Hc. field. intros E. apply Hd. lra.
Qed.

(** After a completed call, when the nonzero flows do not all have the
    same magnitude, the edge whose nonzero flow has the smallest
    log-magnitude has width lw_min, like the edges with zero flow. *)
Theorem weakest_flow_width (F : matrix) (acts : list Q) (A : adjacency)
    (n2i : dict_n2i) (o : Options) (net net' : Network)
    (i j : nat) (a : adj) (f : Q) (i' j' : nat) (f' : Q) :
  NoDup n2i.*1 ->
  visualize F acts A n2i o net = (net', Ok tt) ->
  mat_get A i j = Ok a -> adj_nonzero a ->
  mat_get F i j = Ok f -> ~ f == 0 ->
  (forall i0 j0 f0, mat_get F i0 j0 = Ok f0 -> ~ f0 == 0 ->
     log10 (Qabs f) <= log10 (Qabs f0)) ->
  mat_get F i' j' = Ok f' -> ~ f' == 0 ->
  log10 (Qabs f) < log10 (Qabs f') ->
  exists tgt src e,
    invert n2i !! Z.of_nat i = Some tgt /\
    invert n2i !! Z.of_nat j = Some src /\
    nxgraph net' !! (src, tgt) = Some e /\
    edge_width e == lw_min o.
Proof.
  intros Hnd Hv Ha Hne Hf Hfz Hleast Hf' Hfz' Hlt.
  destruct (visualize_edge_at _ _ _ _ _ _ _ _ _ _ Hnd Hv Ha Hne)
    as (fmax & fmin & fthr & tgt & src & g & e & hc & Hmax & Hmin & Hthr
        & Hi & Hj & Hg & Hl & _ & _ & _ & Hw).
  assert (g = f) by congruence. subst g.
  destruct (flow_stats_ordered _ _ _ _ _ Hmax Hmin Hthr) as [Hlo Hhi].
  apply log_flows_max in Hmax as [_ Hmax].
  apply log_flows_min in Hmin as [(i0 & j0 & f0 & Hg0 & Hz0 & ->) Hmin].
  exists tgt, src, e. do 3 (split; [assumption |]). rewrite Hw.
  pose proof (Hmax _ _ _ Hf' Hfz') as Hup.
  pose proof (Hmin _ _ _ Hf Hfz) as Hdown.
  pose proof (Hleast _ _ _ Hg0 Hz0) as Hle.
  apply width_for_at_min; try assumption; lra.
Qed.

(** After a completed call, when all nonzero flows have the same
    log-magnitude (a single nonzero flow, for one), every edge with
    nonzero flow has the midpoint width (lw_min + lw_max) / 2. *)
Theorem uniform_flow_midpoint (F : matrix) (acts : list Q) (A : adjacency)
    (n2i : dict_n2i) (o : Options) (net net' : Network)
    (i j : nat) (a : adj) (f : Q) :
  NoDup n2i.*1 ->
  visualize F acts A n2i o net = (net', Ok tt) ->
  mat_get A i j = Ok a -> adj_nonzero a ->
  mat_get F i j = Ok f -> ~ f == 0 ->
  (forall i1 j1 f1 i2 j2 f2,
     mat_get F i1 j1 = Ok f1 -> ~ f1 == 0 ->
     mat_get F i2 j2 = Ok f2 -> ~ f2 == 0 ->
     log10 (Qabs f1) == log10 (Qabs f2)) ->
  exists tgt src e,
    invert n2i !! Z.of_nat i = Some tgt /\
    invert n2i !! Z.of_nat j = Some src /\
    nxgraph net' !! (src, tgt) = Some e /\
    edge_width e == (lw_min o + lw_max o) / 2.
Proof.
  intros Hnd Hv Ha Hne Hf Hfz Hsame.
  destruct (visualize_edge_at _ _ _ _ _ _ _ _ _ _ Hnd Hv Ha Hne)
    as (fmax & fmin & fthr & tgt & src & g & e & hc & Hmax & Hmin & Hthr
        & Hi & Hj & Hg & Hl & _ & _ & _ & Hw).
  assert (g = f) by congruence. subst g.
  apply log_flows_max in Hmax as [(i1 & j1 & f1 & Hg1 & Hz1 & ->) _].
  apply log_flows_min in Hmin as [(i2 & j2 & f2 & Hg2 & Hz2 & ->) _].
  exists tgt, src, e. do 3 (split; [assumption |]). rewrite Hw.
  unfold width_for. apply Qeq_bool_false in Hfz. rewrite Hfz.
  assert (Ed : Qeq_bool (log10 (Qabs f1) - log10 (Qabs f2)) 0 = true).
  { apply Qeq_bool_iff. rewrite (Hsame _ _ _ _ _ _ Hg1 Hz1 Hg2 Hz2). ring. }
  rewrite Ed. field.
Qed.

(** One iteration of the edge loop, however it ends: the graph is as it
    was, or holds at the key of the position what the body writes
    there. *)
Lemma update_edge_at_any_written (A : adjacency) (F : matrix)
    (i2n : gmap Z string)
    (flow_max flow_min flow_thr lw_min lw_max : Q) (p : nat * nat)
    (net net' : Network) (r : result unit) :
  update_edge_at A F i2n flow_max flow_min flow_thr lw_min lw_max p net
    = (net', r) ->
  nxgraph net' = nxgraph net \/
  exists k e,
    edge_written A F i2n flow_max flow_min flow_thr lw_min lw_max p k e /\
    nxgraph net' = <[k := e]> (nxgraph net).
Proof.
  destruct r as [[] | e].
  - intros Hb. apply update_edge_at_Ok in Hb as (k & e & Hw & _ & _ & Hg).
    right. eauto.
  - destruct p as [i j].
    unfold update_edge_at, bind, lift, get_edge, set_edge, modify, i2n_get.
    destruct (i2n !! Z.of_nat i) as [tgt |]; [| intros [= <- _]; auto].
    destruct (i2n !! Z.of_nat j) as [src |]; [| intros [= <- _]; auto].
    destruct (mat_get F i j) as [f |]; [| intros [= <- _]; auto].
    destruct (nxgraph net !! (src, tgt)) as [e0 |];
      [| intros [= <- _]; auto].
    destruct (head_and_color f (mat_get A i j)) as [hc |];
      [intros [=] | intros [= <- _]; auto].
Qed.

Lemma edge_loop_any_written (A : adjacency) (F : matrix) (i2n : gmap Z string)
    (flow_max flow_min flow_thr lw_min lw_max : Q) (ps : list (nat * nat))
    (net net' : Network) (r : result unit) (k : string * string) :
  for_each ps
    (update_edge_at A F i2n flow_max flow_min flow_thr lw_min lw_max) net
    = (net', r) ->
  nxgraph net' !! k = nxgraph net !! k \/
  exists p e,
    p ∈ ps /\ nxgraph net' !! k = Some e /\
    edge_written A F i2n flow_max flow_min flow_thr lw_min lw_max p k e.
Proof.
  revert net. induction ps as [| p0 ps IH]; intros net; simpl.
  - unfold ret. intros [= <- _]. left. reflexivity.
  - intros Hb.
    assert (Hstep : forall net1 r1,
              update_edge_at A F i2n flow_max flow_min flow_thr lw_min
                lw_max p0 net = (net1, r1) ->
              nxgraph net1 !! k = nxgraph net !! k \/
              exists e, nxgraph net1 !! k = Some e /\
                edge_written A F i2n flow_max flow_min flow_thr lw_min
                  lw_max p0 k e).
    { intros net1 r1 H1.
      apply update_edge_at_any_written in H1 as [-> | (k0 & e & Hw & ->)];
        [left; reflexivity |].
      destruct (decide (k0 = k)) as [<- | Hne].
      - right. exists e. split; [apply lookup_insert_eq | exact Hw].
      - left. apply lookup_insert_ne. exact Hne. }
    apply bind_inv in Hb as [(a & s1 & Hm & Hb) | (e & Hm & _)].
    + apply IH in Hb as [Hsame | (p & e & Hp & Hl & Hw)].
      * rewrite Hsame. apply Hstep in Hm as [Hm | (e & Hl & Hw)];
          [left; exact Hm |].
        right. exists p0, e. split; [left | auto].
      * right. exists p, e. split; [right; exact Hp | auto].
    + apply Hstep in Hm as [Hm | (e0 & Hl & Hw)]; [left; exact Hm |].
      right. exists p0, e0. split; [left | auto].
Qed.

Lemma edge_written_same (A : adjacency) (F : matrix) (i2n : gmap Z string)
    (fmax fmin fthr lmin lmax : Q) (p : nat * nat) (k : string * string)
    (e e' : Edge) :
  edge_written A F i2n fmax fmin fthr lmin lmax p k e ->
  edge_written A F i2n fmax fmin fthr lmin lmax p k e' ->
  edge_head_offset e = edge_head_offset e' -> e = e'.
Proof.
  intros (f & hc & _ & _ & Hf & Hhc & Hc & Hfill & Hw & Hs)
         (f' & hc' & _ & _ & Hf' & Hhc' & Hc' & Hfill' & Hw' & Hs') Hg.
  assert (f' = f) by congruence. subst f'.
  assert (hc' = hc) by congruence. subst hc'.
  destruct e as [[c w h off] fill wd], e' as [[c' w' h' off'] fill' wd'].
  unfold edge_head_offset in Hg. simpl in *. subst.
  rewrite <- Hs' in Hs. injection Hs as -> ->. reflexivity.
Qed.

(** The edge pass is idempotent: after a completed call, another call
    with the same A, F, n2i, pct_edge, lw_min and lw_max (whatever its
    activities and other options, and however it ends) leaves every edge
    as the first call made it. *)
Theorem edges_idempotent (F : matrix) (acts acts' : list Q) (A : adjacency)
    (n2i : dict_n2i) (o o' : Options) (net net1 : Network) :
  NoDup n2i.*1 ->
  pct_edge o' = pct_edge o -> lw_min o' = lw_min o -> lw_max o' = lw_max o ->
  visualize F acts A n2i o net = (net1, Ok tt) ->
  nxgraph (visualize F acts' A n2i o' net1).1 = nxgraph net1.
Proof.
  intros Hnd Hpct Hlo Hhi Hv. apply map_eq. intros k.
  pose proof (proj1 (visualize_edges_any F acts' A n2i o' net1) k) as Hgeo.
  apply visualize_Ok_inv in Hv as (netn & _ & He1).
  pose proof He1 as He1'.
  apply update_edges_Ok_exact in He1'
    as (fmax & fmin & fthr & Hmax & Hmin & Hthr & Hall);
    [| apply invert_injective; exact Hnd].
  destruct (visualize F acts' A n2i o' net1) as [net2 r2] eqn:Hv2.
  simpl in *.
  apply visualize_inv in Hv2 as [(netm & Hn2 & He2) | (e & Hn2 & _)].
  2: { apply visualize_nodes_nxgraph in Hn2. rewrite Hn2. reflexivity. }
  apply visualize_nodes_nxgraph in Hn2.
  unfold _update_edges in He2. rewrite Hpct, Hlo, Hhi in He2.
  unfold bind at 1, lift at 1 in He2. rewrite Hmax in He2.
  unfold bind at 1, lift at 1 in He2. rewrite Hmin in He2.
  unfold bind at 1, lift at 1 in He2. rewrite Hthr in He2.
  apply edge_loop_any_written with (k := k) in He2
    as [Hsame | (p & e2 & Hp & Hl2 & Hw2)].
  - rewrite Hsame, Hn2. reflexivity.
  - destruct (Hall p Hp) as (k1 & e1 & Hl1 & Hw1).
    assert (k1 = k).
    { pose proof (edge_written_key _ _ _ _ _ _ _ _ _ _ _ Hw1).
      pose proof (edge_written_key _ _ _ _ _ _ _ _ _ _ _ Hw2).
      congruence. }
    subst k1. rewrite Hl2, Hl1. f_equal.
    rewrite Hl2, Hl1 in Hgeo.
    simpl in Hgeo.
    injection Hgeo as Hg.
    eapply edge_written_same; [exact Hw2 | exact Hw1 | exact Hg].
Qed.

(** ** More on the node pass *)

(** One visit of the node loop, however it ends: the node keeps its
    identifier and name, and [net.labels] goes through a name step and an
    activity step. *)
Lemma visit_node_any (acts arr_t : list Q) (n2i : dict_n2i)
    (cu cd : rgb) (o : Options) (font : QFont) (k : string)
    (n n' : Node) (ls ls' : gmap string Label) (r : result unit) :
  visit_node acts arr_t n2i cu cd o font k (n, ls) = ((n', ls'), r) ->
  node_iden n' = node_iden n /\ node_name n' = node_name n /\
  exists ls1, name_phase o n ls ls1 /\ act_phase o k n ls1 ls'.
Proof.
  unfold visit_node. intros Hb.
  apply bind_inv in Hb as [(idx & s0 & Hm & Hb) | (e & Hm & _)].
  2: { apply lift_inv in Hm as [[= -> ->] _].
       do 2 (split; [reflexivity |]). exists ls. split; left; reflexivity. }
  apply lift_inv in Hm as [-> _].
  apply bind_inv in Hb as [([] & [n0 ls0] & Hm & Hb) | (e & Hm & _)].
  2: { destruct (fix_node_size o); discriminate Hm. }
  assert (Hn0 : node_iden n0 = node_iden n /\ node_name n0 = node_name n
                /\ ls0 = ls).
  { destruct (fix_node_size o); injection Hm as <- <-; auto. }
  destruct Hn0 as (Hid0 & Hnm0 & ->). clear Hm.
  apply bind_inv in Hb as [(act & s1 & Hm & Hb) | (e & Hm & _)].
  2: { apply lift_inv in Hm as [[= -> ->] _].
       do 2 (split; [assumption |]). exists ls. split; left; reflexivity. }
  apply lift_inv in Hm as [-> _].
  apply bind_inv in Hb as [(t & s2 & Hm & Hb) | (e & Hm & _)].
  2: { apply lift_inv in Hm as [[= -> ->] _].
       do 2 (split; [assumption |]). exists ls. split; left; reflexivity. }
  apply lift_inv in Hm as [-> _].
  apply bind_inv in Hb as [([] & [n1 ls1] & Hm & Hb) | (e & Hm & _)].
  2: { discriminate Hm. }
  unfold modify in Hm. simpl in Hm. injection Hm as <- <-.
  set (n1 := set_fill_border _ _ _ n0) in *.
  assert (Hid1 : node_iden n1 = node_iden n) by exact Hid0.
  assert (Hnm1 : node_name n1 = node_name n) by exact Hnm0.
  clearbody n1. clear Hid0 Hnm0 n0.
  assert (Hname : forall n2 ls2 r2,
            (if show_label o
             then st <- get;;
                  _update_single_label_name (node_name st.1)
                    (fix_node_size o) font
             else ret tt) (n1, ls) = ((n2, ls2), r2) ->
            node_iden n2 = node_iden n /\ node_name n2 = node_name n /\
            name_phase o n ls ls2).
  { intros n2 ls2 r2 H2. destruct (show_label o) eqn:Hsl.
    - unfold bind, get in H2. simpl in H2.
      apply update_single_label_name_inv in H2
        as (E1 & E2 & _ & [(e & _ & _ & -> & _)
                          | (l & l' & _ & Hl & -> & Hil & _)]).
      + split; [congruence |]. split; [congruence |]. left. reflexivity.
      + split; [congruence |]. split; [congruence |]. right.
        split; [exact Hsl |]. rewrite <- Hnm1. exists l, l'. auto.
    - unfold ret in H2. injection H2 as <- <- _.
      split; [assumption |]. split; [assumption |]. left. reflexivity. }
  apply bind_inv in Hb as [([] & [n2 ls2] & Hm & Hb) | (e & Hm & _)].
  2: { apply Hname in Hm as (E1 & E2 & Hph).
       do 2 (split; [assumption |]). exists ls'. split; [exact Hph |].
       left. reflexivity. }
  apply Hname in Hm as (Hid2 & Hnm2 & Hph). clear Hname.
  destruct (show_act o) eqn:Hsa.
  - apply update_single_label_activity_inv in Hb as [-> Hcase].
    do 2 (split; [assumption |]). exists ls2. split; [exact Hph |].
    cbv zeta in Hcase. rewrite Hid2 in Hcase.
    destruct Hcase as [(e & _ & ->) | (str_x & _ & _ & Hcase)];
      [left; reflexivity |].
    right. left. split; [exact Hsa |].
    destruct (ls2 !! act_label_iden (node_iden n)) as [l |] eqn:Hl.
    + destruct Hcase as (t' & _ & ->). eexists. split; [reflexivity |].
      right. exists l. split; [reflexivity |].
      unfold restyled. destruct (fix_act_label o); reflexivity.
    + subst ls'. eexists. split; [reflexivity |]. left.
      unfold restyled. destruct (fix_act_label o); reflexivity.
  - unfold bind, get in Hb. simpl in Hb.
    destruct (ls2 !! act_label_iden k) as [l |] eqn:Hl.
    + unfold lift, remove_label, put in Hb.
      destruct (ls2 !! label_iden l) as [l2 |] eqn:Hl2.
      * injection Hb as <- <- _. do 2 (split; [assumption |]).
        exists ls2. split; [exact Hph |]. right. right.
        split; [exact Hsa |]. exists l. auto.
      * injection Hb as <- <- _. do 2 (split; [assumption |]).
        exists ls2. split; [exact Hph |]. left. reflexivity.
    + unfold ret in Hb. injection Hb as <- <- _.
      do 2 (split; [assumption |]).
      exists ls2. split; [exact Hph |]. left. reflexivity.
Qed.

Lemma name_phase_facts (o : Options) (n : Node) (ls ls1 : gmap string Label) :
  name_phase o n ls ls1 ->
  (labels_wf ls -> labels_wf ls1) /\
  (forall K, ls1 !! K = None <-> ls !! K = None) /\
  (forall K, K <> node_name n -> ls1 !! K = ls !! K).
Proof.
  intros [-> | (_ & l & l' & Hl & -> & Hil)].
  - split; [auto |]. split; reflexivity.
  - split; [| split].
    + intros Hwf. apply labels_wf_insert; [exact Hwf |].
      rewrite Hil. apply Hwf. exact Hl.
    + intros K. destruct (decide (node_name n = K)) as [<- | Hne].
      * rewrite lookup_insert_eq, Hl. split; discriminate.
      * rewrite lookup_insert_ne by exact Hne. reflexivity.
    + intros K HK. apply lookup_insert_ne. congruence.
Qed.

Lemma act_phase_facts (o : Options) (k : string) (n : Node)
    (ls1 ls' : gmap string Label) :
  act_phase o k n ls1 ls' ->
  (labels_wf ls1 -> labels_wf ls') /\
  (show_act o = false -> forall K, ls1 !! K = None -> ls' !! K = None) /\
  (show_act o = true ->
     forall K, is_Some (ls1 !! K) -> is_Some (ls' !! K)) /\
  (labels_wf ls1 ->
     forall K, K <> act_label_iden (node_iden n) ->
               K <> act_label_iden k -> ls' !! K = ls1 !! K).
Proof.
  intros [-> | [(Hon & l' & -> & Hid) | (Hoff & l & Hl & ->)]].
  - split; [auto |]. split; [auto |]. split; auto.
  - split; [| split; [| split]].
    + intros Hwf. apply labels_wf_insert; [exact Hwf |].
      destruct Hid as [Hid | (l & Hl & Hid)]; [exact Hid |].
      rewrite Hid. apply Hwf. exact Hl.
    + congruence.
    + intros _ K HK.
      destruct (decide (act_label_iden (node_iden n) = K)) as [<- | Hne].
      * rewrite lookup_insert_eq. eauto.
      * rewrite lookup_insert_ne by exact Hne. exact HK.
    + intros _ K HK _. apply lookup_insert_ne. congruence.
  - split; [| split; [| split]].
    + intros Hwf K l0. destruct (decide (label_iden l = K)) as [<- | Hne].
      * rewrite lookup_delete_eq. discriminate.
      * rewrite lookup_delete_ne by exact Hne. apply Hwf.
    + intros _ K HK. destruct (decide (label_iden l = K)) as [<- | Hne].
      * apply lookup_delete_eq.
      * rewrite lookup_delete_ne by exact Hne. exact HK.
    + congruence.
    + intros Hwf K _ HK. apply lookup_delete_ne.
      rewrite (Hwf _ _ Hl). congruence.
Qed.

(** The loop over the nodes, however it ends, with an invariant [I] on
    [net.labels] and a reflexive relation [R] between a node before and
    after. *)
Lemma map_nodes_any (body : string -> M NodeState unit)
    (I : gmap string Label -> Prop) (R : string -> Node -> Node -> Prop) :
  (forall k n, R k n n) ->
  forall todo,
    (forall k n ls n' ls' r,
       (k, n) ∈ todo -> I ls -> body k (n, ls) = ((n', ls'), r) ->
       I ls' /\ R k n n') ->
    forall ls ns' ls' r,
      I ls -> map_nodes body todo ls = ((ns', ls'), r) ->
      I ls' /\
      Forall2 (fun kn kn' => kn'.1 = kn.1 /\ R kn.1 kn.2 kn'.2) todo ns'.
Proof.
  intros Hrefl. induction todo as [| [k n] todo IH];
    intros Hstep ls ns' ls' r HI; simpl.
  - intros [= <- <- _]. split; [exact HI | constructor].
  - destruct (body k (n, ls)) as [[n1 ls1] r1] eqn:Hb.
    destruct (Hstep k n ls n1 ls1 r1) as [HI1 HR1]; [left | exact HI | exact Hb |].
    destruct r1 as [[] | e].
    + destruct (map_nodes body todo ls1) as [[rest ls2] r2] eqn:Hrest.
      intros [= <- <- <-].
      destruct (IH (fun k0 n0 ls0 n0' ls0' r0 Hin =>
                      Hstep k0 n0 ls0 n0' ls0' r0
                        (list_elem_of_further _ _ _ Hin))
                   ls1 rest ls2 r2 HI1 Hrest) as [HI2 HF].
      split; [exact HI2 |]. constructor; [simpl; auto | exact HF].
    + intros [= <- <- _]. split; [exact HI1 |].
      constructor; [simpl; auto |].
      clear -Hrefl.
      induction todo as [| [k0 n0] todo IH]; constructor; simpl; auto.
Qed.

(** [visualize] either stops before the node loop, leaving nodes and
    labels alone, or its nodes and labels are those the node loop
    produced. *)
Lemma visualize_any_pass (F : matrix) (acts : list Q) (A : adjacency)
    (n2i : dict_n2i) (o : Options) (net : Network) :
  (nodes (visualize F acts A n2i o net).1 = nodes net /\
   labels (visualize F acts A n2i o net).1 = labels net) \/
  exists cu cd thr font r0,
    map_nodes (visit_node acts (arr_t_of acts thr) n2i cu cd o font)
      (nodes net) (labels net)
    = ((nodes (visualize F acts A n2i o net).1,
        labels (visualize F acts A n2i o net).1), r0).
Proof.
  assert (Hnodes : forall net1 r1,
            visualize_nodes acts n2i o net = (net1, r1) ->
            (nodes net1 = nodes net /\ labels net1 = labels net) \/
            exists cu cd thr font r0,
              map_nodes (visit_node acts (arr_t_of acts thr) n2i cu cd o font)
                (nodes net) (labels net)
              = ((nodes net1, labels net1), r0)).
  { unfold visualize_nodes. intros net1 r1 Hb.
    repeat match goal with
    | Hb : bind (lift _) _ _ = _ |- _ =>
        apply bind_inv in Hb as [(? & ? & Hm & Hb) | (? & Hm & _)];
        apply lift_inv in Hm as [-> _]
    end; try (left; split; reflexivity).
    right. unfold for_nodes in Hb.
    destruct (map_nodes _ (nodes net) (labels net)) as [[ns ls] r'] eqn:Hmap.
    injection Hb as <- _. simpl. eauto 10. }
  destruct (visualize F acts A n2i o net) as [net' r] eqn:Hv. simpl.
  apply visualize_inv in Hv as [(net1 & Hn & He) | (e & Hn & _)].
  - apply update_edges_frame in He as [-> ->]. eapply Hnodes; exact Hn.
  - eapply Hnodes; exact Hn.
Qed.

(** Whatever the outcome of [visualize], the Network has the same nodes
    under the same keys in the same order, and every node keeps its
    identifier and its name. *)
Theorem visualize_keeps_node_identity (F : matrix) (acts : list Q)
    (A : adjacency) (n2i : dict_n2i) (o : Options) (net : Network) :
  Forall2 (fun kn kn' => kn'.1 = kn.1 /\
                         node_iden kn'.2 = node_iden kn.2 /\
                         node_name kn'.2 = node_name kn.2)
          (nodes net) (nodes (visualize F acts A n2i o net).1).
Proof.
  destruct (visualize_any_pass F acts A n2i o net)
    as [[-> _] | (cu & cd & thr & font & r0 & Hmap)].
  - clear. induction (nodes net) as [| [k n] l IH]; constructor; simpl; auto.
  - eapply (map_nodes_any _ (fun _ => True)
              (fun _ n n' => node_iden n' = node_iden n /\
                             node_name n' = node_name n)); [auto | | exact I | exact Hmap].
    intros k n ls n' ls' r _ _ Hv. split; [exact I |].
    apply visit_node_any in Hv as (E1 & E2 & _). auto.
Qed.

(** With show_act false, whatever the outcome, [visualize] registers no
    label: a key absent from [net.labels] before the call is absent
    after it. *)
Theorem hiding_adds_no_label (F : matrix) (acts : list Q) (A : adjacency)
    (n2i : dict_n2i) (o : Options) (net : Network) (K : string) :
  show_act o = false ->
  labels net !! K = None ->
  labels (visualize F acts A n2i o net).1 !! K = None.
Proof.
  intros Hoff HK.
  destruct (visualize_any_pass F acts A n2i o net)
    as [[_ ->] | (cu & cd & thr & font & r0 & Hmap)]; [exact HK |].
  eapply (map_nodes_any _ (fun ls => ls !! K = None) (fun _ _ _ => True));
    [auto | | exact HK | exact Hmap].
  intros k n ls n' ls' r _ HI Hv. split; [| exact I].
  apply visit_node_any in Hv as (_ & _ & ls1 & Hname & Hact).
  apply name_phase_facts in Hname as (_ & Hdom & _).
  apply act_phase_facts in Hact as (_ & Hkeep & _).
  apply Hkeep; [exact Hoff |]. apply Hdom. exact HI.
Qed.

(** With show_act true, whatever the outcome, [visualize] removes no
    label: a key of [net.labels] before the call is a key after it. *)
Theorem showing_removes_no_label (F : matrix) (acts : list Q) (A : adjacency)
    (n2i : dict_n2i) (o : Options) (net : Network) (K : string) :
  show_act o = true ->
  is_Some (labels net !! K) ->
  is_Some (labels (visualize F acts A n2i o net).1 !! K).
Proof.
  intros Hon HK.
  destruct (visualize_any_pass F acts A n2i o net)
    as [[_ ->] | (cu & cd & thr & font & r0 & Hmap)]; [exact HK |].
  eapply (map_nodes_any _ (fun ls => is_Some (ls !! K)) (fun _ _ _ => True));
    [auto | | exact HK | exact Hmap].
  intros k n ls n' ls' r _ HI Hv. split; [| exact I].
  apply visit_node_any in Hv as (_ & _ & ls1 & Hname & Hact).
  apply name_phase_facts in Hname as (_ & Hdom & _).
  apply act_phase_facts in Hact as (_ & _ & Hkeep & _).
  apply Hkeep; [exact Hon |].
  destruct (ls1 !! K) eqn:E; [eauto |].
  apply Hdom in E. rewrite E in HI. destruct HI as [? [=]].
Qed.

(** On a well-formed label registry, whatever the outcome, [visualize]
    leaves alone every label whose key is neither the name of a node nor
    the activity key of a node (the upper-cased identifier, of the node
    object or of its dict key, followed by "_act"). *)
Theorem visualize_untouched_label (F : matrix) (acts : list Q) (A : adjacency)
    (n2i : dict_n2i) (o : Options) (net : Network) (K : string) :
  labels_wf (labels net) ->
  (forall k n, (k, n) ∈ nodes net ->
     K <> node_name n /\ K <> str_upper (node_iden n) +:+ "_act" /\
     K <> str_upper k +:+ "_act") ->
  labels (visualize F acts A n2i o net).1 !! K = labels net !! K.
Proof.
  intros Hwf Hfree.
  change (forall k n, (k, n) ∈ nodes net ->
            K <> node_name n /\ K <> act_label_iden (node_iden n) /\
            K <> act_label_iden k) in Hfree.
  destruct (visualize_any_pass F acts A n2i o net)
    as [[_ ->] | (cu & cd & thr & font & r0 & Hmap)]; [reflexivity |].
  eapply (map_nodes_any _
            (fun ls => labels_wf ls /\ ls !! K = labels net !! K)
            (fun _ _ _ => True)) in Hmap; [apply Hmap | auto | | auto].
  intros k n ls n' ls' r Hin [Hwf0 HK] Hv. split; [| exact I].
  destruct (Hfree k n Hin) as (H1 & H2 & H3).
  apply visit_node_any in Hv as (_ & _ & ls1 & Hname & Hact).
  apply name_phase_facts in Hname as (Hwf1 & _ & Hf1).
  apply act_phase_facts in Hact as (Hwf2 & _ & _ & Hf2).
  split; [auto |]. rewrite Hf2, Hf1; auto.
Qed.

Lemma act_phase_keys (o : Options) (k : string) (n : Node)
    (ls1 ls' : gmap string Label) (K : string) :
  act_phase o k n ls1 ls' -> is_Some (ls' !! K) ->
  is_Some (ls1 !! K) \/
  (show_act o = true /\ K = act_label_iden (node_iden n)).
Proof.
  intros [-> | [(Hon & l' & -> & _) | (_ & l & _ & ->)]] HK.
  - left. exact HK.
  - destruct (decide (act_label_iden (node_iden n) = K)) as [<- | Hne].
    + right. auto.
    + left. rewrite lookup_insert_ne in HK by exact Hne. exact HK.
  - left. destruct (decide (label_iden l = K)) as [<- | Hne].
    + rewrite lookup_delete_eq in HK. destruct HK as [? [=]].
    + rewrite lookup_delete_ne in HK by exact Hne. exact HK.
Qed.

(** The name-label helper only restyles: a completed node pass with
    show_label true needs, for every node, a label under the node's name
    that was registered before the call, unless that name is the activity
    key of a node and show_act is true. *)
Theorem name_labels_never_created (acts : list Q) (n2i : dict_n2i)
    (o : Options) (net net1 : Network) (k : string) (n : Node) :
  show_label o = true ->
  visualize_nodes acts n2i o net = (net1, Ok tt) ->
  (k, n) ∈ nodes net ->
  is_Some (labels net !! node_name n) \/
  (show_act o = true /\
   exists k' n', (k', n') ∈ nodes net /\
                 node_name n = act_label_iden (node_iden n')).
Proof.
  intros Hsl Hn Hin.
  apply visualize_nodes_Ok in Hn
    as (cu & cd & thr0 & ns' & ls' & _ & _ & _ & Hmap & _).
  pose (P := fun (done : list (string * Node)) (K : string) =>
          is_Some (labels net !! K) \/
          (show_act o = true /\
           exists k' n', (k', n') ∈ done /\
                         K = act_label_iden (node_iden n'))).
  pose (I := fun (done : list (string * Node)) (ls : gmap string Label) =>
          (forall K, is_Some (ls !! K) -> P done K) /\
          (forall k0 n0, (k0, n0) ∈ done -> P done (node_name n0))).
  assert (Hmono : forall done x K, P done K -> P (done ++ [x]) K).
  { intros done x K [HK | (Hon & k' & n' & Hd & HK)]; [left; exact HK |].
    right. split; [exact Hon |]. exists k', n'.
    split; [apply elem_of_app; left; exact Hd | exact HK]. }
  apply (map_nodes_ind _ I) with (done := []) in Hmap.
  - destruct Hmap as [_ Hall]. simpl in Hall.
    destruct (Hall k n Hin) as [HK | HK]; [left; exact HK | right; exact HK].
  - intros done k0 n0 ls n0' ls0 [Hkeys Hdone] Hv.
    pose proof Hv as Hv'.
    apply visit_node_any in Hv' as (_ & _ & ls1 & Hname & Hact).
    apply visit_node_Ok in Hv
      as (idx & act & t & n1 & ls1' & _ & _ & _ & Hnm & _).
    cbv zeta in Hnm. rewrite Hsl in Hnm.
    apply update_single_label_name_inv in Hnm
      as (_ & _ & _ & [(e & He & _) | (l & l' & _ & Hl & _)]);
      [discriminate |].
    assert (Hnm0 : is_Some (ls !! node_name n0)).
    { revert Hl. destruct (fix_node_size o); simpl; eauto. }
    split.
    + intros K HK. apply (act_phase_keys _ _ _ _ _ _ Hact) in HK
        as [HK | [Hon ->]].
      * apply Hmono, Hkeys.
        apply name_phase_facts in Hname as (_ & Hdom & _).
        destruct (ls !! K) eqn:E; [eauto |].
        apply Hdom in E. rewrite E in HK. destruct HK as [? [=]].
      * right. split; [exact Hon |]. exists k0, n0.
        split; [apply elem_of_app; right; left | reflexivity].
    + intros k1 n1' Hin1. apply elem_of_app in Hin1 as [Hin1 | Hin1].
      * apply Hmono, (Hdone k1 n1' Hin1).
      * apply list_elem_of_singleton in Hin1. injection Hin1 as -> ->.
        apply Hmono, Hkeys, Hnm0.
  - split; [| intros k0 n0 Hin0; inversion Hin0].
    intros K HK. left. exact HK.
Qed.

Lemma blend_one (t : Q) (target : rgb) :
  t == 1 -> blend t target = target.
Proof.
  intros Ht. destruct target as [[r g] b]. unfold blend, color_white, channel.
  rewrite (np_int32_inject _ r) by (rewrite Ht; unfold inject_Z; ring).
  rewrite (np_int32_inject _ g) by (rewrite Ht; unfold inject_Z; ring).
  rewrite (np_int32_inject _ b) by (rewrite Ht; unfold inject_Z; ring).
  reflexivity.
Qed.

Lemma np_percentile_ge (a : list Q) (q p lo : Q) :
  np_percentile a q = Ok p -> Forall (fun y => lo <= y) a -> lo <= p.
Proof.
  intros Hp Hlo. destruct a as [| x a].
  - unfold np_percentile in Hp. simpl in Hp.
    destruct (negb _); discriminate.
  - destruct (fold_maximum_ge a x) as [Hx Hall].
    destruct (np_percentile_between _ _ _ lo (fold_left np_maximum a x) Hp Hlo)
      as [H0 _]; [constructor; assumption | exact H0].
Qed.

Lemma percentile_abs_nonneg (acts : list Q) (q thr0 : Q) :
  np_percentile (map Qabs acts) q = Ok thr0 -> 0 <= thr0.
Proof.
  intros Hthr. eapply np_percentile_ge; [exact Hthr |].
  apply Forall_forall. intros y Hy.
  apply list_elem_of_In, in_map_iff in Hy as (x & <- & _).
  apply Qabs_nonneg.
Qed.

(** After a completed node pass, a node whose |activity| reaches the
    colour-scale threshold (the pct_act-th percentile of |acts|, or 1 when
    that percentile is 0) is filled with exactly color_up if its activity
    is positive and exactly color_dn if it is negative. *)
Theorem saturated_node_pure_colour (F : matrix) (acts : list Q) (A : adjacency)
    (n2i : dict_n2i) (o : Options) (net net1 : Network)
    (k : string) (n : Node) :
  visualize_nodes acts n2i o net = (net1, Ok tt) ->
  (k, n) ∈ nodes (visualize F acts A n2i o net).1 ->
  exists cu cd thr0 idx a,
    resolve_color (255, 0, 0)%Z color_up_msg (color_up o) = Ok cu /\
    resolve_color (0, 0, 255)%Z color_dn_msg (color_dn o) = Ok cd /\
    np_percentile (map Qabs acts) (pct_act o) = Ok thr0 /\
    n2i_get n2i k = Ok idx /\ getitem acts idx = Ok a /\
    ((if Qeq_bool thr0 0 then 1 else thr0) <= Qabs a ->
     (0 < a -> node_FILL_COLOR n = QColor cu.1.1 cu.1.2 cu.2 255) /\
     (a < 0 -> node_FILL_COLOR n = QColor cd.1.1 cd.1.2 cd.2 255)).
Proof.
  intros Hn Hin.
  destruct (visualize_nodes_kept F acts A n2i o net net1 Hn) as [Hnodes _].
  rewrite Hnodes in Hin.
  destruct (visualize_nodes_fill _ _ _ _ _ _ _ Hn Hin)
    as (cu & cd & thr0 & idx & a & Hcu & Hcd & Hthr & Hi & Ha & Hfill).
  exists cu, cd, thr0, idx, a. do 5 (split; [assumption |]).
  intros Hsat.
  pose proof (percentile_abs_nonneg _ _ _ Hthr) as H0.
  set (thr := if Qeq_bool thr0 0 then 1 else thr0) in *.
  assert (Hpos : 0 < thr).
  { subst thr. destruct (Qeq_bool thr0 0) eqn:E; [lra |].
    apply Qeq_bool_false in E. lra. }
  assert (Ht : np_clip (Qabs a / thr) 0 1 == 1).
  { apply np_clip_above; [lra |].
    apply Qle_shift_div_l; [exact Hpos | lra]. }
  rewrite Hfill. unfold fill_for. rewrite !(blend_one _ _ Ht).
  split; intros Hs.
  - apply Qltb_true in Hs. rewrite Hs. destruct cu as [[r g] b]. reflexivity.
  - assert (Hf : Qltb 0 a = false) by (apply Qltb_false; lra).
    rewrite Hf. destruct cd as [[r g] b]. reflexivity.
Qed.

(** After a completed node pass, a node whose activity is zero is filled
    pure white, whatever the other activities and the colours are. *)
Theorem zero_activity_white (F : matrix) (acts : list Q) (A : adjacency)
    (n2i : dict_n2i) (o : Options) (net net1 : Network)
    (k : string) (n : Node) (idx : Z) (a : Q) :
  visualize_nodes acts n2i o net = (net1, Ok tt) ->
  (k, n) ∈ nodes (visualize F acts A n2i o net).1 ->
  n2i_get n2i k = Ok idx -> getitem acts idx = Ok a -> a == 0 ->
  node_FILL_COLOR n = QColor 255 255 255 255.
Proof.
  intros Hn Hin Hi Ha Hz.
  destruct (visualize_nodes_kept F acts A n2i o net net1 Hn) as [Hnodes _].
  rewrite Hnodes in Hin.
  destruct (visualize_nodes_fill _ _ _ _ _ _ _ Hn Hin)
    as (cu & cd & thr0 & idx' & a' & _ & _ & _ & Hi' & Ha' & Hfill).
  assert (idx' = idx) by congruence. subst idx'.
  assert (a' = a) by congruence. subst a'.
  assert (Ht : np_clip (Qabs a / (if Qeq_bool thr0 0 then 1 else thr0)) 0 1
               == 0).
  { assert (Hy : Qabs a / (if Qeq_bool thr0 0 then 1 else thr0) == 0).
    { rewrite Hz. unfold Qdiv. change (Qabs 0) with 0. apply Qmult_0_l. }
    revert Hy. generalize (Qabs a / (if Qeq_bool thr0 0 then 1 else thr0)).
    intros y Hy. clip_cases; lra. }
  rewrite Hfill. unfold fill_for. rewrite !(blend_zero _ _ Ht).
  destruct (Qltb 0 a); reflexivity.
Qed.

(** The name-label helper when it returns: the label found under the
    name gets the font, a colour and a weight chosen by the lightness of
    the node's fill, and is centred on the node; the node takes 1.1 times
    the label's bounding box unless its size is fixed. *)
Lemma update_single_label_name_exact (name : string) (fixed : bool)
    (font : QFont) (n n1 : Node) (ls ls1 : gmap string Label) :
  _update_single_label_name name fixed font (n, ls) = ((n1, ls1), Ok tt) ->
  exists l L,
    ls !! name = Some l /\
    label_iden L = label_iden l /\ label_parent L = label_parent l /\
    label_text L = label_text l /\ label_pos L = label_pos l /\
    label_FONT L = Some font /\
    ((lightness (node_FILL_COLOR n) < 200)%Z ->
       label_TEXT_COLOR L = Some Qt_white /\ label_FONT_BOLD L = Some true) /\
    ((200 <= lightness (node_FILL_COLOR n))%Z ->
       label_TEXT_COLOR L = Some Qt_black /\
       label_FONT_BOLD L = Some false) /\
    ls1 = <[name := setPos (- (boundingRect L).1 / 2)
                           (- (boundingRect L).2 / 2) L]> ls /\
    n1 = (if fixed then n
          else set_size ((11 # 10) * (boundingRect L).1)
                        ((11 # 10) * (boundingRect L).2) n).
Proof.
  unfold _update_single_label_name.
  destruct (ls !! name) as [l |] eqn:Hl; [| intros [=]].
  intros [= <- <-]. exists l.
  exists (if (lightness (node_FILL_COLOR n) <? 200)%Z
          then set_FONT_BOLD true
                 (set_TEXT_COLOR Qt_white
                    (set_FONT font (set_TEXT_COLOR Qt_black l)))
          else set_FONT_BOLD false
                 (set_TEXT_COLOR Qt_black
                    (set_FONT font (set_TEXT_COLOR Qt_black l)))).
  split; [reflexivity |].
  destruct (lightness (node_FILL_COLOR n) <? 200)%Z eqn:E;
    [apply Z.ltb_lt in E | apply Z.ltb_ge in E]; simpl;
    repeat split; intros; try reflexivity; lia.
Qed.

Lemma act_step_phase (o : Options) (k : string) (n n1 n' : Node)
    (ls1 ls' : gmap string Label) (act : Q) (font : QFont) :
  node_iden n1 = node_iden n ->
  (if show_act o
   then _update_single_label_activity act (fix_act_label o) (fmt_act o)
          font (n1, ls1) = ((n', ls'), Ok tt)
   else n' = n1 /\
        match ls1 !! act_label_iden k with
        | Some l => remove_label l ls1 = Ok ls'
        | None => ls' = ls1
        end) ->
  n' = n1 /\ act_phase o k n ls1 ls'.
Proof.
  intros Hid Hact. destruct (show_act o) eqn:Hsa.
  - apply update_single_label_activity_inv in Hact
      as [-> [(e & He & _) | (str_x & _ & _ & Hcase)]]; [discriminate |].
    split; [reflexivity |]. cbv zeta in Hcase. rewrite Hid in Hcase.
    right. left. split; [exact Hsa |].
    destruct (ls1 !! act_label_iden (node_iden n)) as [l |] eqn:Hl.
    + destruct Hcase as (t' & _ & ->). eexists. split; [reflexivity |].
      right. exists l. split; [reflexivity |].
      unfold restyled. destruct (fix_act_label o); reflexivity.
    + subst ls'. eexists. split; [reflexivity |]. left.
      unfold restyled. destruct (fix_act_label o); reflexivity.
  - destruct Hact as [-> Hact]. split; [reflexivity |].
    destruct (ls1 !! act_label_iden k) as [l |] eqn:Hl.
    + unfold remove_label in Hact.
      destruct (ls1 !! label_iden l); [| discriminate].
      injection Hact as <-. right. right. split; [exact Hsa |]. eauto.
    + subst ls'. left. reflexivity.
Qed.

(** After a completed node pass every node has border width 2 and the
    dark grey border; its size is unchanged when fix_node_size is true,
    and is the default 20 by 20 when neither fix_node_size nor show_label
    is set. *)
Theorem node_border_and_size (F : matrix) (acts : list Q) (A : adjacency)
    (n2i : dict_n2i) (o : Options) (net net1 : Network)
    (pos : nat) (k : string) (n : Node) :
  visualize_nodes acts n2i o net = (net1, Ok tt) ->
  nodes net !! pos = Some (k, n) ->
  exists n',
    nodes (visualize F acts A n2i o net).1 !! pos = Some (k, n') /\
    node_BORDER_WIDTH n' = 2 /\
    node_BORDER_COLOR n' = QColor 40 40 40 255 /\
    (fix_node_size o = true ->
       node_width n' = node_width n /\ node_height n' = node_height n) /\
    (fix_node_size o = false -> show_label o = false ->
       node_width n' = 20 /\ node_height n' = 20).
Proof.
  intros Hn Hpos.
  destruct (visualize_nodes_kept F acts A n2i o net net1 Hn) as [Hnodes _].
  rewrite Hnodes.
  apply visualize_nodes_Ok in Hn
    as (cu & cd & thr0 & ns' & ls' & _ & _ & _ & Hmap & ->).
  simpl.
  eapply (map_nodes_Forall2 _ (fun _ n n' =>
            node_BORDER_WIDTH n' = 2 /\
            node_BORDER_COLOR n' = QColor 40 40 40 255 /\
            (fix_node_size o = true ->
               node_width n' = node_width n /\
               node_height n' = node_height n) /\
            (fix_node_size o = false -> show_label o = false ->
               node_width n' = 20 /\ node_height n' = 20))) in Hmap.
  - destruct (Forall2_lookup_l _ _ _ _ _ Hmap Hpos)
      as ([k' n'] & Hpos' & Hk & HP). simpl in *. subst k'.
    exists n'. split; [exact Hpos' | exact HP].
  - intros k0 n0 ls0 n0' ls0' Hv.
    apply visit_node_Ok in Hv
      as (idx & act & t & n1 & ls1 & _ & _ & _ & Hname & Hact).
    cbv zeta in Hname.
    assert (Hn1 : node_iden n1 = node_iden n0).
    { destruct (show_label o).
      - apply update_single_label_name_inv in Hname as (E & _).
        rewrite E. destruct (fix_node_size o); reflexivity.
      - destruct Hname as [-> _]. destruct (fix_node_size o); reflexivity. }
    apply (act_step_phase _ _ n0) in Hact as [-> _]; [| exact Hn1].
    destruct (show_label o).
    + apply update_single_label_name_exact in Hname
        as (l & L & _ & _ & _ & _ & _ & _ & _ & _ & _ & ->).
      destruct (fix_node_size o); simpl; repeat split; intros;
        try reflexivity; discriminate.
    + destruct Hname as [-> _].
      destruct (fix_node_size o); simpl; repeat split; intros;
        try reflexivity; discriminate.
Qed.

(** A completed loop over the nodes has visited the entry at every
    position, after a completed loop over the entries before it and
    before a completed loop over the entries after it. *)
Lemma map_nodes_split (body : string -> M NodeState unit)
    (todo : list (string * Node)) (pos : nat) (k : string) (n : Node)
    (ls : gmap string Label) (ns' : list (string * Node))
    (ls' : gmap string Label) :
  map_nodes body todo ls = ((ns', ls'), Ok tt) ->
  todo !! pos = Some (k, n) ->
  exists n' ls_b ls_a pre' post',
    map_nodes body (take pos todo) ls = ((pre', ls_b), Ok tt) /\
    body k (n, ls_b) = ((n', ls_a), Ok tt) /\
    ns' !! pos = Some (k, n') /\
    map_nodes body (drop (S pos) todo) ls_a = ((post', ls'), Ok tt).
Proof.
  revert pos ls ns'. induction todo as [| [k0 n0] todo IH];
    intros pos ls ns' Hmap Hpos; [destruct pos; discriminate |].
  simpl in Hmap.
  destruct (body k0 (n0, ls)) as [[n1 ls1] [[] | e]] eqn:Hb;
    [| discriminate Hmap].
  destruct (map_nodes body todo ls1) as [[rest ls2] r] eqn:Hrest.
  injection Hmap as <- <- ->.
  destruct pos as [| pos].
  - simpl in Hpos. injection Hpos as -> ->.
    exists n1, ls, ls1, [], rest. simpl. auto.
  - simpl in Hpos.
    destruct (IH pos ls1 rest Hrest Hpos)
      as (n' & ls_b & ls_a & pre' & post' & Hpre & Hbody & Hl & Hpost).
    exists n', ls_b, ls_a, ((k0, n1) :: pre'), post'. simpl.
    rewrite Hb, Hpre. auto.
Qed.

(** A stretch of the node loop leaves alone, on a well-formed registry,
    every label key that none of its entries uses. *)
Lemma map_nodes_label_frame (acts arr_t : list Q) (n2i : dict_n2i)
    (cu cd : rgb) (o : Options) (font : QFont)
    (seg : list (string * Node)) (K : string)
    (ls : gmap string Label) (ns' : list (string * Node))
    (ls' : gmap string Label) (r : result unit) :
  labels_wf ls ->
  (forall k n, (k, n) ∈ seg ->
     K <> node_name n /\ K <> act_label_iden (node_iden n) /\
     K <> act_label_iden k) ->
  map_nodes (visit_node acts arr_t n2i cu cd o font) seg ls
    = ((ns', ls'), r) ->
  labels_wf ls' /\ ls' !! K = ls !! K.
Proof.
  intros Hwf Hfree Hmap.
  eapply (map_nodes_any _
            (fun ls0 => labels_wf ls0 /\ ls0 !! K = ls !! K)
            (fun _ _ _ => True)) in Hmap; [apply Hmap | auto | | auto].
  intros k n ls0 n' ls0' r0 Hin [Hwf0 HK] Hv. split; [| exact I].
  destruct (Hfree k n Hin) as (H1 & H2 & H3).
  apply visit_node_any in Hv as (_ & _ & ls1 & Hname & Hact).
  apply name_phase_facts in Hname as (Hwf1 & _ & Hf1).
  apply act_phase_facts in Hact as (Hwf2 & _ & _ & Hf2).
  split; [auto |]. rewrite Hf2, Hf1; auto.
Qed.

Lemma key_free_take (ns : list (string * Node)) (pos : nat) (K : string) :
  key_free_elsewhere ns pos K ->
  forall k n, (k, n) ∈ take pos ns ->
    K <> node_name n /\ K <> act_label_iden (node_iden n) /\
    K <> act_label_iden k.
Proof.
  intros Hfree k n Hin. apply list_elem_of_lookup in Hin as [j Hj].
  apply lookup_take_Some in Hj as [Hj Hlt].
  apply (Hfree j k n Hj). lia.
Qed.

Lemma key_free_drop (ns : list (string * Node)) (pos : nat) (K : string) :
  key_free_elsewhere ns pos K ->
  forall k n, (k, n) ∈ drop (S pos) ns ->
    K <> node_name n /\ K <> act_label_iden (node_iden n) /\
    K <> act_label_iden k.
Proof.
  intros Hfree k n Hin. apply list_elem_of_lookup in Hin as [j Hj].
  rewrite lookup_drop in Hj. apply (Hfree _ k n Hj). lia.
Qed.

Lemma name_step_frame (o : Options) (font : QFont) (n0 n1 : Node)
    (ls ls1 : gmap string Label) (K : string) :
  (if show_label o
   then _update_single_label_name (node_name n0) (fix_node_size o) font
          (n0, ls) = ((n1, ls1), Ok tt)
   else n1 = n0 /\ ls1 = ls) ->
  K <> node_name n0 -> ls1 !! K = ls !! K.
Proof.
  intros Hname HK. destruct (show_label o).
  - apply update_single_label_name_inv in Hname
      as (_ & _ & _ & [(e & He & _) | (l & l' & _ & _ & -> & _)]);
      [discriminate |].
    apply lookup_insert_ne. congruence.
  - destruct Hname as [_ ->]. reflexivity.
Qed.

(** After a completed node pass with show_label true and fix_node_size
    false, on a well-formed registry, a node whose name is used as a
    label key by no other node and is not an activity key has the size of
    1.1 times the bounding box of its name label, and that label is centred
    on it, in the font of the call, white and bold on a fill of lightness
    below 200 and black and regular otherwise. *)
Theorem node_sized_by_name_label (F : matrix) (acts : list Q) (A : adjacency)
    (n2i : dict_n2i) (o : Options) (net net1 : Network)
    (pos : nat) (k : string) (n : Node) :
  labels_wf (labels net) ->
  show_label o = true -> fix_node_size o = false ->
  visualize_nodes acts n2i o net = (net1, Ok tt) ->
  nodes net !! pos = Some (k, n) ->
  key_free_elsewhere (nodes net) pos (node_name n) ->
  node_name n <> act_label_iden (node_iden n) ->
  node_name n <> act_label_iden k ->
  exists n' l L,
    nodes (visualize F acts A n2i o net).1 !! pos = Some (k, n') /\
    labels net !! node_name n = Some l /\
    label_iden L = label_iden l /\ label_parent L = label_parent l /\
    label_text L = label_text l /\ label_pos L = label_pos l /\
    label_FONT L
      = Some (match font o with Some f => f | None => mkQFont "Arial" 10 end)
    /\
    ((lightness (node_FILL_COLOR n') < 200)%Z ->
       label_TEXT_COLOR L = Some Qt_white /\ label_FONT_BOLD L = Some true) /\
    ((200 <= lightness (node_FILL_COLOR n'))%Z ->
       label_TEXT_COLOR L = Some Qt_black /\
       label_FONT_BOLD L = Some false) /\
    labels (visualize F acts A n2i o net).1 !! node_name n
      = Some (setPos (- (boundingRect L).1 / 2) (- (boundingRect L).2 / 2) L)
    /\
    node_width n' = (11 # 10) * (boundingRect L).1 /\
    node_height n' = (11 # 10) * (boundingRect L).2.
Proof.
  intros Hwf Hsl Hfix Hn Hpos Hfree Hne1 Hne2.
  destruct (visualize_nodes_kept F acts A n2i o net net1 Hn) as [-> ->].
  apply visualize_nodes_Ok in Hn
    as (cu & cd & thr0 & ns' & ls' & _ & _ & _ & Hmap & ->).
  simpl.
  destruct (map_nodes_split _ _ _ _ _ _ _ _ Hmap Hpos)
    as (n' & ls_b & ls_a & pre' & post' & Hpre & Hbody & Hl & Hpost).
  apply map_nodes_label_frame with (K := node_name n) in Hpre
    as [Hwfb Hkb]; [| exact Hwf | apply key_free_take; exact Hfree].
  apply visit_node_Ok in Hbody
    as (idx & act & t & n1 & ls1 & _ & _ & _ & Hname & Hact).
  cbv zeta in Hname. rewrite Hsl, Hfix in Hname.
  set (n0 := set_fill_border _ _ _ _) in Hname.
  apply update_single_label_name_exact in Hname
    as (l & L & Hlb & E1 & E2 & E3 & E4 & E5 & E6 & E7 & -> & ->).
  change (node_name n0) with (node_name n) in *.
  apply (act_step_phase _ _ n) in Hact as [-> Hphase]; [| reflexivity].
  assert (Hwf1 : labels_wf
            (<[node_name n := setPos (- (boundingRect L).1 / 2)
                                     (- (boundingRect L).2 / 2) L]> ls_b)).
  { apply labels_wf_insert; [exact Hwfb |]. simpl. rewrite E1.
    apply Hwfb. exact Hlb. }
  apply act_phase_facts in Hphase as (Hwfa & _ & _ & Hfa).
  apply map_nodes_label_frame with (K := node_name n) in Hpost
    as [_ Hka]; [| auto | apply key_free_drop; exact Hfree].
  eexists _, l, L. split; [exact Hl |].
  split; [rewrite <- Hkb; exact Hlb |].
  do 7 (split; [assumption |]).
  split; [| split; reflexivity].
  rewrite Hka, Hfa by auto. apply lookup_insert_eq.
Qed.

(** With show_act true the activity step only writes under the node's
    activity key. *)
Lemma act_phase_frame_show (o : Options) (k : string) (n : Node)
    (ls1 ls' : gmap string Label) (K : string) :
  show_act o = true -> act_phase o k n ls1 ls' ->
  K <> act_label_iden (node_iden n) -> ls' !! K = ls1 !! K.
Proof.
  intros Hon [-> | [(_ & l' & -> & _) | (Hoff & _)]] HK.
  - reflexivity.
  - apply lookup_insert_ne. congruence.
  - congruence.
Qed.

(** With show_act true, a stretch of the node loop leaves alone every
    label key that none of its entries uses. *)
Lemma map_nodes_label_frame_show (acts arr_t : list Q) (n2i : dict_n2i)
    (cu cd : rgb) (o : Options) (font : QFont)
    (seg : list (string * Node)) (K : string)
    (ls : gmap string Label) (ns' : list (string * Node))
    (ls' : gmap string Label) (r : result unit) :
  show_act o = true ->
  (forall k n, (k, n) ∈ seg ->
     K <> node_name n /\ K <> act_label_iden (node_iden n) /\
     K <> act_label_iden k) ->
  map_nodes (visit_node acts arr_t n2i cu cd o font) seg ls
    = ((ns', ls'), r) ->
  ls' !! K = ls !! K.
Proof.
  intros Hon Hfree Hmap.
  eapply (map_nodes_any _ (fun ls0 => ls0 !! K = ls !! K)
            (fun _ _ _ => True)) in Hmap; [apply Hmap | auto | | auto].
  intros k n ls0 n' ls0' r0 Hin HK Hv. split; [| exact I].
  destruct (Hfree k n Hin) as (H1 & H2 & H3).
  apply visit_node_any in Hv as (_ & _ & ls1 & Hname & Hact).
  apply name_phase_facts in Hname as (_ & _ & Hf1).
  rewrite (act_phase_frame_show _ _ _ _ _ _ Hon Hact H2), Hf1; auto.
Qed.

(** The activity label of a node after a completed node pass with
    show_act true, when the node's activity key is used by no other node
    and is not the node's own name. *)
Lemma act_label_after_pass (F : matrix) (acts : list Q) (A : adjacency)
    (n2i : dict_n2i) (o : Options) (net net1 : Network)
    (pos : nat) (k : string) (n : Node) :
  show_act o = true ->
  visualize_nodes acts n2i o net = (net1, Ok tt) ->
  nodes net !! pos = Some (k, n) ->
  key_free_elsewhere (nodes net) pos (act_label_iden (node_iden n)) ->
  act_label_iden (node_iden n) <> node_name n ->
  exists n' idx act str_x,
    nodes (visualize F acts A n2i o net).1 !! pos = Some (k, n') /\
    n2i_get n2i k = Ok idx /\ getitem acts idx = Ok act /\
    pyformat (fmt_act o) act = Ok str_x /\
    match labels net !! act_label_iden (node_iden n) with
    | None =>
        labels (visualize F acts A n2i o net).1
          !! act_label_iden (node_iden n)
        = Some (restyled (fix_act_label o)
                  (match font o with
                   | Some f => f | None => mkQFont "Arial" 10 end)
                  n'
                  (set_iden (act_label_iden (node_iden n))
                            (TextLabel n' str_x)))
    | Some l =>
        exists t,
          pyformat str_x act = Ok t /\
          labels (visualize F acts A n2i o net).1
            !! act_label_iden (node_iden n)
          = Some (restyled (fix_act_label o)
                    (match font o with
                     | Some f => f | None => mkQFont "Arial" 10 end)
                    n' (set_text t l))
    end.
Proof.
  intros Hsa Hn Hpos Hfree Hne.
  destruct (visualize_nodes_kept F acts A n2i o net net1 Hn) as [-> ->].
  apply visualize_nodes_Ok in Hn
    as (cu & cd & thr0 & ns' & ls' & _ & _ & _ & Hmap & ->).
  simpl. set (K := act_label_iden (node_iden n)) in *.
  destruct (map_nodes_split _ _ _ _ _ _ _ _ Hmap Hpos)
    as (n' & ls_b & ls_a & pre' & post' & Hpre & Hbody & Hl & Hpost).
  apply map_nodes_label_frame_show with (K := K) in Hpre
    as Hkb; [| exact Hsa | apply key_free_take; exact Hfree].
  apply visit_node_Ok in Hbody
    as (idx & act & t & n1 & ls1 & Hidx & Hget & _ & Hname & Hact).
  cbv zeta in Hname.
  set (n0 := set_fill_border _ _ _ _) in Hname.
  assert (Hnm0 : node_name n0 = node_name n)
    by (subst n0; destruct (fix_node_size o); reflexivity).
  assert (Hk1 : ls1 !! K = ls_b !! K).
  { eapply name_step_frame; [exact Hname |]. rewrite Hnm0. exact Hne. }
  apply name_step_labels in Hname as (Hid1 & _ & _).
  assert (Hid : node_iden n1 = node_iden n).
  { rewrite Hid1. subst n0. destruct (fix_node_size o); reflexivity. }
  rewrite Hsa in Hact.
  apply update_single_label_activity_inv in Hact
    as [-> [(e & He & _) | (str_x & _ & Hfmt & Hcase)]]; [discriminate |].
  cbv zeta in Hcase. rewrite Hid in Hcase. fold K in Hcase.
  apply map_nodes_label_frame_show with (K := K) in Hpost
    as Hka; [| exact Hsa | apply key_free_drop; exact Hfree].
  exists n1, idx, act, str_x. do 4 (split; [assumption |]).
  rewrite Hk1, Hkb in Hcase.
  destruct (labels net !! K) as [l |].
  - destruct Hcase as (t' & Ht' & ->). exists t'. split; [exact Ht' |].
    rewrite Hka. apply lookup_insert_eq.
  - subst ls_a. rewrite Hka. apply lookup_insert_eq.
Qed.

(** After a completed node pass with show_act true, the activity label
    of a node whose activity key (the upper-cased identifier followed by
    "_act") is used by no other node and is not its own name is: if no
    label was registered under the key, a new label attached to the node
    with the activity formatted once as text; if one was, that label with
    the activity formatted twice as text.  In both cases font, colour and
    position are set from the call unless fix_act_label is true, which
    leaves a new label unstyled. *)
Theorem activity_label_after_call (F : matrix) (acts : list Q)
    (A : adjacency) (n2i : dict_n2i) (o : Options) (net net1 : Network)
    (pos : nat) (k : string) (n : Node) :
  show_act o = true ->
  visualize_nodes acts n2i o net = (net1, Ok tt) ->
  nodes net !! pos = Some (k, n) ->
  key_free_elsewhere (nodes net) pos (str_upper (node_iden n) +:+ "_act") ->
  str_upper (node_iden n) +:+ "_act" <> node_name n ->
  exists n' idx act str_x,
    nodes (visualize F acts A n2i o net).1 !! pos = Some (k, n') /\
    n2i_get n2i k = Ok idx /\ getitem acts idx = Ok act /\
    pyformat (fmt_act o) act = Ok str_x /\
    match labels net !! (str_upper (node_iden n) +:+ "_act") with
    | None =>
        labels (visualize F acts A n2i o net).1
          !! (str_upper (node_iden n) +:+ "_act")
        = Some (restyled (fix_act_label o)
                  (match font o with
                   | Some f => f | None => mkQFont "Arial" 10 end)
                  n'
                  (set_iden (str_upper (node_iden n) +:+ "_act")
                            (TextLabel n' str_x)))
    | Some l =>
        exists t,
          pyformat str_x act = Ok t /\
          labels (visualize F acts A n2i o net).1
            !! (str_upper (node_iden n) +:+ "_act")
          = Some (restyled (fix_act_label o)
                    (match font o with
                     | Some f => f | None => mkQFont "Arial" 10 end)
                    n' (set_text t l))
    end.
Proof. exact (act_label_after_pass F acts A n2i o net net1 pos k n). Qed.

(** C1 (amended): for a node whose activity label exists when
    [visualize] is called with show_act true, and whose activity key (the
    upper-cased identifier followed by "_act") is neither the name of a
    node nor the activity key of another node, a completed node pass
    leaves under the key that label with the activity
    formatted twice as text and its identifier, owner and boldness as
    they were; its font, text colour and position are unchanged if
    fix_act_label is true, and if fix_act_label is false they are reset
    to the font of the call, QColor(20, 20, 20) and the point to the right
    of the node. *)
Theorem C1_existing_activity_label (F : matrix) (acts : list Q)
    (A : adjacency) (n2i : dict_n2i) (o : Options) (net net1 : Network)
    (pos : nat) (k : string) (n : Node) (l : Label) :
  show_act o = true ->
  visualize_nodes acts n2i o net = (net1, Ok tt) ->
  nodes net !! pos = Some (k, n) ->
  labels net !! (str_upper (node_iden n) +:+ "_act") = Some l ->
  key_free_elsewhere (nodes net) pos (str_upper (node_iden n) +:+ "_act") ->
  str_upper (node_iden n) +:+ "_act" <> node_name n ->
  exists n' idx act str_x t l',
    nodes (visualize F acts A n2i o net).1 !! pos = Some (k, n') /\
    n2i_get n2i k = Ok idx /\ getitem acts idx = Ok act /\
    pyformat (fmt_act o) act = Ok str_x /\ pyformat str_x act = Ok t /\
    labels (visualize F acts A n2i o net).1
      !! (str_upper (node_iden n) +:+ "_act") = Some l' /\
    label_text l' = t /\
    label_iden l' = label_iden l /\
    label_parent l' = label_parent l /\
    label_FONT_BOLD l' = label_FONT_BOLD l /\
    (fix_act_label o = true ->
       label_FONT l' = label_FONT l /\
       label_TEXT_COLOR l' = label_TEXT_COLOR l /\
       label_pos l' = label_pos l) /\
    (fix_act_label o = false ->
       label_FONT l'
       = Some (match font o with
               | Some f => f | None => mkQFont "Arial" 10 end) /\
       label_TEXT_COLOR l' = Some (QColor 20 20 20 255) /\
       label_pos l' =
         Some (node_width n' / 2 + (1 # 2),
               - (boundingRect
                    (set_TEXT_COLOR (QColor 20 20 20 255)
                       (set_FONT
                          (match font o with
                           | Some f => f | None => mkQFont "Arial" 10 end)
                          (set_text t l)))).2 / 2)).
Proof.
  intros Hsa Hn Hpos Hl Hfree Hne.
  destruct (act_label_after_pass F acts A n2i o net net1 pos k n
              Hsa Hn Hpos Hfree Hne)
    as (n' & idx & act & str_x & Hpos' & Hidx & Hact & Hfmt & Hcase).
  change (act_label_iden (node_iden n))
    with (str_upper (node_iden n) +:+ "_act") in Hcase.
  rewrite Hl in Hcase. destruct Hcase as (t & Ht & Hl').
  exists n', idx, act, str_x, t. eexists.
  do 5 (split; [eassumption |]). split; [exact Hl' |].
  unfold restyled. destruct (fix_act_label o); simpl;
    repeat split; congruence.
Qed.

(** ** The index-to-name map *)

Lemma n2i_get_elem (n2i : dict_n2i) (s : string) (i : Z) :
  n2i_get n2i s = Ok i -> (s, i) ∈ n2i.
Proof.
  induction n2i as [| [k v] n2i IH]; simpl; [discriminate |].
  destruct (String.eqb s k) eqn:E.
  - apply String.eqb_eq in E. subst k. intros [= ->]. left.
  - intros Hg. right. apply IH. exact Hg.
Qed.

Lemma elem_n2i_get (n2i : dict_n2i) (s : string) (i : Z) :
  NoDup n2i.*1 -> (s, i) ∈ n2i -> n2i_get n2i s = Ok i.
Proof.
  induction n2i as [| [k v] n2i IH]; simpl; intros Hnd Hin.
  - inversion Hin.
  - apply NoDup_cons in Hnd as [Hk Hnd].
    apply elem_of_cons in Hin as [[= -> ->] | Hin].
    + rewrite String.eqb_refl. reflexivity.
    + destruct (String.eqb s k) eqn:E; [| apply IH; assumption].
      apply String.eqb_eq in E. subst k. exfalso. apply Hk.
      apply list_elem_of_fmap. exists (s, i). split; [reflexivity | exact Hin].
Qed.

Lemma invert_fold_keep (n2i : dict_n2i) (acc : gmap Z string) (i : Z) :
  i ∉ n2i.*2 ->
  fold_left (fun acc kv => <[kv.2 := kv.1]> acc) n2i acc !! i = acc !! i.
Proof.
  revert acc. induction n2i as [| [k v] n2i IH]; intros acc Hi; simpl.
  - reflexivity.
  - simpl in Hi. apply not_elem_of_cons in Hi as [Hne Hi].
    rewrite IH by exact Hi. apply lookup_insert_ne. congruence.
Qed.

Lemma elem_invert (n2i : dict_n2i) (s : string) (i : Z) :
  NoDup n2i.*2 -> (s, i) ∈ n2i -> invert n2i !! i = Some s.
Proof.
  unfold invert. generalize (∅ : gmap Z string).
  induction n2i as [| [k v] n2i IH]; intros acc Hnd Hin; simpl.
  - inversion Hin.
  - simpl in Hnd. apply NoDup_cons in Hnd as [Hv Hnd].
    apply elem_of_cons in Hin as [[= -> ->] | Hin].
    + rewrite invert_fold_keep by exact Hv. apply lookup_insert_eq.
    + apply IH; assumption.
Qed.

(** For a one-to-one [n2i], the map built on line 213 is its inverse:
    i2n[i] is s exactly when n2i[s] is i. *)
Theorem i2n_inverts_n2i (n2i : dict_n2i) (s : string) (i : Z) :
  NoDup n2i.*1 -> NoDup n2i.*2 ->
  (invert n2i !! i = Some s <-> n2i_get n2i s = Ok i).
Proof.
  intros Hk Hv. split.
  - intros Hl. apply elem_n2i_get; [exact Hk |]. apply invert_lookup, Hl.
  - intros Hg. apply elem_invert; [exact Hv |]. apply n2i_get_elem, Hg.
Qed.

(** ** Colour intensity *)

Lemma np_int32_nonneg (x : Q) : 0 <= x -> np_int32 x = Qfloor x.
Proof.
  destruct x as [p q]. unfold np_int32, Qfloor, Qle. simpl.
  intros Hp. apply Z.quot_div_nonneg; lia.
Qed.

Lemma np_int32_mono (x y : Q) :
  0 <= x -> x <= y -> (np_int32 x <= np_int32 y)%Z.
Proof.
  intros Hx Hxy. rewrite !np_int32_nonneg by lra.
  apply Qfloor_resp_le. exact Hxy.
Qed.

Lemma channel_antitone (c : Z) (t1 t2 : Q) :
  (0 <= c <= 255)%Z -> 0 <= t1 -> t1 <= t2 -> t2 <= 1 ->
  (channel t2 255 c <= channel t1 255 c)%Z.
Proof.
  intros [Hc0 Hc1] H0 H12 H1. unfold channel. apply np_int32_mono.
  - assert (Hq0 : 0 <= inject_Z c)
      by (change 0 with (inject_Z 0); rewrite <- Zle_Qle; exact Hc0).
    assert (Hq1 : inject_Z c <= inject_Z 255)
      by (rewrite <- Zle_Qle; exact Hc1).
    nra.
  - assert (Hq1 : inject_Z c <= inject_Z 255)
      by (rewrite <- Zle_Qle; exact Hc1).
    nra.
Qed.

(** After a completed node pass, of two nodes on the same side of zero
    the one with the larger |activity| is at least as strongly coloured:
    each channel of its fill is at most the other's (the fill moves from
    white towards the target colour, whose channels are in 0..255). *)
Theorem fill_monotone_in_activity (F : matrix) (acts : list Q) (A : adjacency)
    (n2i : dict_n2i) (o : Options) (net net1 : Network)
    (k1 k2 : string) (n1 n2 : Node) (idx1 idx2 : Z) (a1 a2 : Q)
    (cu cd : rgb) :
  visualize_nodes acts n2i o net = (net1, Ok tt) ->
  (k1, n1) ∈ nodes (visualize F acts A n2i o net).1 ->
  (k2, n2) ∈ nodes (visualize F acts A n2i o net).1 ->
  n2i_get n2i k1 = Ok idx1 -> getitem acts idx1 = Ok a1 ->
  n2i_get n2i k2 = Ok idx2 -> getitem acts idx2 = Ok a2 ->
  resolve_color (255, 0, 0)%Z color_up_msg (color_up o) = Ok cu ->
  resolve_color (0, 0, 255)%Z color_dn_msg (color_dn o) = Ok cd ->
  in_gamut cu -> in_gamut cd ->
  (0 < a1 /\ 0 < a2) \/ (a1 <= 0 /\ a2 <= 0) ->
  Qabs a1 <= Qabs a2 ->
  exists r1 g1 b1 r2 g2 b2,
    node_FILL_COLOR n1 = QColor r1 g1 b1 255 /\
    node_FILL_COLOR n2 = QColor r2 g2 b2 255 /\
    (r2 <= r1)%Z /\ (g2 <= g1)%Z /\ (b2 <= b1)%Z.
Proof.
  intros Hn Hin1 Hin2 Hi1 Ha1 Hi2 Ha2 Hcu Hcd Hgu Hgd Hside Hle.
  destruct (visualize_nodes_kept F acts A n2i o net net1 Hn) as [Hnodes _].
  rewrite Hnodes in Hin1, Hin2.
  destruct (visualize_nodes_fill _ _ _ _ _ _ _ Hn Hin1)
    as (cu1 & cd1 & thr1 & i1 & b1 & Hcu1 & Hcd1 & Hthr1 & Hj1 & Hb1 & Hf1).
  destruct (visualize_nodes_fill _ _ _ _ _ _ _ Hn Hin2)
    as (cu2 & cd2 & thr2 & i2 & b2 & Hcu2 & Hcd2 & Hthr2 & Hj2 & Hb2 & Hf2).
  assert (cu1 = cu) by congruence. assert (cu2 = cu) by congruence.
  assert (cd1 = cd) by congruence. assert (cd2 = cd) by congruence.
  assert (thr2 = thr1) by congruence.
  assert (i1 = idx1) by congruence. assert (i2 = idx2) by congruence.
  subst. assert (b1 = a1) by congruence. assert (b2 = a2) by congruence.
  subst.
  pose proof (percentile_abs_nonneg _ _ _ Hthr1) as H0.
  set (thr := if Qeq_bool thr1 0 then 1 else thr1) in *.
  assert (Hpos : 0 < thr).
  { subst thr. destruct (Qeq_bool thr1 0) eqn:E; [lra |].
    apply Qeq_bool_false in E. lra. }
  assert (Hdiv : Qabs a1 / thr <= Qabs a2 / thr).
  { apply Qmult_le_compat_r; [exact Hle |].
    apply Qlt_le_weak, Qinv_lt_0_compat, Hpos. }
  pose proof (np_clip_mono _ _ 0 1 Hdiv) as Ht.
  destruct (np_clip_bounds (Qabs a1 / thr) 0 1) as [Ht0 _]; [lra |].
  destruct (np_clip_bounds (Qabs a2 / thr) 0 1) as [_ Ht1]; [lra |].
  set (t1 := np_clip (Qabs a1 / thr) 0 1) in *.
  set (t2 := np_clip (Qabs a2 / thr) 0 1) in *.
  rewrite Hf1, Hf2. unfold fill_for.
  assert (Hsame : Qltb 0 a1 = Qltb 0 a2).
  { destruct Hside as [[H1 H2] | [H1 H2]].
    - apply Qltb_true in H1, H2. congruence.
    - apply Qltb_false in H1, H2. congruence. }
  rewrite Hsame.
  destruct (Qltb 0 a2);
    [destruct cu as [[r g] b], Hgu as (Hr & Hg & Hb)
    | destruct cd as [[r g] b], Hgd as (Hr & Hg & Hb)];
    simpl in *; eexists _, _, _, _, _, _;
    (split; [reflexivity |]); (split; [reflexivity |]);
    repeat split; apply channel_antitone; assumption.
Qed.

End Properties.

(** * The theorems at concrete inputs *)

#[local] Existing Instance demo_host.

Ltac q_neq := let E := fresh "E" in intros E; vm_compute in E; discriminate E.
Ltac run := vm_compute; reflexivity.

Lemma n2i_AB_NoDup : NoDup n2i_AB.*1.
Proof.
  apply (bool_decide_unpack _). vm_compute. exact I.
Defined.

Lemma net_AB_act_nodes_wf : nodes_wf (nodes net_AB_act).
Proof.
  intros k n Hin. simpl in Hin.
  repeat (apply elem_of_cons in Hin as [Hin | Hin];
          [injection Hin as -> ->; reflexivity |]).
  inversion Hin.
Defined.

Lemma net_AB_act_labels_wf : labels_wf (labels net_AB_act).
Proof.
  unfold net_AB_act, net_AB. simpl.
  repeat (apply labels_wf_insert; [| reflexivity]).
  intros k l Hl. rewrite lookup_empty in Hl. discriminate.
Defined.

Lemma net_akt_nodes_wf : nodes_wf (nodes net_akt).
Proof.
  intros k n Hin. simpl in Hin.
  repeat (apply elem_of_cons in Hin as [Hin | Hin];
          [injection Hin as -> ->; reflexivity |]).
  inversion Hin.
Defined.

Lemma net_akt_labels_wf : labels_wf (labels net_akt).
Proof.
  unfold net_akt. simpl.
  repeat (apply labels_wf_insert; [| reflexivity]).
  intros k l Hl. rewrite lookup_empty in Hl. discriminate.
Defined.

Lemma key_free_A_act : key_free_elsewhere (nodes net_AB_act) 0 "A_act".
Proof.
  intros pos2 k2 n2 Hl Hne.
  destruct pos2 as [| [| pos2]]; [congruence | | discriminate Hl].
  simpl in Hl. injection Hl as <- <-. vm_compute. repeat split; discriminate.
Defined.

Example nonzero_demo :
  nonzero [[Num 0; Num 1]; [Num 0; NaN]; [Num 2; Num 3]]
  = [(0, 1); (1, 1); (2, 0); (2, 1)]%nat.
Proof. reflexivity. Qed.

Example act_label_iden_demo : act_label_iden "Akt1" = "AKT1_act".
Proof. reflexivity. Qed.

Example percentile_demo :
  exists p, np_percentile [3; 1; 2; 4] 90 = Ok p /\ p == 37 # 10.
Proof. eexists. split; [vm_compute; reflexivity | reflexivity]. Qed.

(** The first example of the spec: the single edge B -> A gets a positive
    head, the red tint and the midpoint width; the head is resized for
    that width and keeps its offset. *)
Example spec_example_single_edge :
  exists e,
    nxgraph (visualize F_AB acts_AB A_AB n2i_AB options_d net_AB).1
      !! ("B", "A") = Some e /\
    head_class (edge_head e) = PosHead /\
    edge_FILL_COLOR e = QColor 255 10 10 70 /\
    edge_width e == 11 # 2 /\
    head_width (edge_head e) == 55 # 2 /\
    head_height (edge_head e) == 55 # 2 /\
    head_offset (edge_head e) == 5.
Proof. eexists. split; [vm_compute; reflexivity |]. repeat split. Qed.

(** The second example of the spec: where A is negative and F is zero,
    the edge gets a negative head, the neutral grey and width lw_min. *)
Example spec_example_zero_flow :
  exists e,
    nxgraph (visualize [[0; 5]; [0; 0]] acts_AB
               [[Num 0; Num 1]; [Num (-1); Num 0]] n2i_AB
               options_d net_AB).1 !! ("A", "B") = Some e /\
    head_class (edge_head e) = NegHead /\
    edge_FILL_COLOR e = QColor 100 100 100 100 /\
    edge_width e == 1.
Proof. eexists. split; [vm_compute; reflexivity |]. repeat split. Qed.

(** Line 68 on the grid of sixteenths and in exact arithmetic, for the
    log-flow 11/10 between the extremes 1 and 2, lw_min = 1/4 and
    lw_max = 1: the factor 1/10 is rounded to 1/8. *)
Example line_68_demo :
  line_68 round_16 (11 # 10) 1 2 (1 # 4) 1 == 3 # 8 /\
  line_68 (fun x => x) (11 # 10) 1 2 (1 # 4) 1 == 13 # 40.
Proof. split; vm_compute; reflexivity. Qed.

(** C1, witness: node A with a hand-styled activity label, the default
    fix_act_label = false. *)
Lemma C1_witness :
  exists n' idx act str_x t l',
    nodes (visualize F_AB acts_AB A_AB n2i_AB options_d net_AB_act).1
      !! 0%nat = Some ("A", n') /\
    n2i_get n2i_AB "A" = Ok idx /\ getitem acts_AB idx = Ok act /\
    pyformat (fmt_act options_d) act = Ok str_x /\
    pyformat str_x act = Ok t /\
    labels (visualize F_AB acts_AB A_AB n2i_AB options_d net_AB_act).1
      !! "A_act" = Some l' /\
    label_text l' = t /\
    label_iden l' = label_iden styled_act_label /\
    label_parent l' = label_parent styled_act_label /\
    label_FONT_BOLD l' = label_FONT_BOLD styled_act_label /\
    (fix_act_label options_d = true ->
       label_FONT l' = label_FONT styled_act_label /\
       label_TEXT_COLOR l' = label_TEXT_COLOR styled_act_label /\
       label_pos l' = label_pos styled_act_label) /\
    (fix_act_label options_d = false ->
       label_FONT l'
       = Some (match font options_d with
               | Some f => f | None => mkQFont "Arial" 10 end) /\
       label_TEXT_COLOR l' = Some (QColor 20 20 20 255) /\
       label_pos l' =
         Some (node_width n' / 2 + (1 # 2),
               - (boundingRect
                    (set_TEXT_COLOR (QColor 20 20 20 255)
                       (set_FONT
                          (match font options_d with
                           | Some f => f | None => mkQFont "Arial" 10 end)
                          (set_text t styled_act_label)))).2 / 2)).
Proof.
  refine (C1_existing_activity_label F_AB acts_AB A_AB n2i_AB options_d
            net_AB_act
            (visualize_nodes acts_AB n2i_AB options_d net_AB_act).1 0 "A"
            (node_of "A") styled_act_label _ _ _ _ _ _).
  - reflexivity.
  - run.
  - reflexivity.
  - run.
  - exact key_free_A_act.
  - vm_compute. discriminate.
Defined.

(** C1, counterexample.  First, a call of [visualize] with show_act = true
    and the default fix_act_label = false, on a Network where node A
    already has an activity label; [acts] is the NumPy array [0.1, -0.2]
    and fmt_act is "%d".  The call completes, and the label's font, text
    colour and position have all changed.  Second, the same call with
    fix_act_label = true on a Network where node A is displayed under
    the name "A_act": the call completes, and the name-label helper has
    changed the font, the weight and the position of node A's activity
    label. *)
Lemma C1_counterexample :
  (labels net_AB_act !! "A_act" = Some styled_act_label /\
   show_act options_d = true /\
   (visualize F_AB acts_AB A_AB n2i_AB options_d net_AB_act).2 = Ok tt /\
   exists l',
     labels (visualize F_AB acts_AB A_AB n2i_AB options_d net_AB_act).1
       !! "A_act" = Some l' /\
     label_FONT l' <> label_FONT styled_act_label /\
     label_TEXT_COLOR l' <> label_TEXT_COLOR styled_act_label /\
     label_pos l' <> label_pos styled_act_label) /\
  (labels net_alias !! "A_act" = Some styled_act_label /\
   show_act (with_fix_act_label true options_d) = true /\
   fix_act_label (with_fix_act_label true options_d) = true /\
   (visualize F_AB acts_AB A_AB n2i_AB (with_fix_act_label true options_d)
      net_alias).2 = Ok tt /\
   exists l',
     labels (visualize F_AB acts_AB A_AB n2i_AB
               (with_fix_act_label true options_d) net_alias).1
       !! "A_act" = Some l' /\
     label_FONT l' <> label_FONT styled_act_label /\
     label_FONT_BOLD l' <> label_FONT_BOLD styled_act_label /\
     label_pos l' <> label_pos styled_act_label).
Proof.
  split.
  - split; [vm_compute; reflexivity |].
    split; [reflexivity |].
    split; [vm_compute; reflexivity |].
    eexists. split; [vm_compute; reflexivity |].
    simpl. repeat split; discriminate.
  - split; [vm_compute; reflexivity |].
    split; [reflexivity |].
    split; [reflexivity |].
    split; [vm_compute; reflexivity |].
    eexists. split; [vm_compute; reflexivity |].
    simpl. repeat split; discriminate.
Qed.

(** C2, witness: the example of the spec at position (0, 1); and the same
    call with NaN at position (1, 0) of A, where the flow is zero: the
    loop updates the edge of position (0, 1) and raises at (1, 0). *)
Lemma C2_witness :
  (exists tgt src f e,
     invert n2i_AB !! Z.of_nat 0 = Some tgt /\
     invert n2i_AB !! Z.of_nat 1 = Some src /\
     mat_get F_AB 0 1 = Ok f /\
     nxgraph (visualize F_AB acts_AB A_AB n2i_AB options_d net_AB).1
       !! (src, tgt) = Some e /\
     (0 < f -> head_class (edge_head e) = PosHead) /\
     (f < 0 -> head_class (edge_head e) = NegHead) /\
     (f == 0 -> adj_pos (Num 1) -> head_class (edge_head e) = PosHead) /\
     (f == 0 -> adj_neg (Num 1) -> head_class (edge_head e) = NegHead)) /\
  (forall net',
     visualize F_AB acts_AB A_nan n2i_AB options_d net_AB <> (net', Ok tt)) /\
  visualize F_AB acts_AB A_nan n2i_AB options_d net_AB
  = ((visualize F_AB acts_AB A_AB n2i_AB options_d net_AB).1,
     Raise (RuntimeError "The logic is abnormal.")).
Proof.
  split.
  - destruct (C2_arrowhead_polarity F_AB acts_AB A_AB n2i_AB options_d
                net_AB 0 1 (Num 1)) as [Hpol _].
    + run.
    + q_neq.
    + apply Hpol; [exact n2i_AB_NoDup | run].
  - destruct (C2_arrowhead_polarity F_AB acts_AB A_nan n2i_AB options_d
                net_AB 1 0 NaN) as [_ Hbad].
    + run.
    + exact I.
    + destruct (Hbad 0) as [Hnever Hraise].
      * run.
      * reflexivity.
      * intros E. exact E.
      * intros E. exact E.
      * split; [exact Hnever |].
        apply (Hraise (visualize_nodes acts_AB n2i_AB options_d net_AB).1
                      0 0 (0 # 100) [(0, 1)%nat] [] _ ("A", "B")).
        -- run.
        -- run.
        -- run.
        -- run.
        -- run.
        -- run.
        -- run.
        -- eexists. run.
Defined.

(** C3, witness: the example of the spec at position (0, 1). *)
Lemma C3_witness :
  exists flow_max flow_min flow_thr tgt src f e,
    is_flow_max F_AB flow_max /\ is_flow_min F_AB flow_min /\
    np_percentile (log_flows_of F_AB) (pct_edge options_d) = Ok flow_thr /\
    invert n2i_AB !! Z.of_nat 0 = Some tgt /\
    invert n2i_AB !! Z.of_nat 1 = Some src /\
    mat_get F_AB 0 1 = Ok f /\
    nxgraph (visualize F_AB acts_AB A_AB n2i_AB options_d net_AB).1
      !! (src, tgt) = Some e /\
    (f == 0 -> edge_width e == lw_min options_d) /\
    (~ f == 0 -> flow_max == flow_min ->
       edge_width e == (lw_min options_d + lw_max options_d) / 2) /\
    (~ f == 0 -> ~ flow_max == flow_min ->
       edge_width e ==
       linear_interpolation (clipped (log10 (Qabs f)) flow_min flow_thr)
         flow_min flow_max (lw_min options_d) (lw_max options_d)).
Proof.
  apply (C3_edge_width F_AB acts_AB A_AB n2i_AB options_d net_AB
           (visualize F_AB acts_AB A_AB n2i_AB options_d net_AB).1 0 1
           (Num 1)).
  - exact n2i_AB_NoDup.
  - run.
  - run.
  - q_neq.
Defined.

(** C4, witness: the example network with a flat activity vector. *)
Lemma C4_witness :
  (exists thr0,
     np_percentile (map Qabs [0; 0]) (pct_act options_d) = Ok thr0 /\
     thr0 == 0 /\
     (if Qeq_bool thr0 0 then 1 else thr0) = 1 /\
     Forall (fun t => t == 0) (arr_t_of [0; 0] 1)) /\
  node_FILL_COLOR
    (set_fill_border (QColor 255 255 255 255) 2 (QColor 40 40 40 255)
       (set_size ((11 # 10) * 6) ((11 # 10) * 12) (node_of "A")))
  = QColor 255 255 255 255.
Proof.
  apply (C4_flat_activity_white F_AB [0; 0] A_AB n2i_AB options_d net_AB
           (visualize_nodes [0; 0] n2i_AB options_d net_AB).1 "A").
  - repeat constructor.
  - run.
  - vm_compute. left.
Defined.


(** C6, witness: flows 10 and 100 on the two edges, widths from 1 to 10,
    the threshold at the 100th percentile. *)
Lemma C6_witness :
  exists flow_max flow_min flow_thr tgt1 src1 e1 tgt2 src2 e2,
    is_flow_max F_both flow_max /\ is_flow_min F_both flow_min /\
    np_percentile (log_flows_of F_both)
      (pct_edge (with_widths 1 10 100 options_d)) = Ok flow_thr /\
    invert n2i_AB !! Z.of_nat 0 = Some tgt1 /\
    invert n2i_AB !! Z.of_nat 1 = Some src1 /\
    nxgraph (visualize F_both acts_AB A_both n2i_AB
               (with_widths 1 10 100 options_d) net_AB).1
      !! (src1, tgt1) = Some e1 /\
    invert n2i_AB !! Z.of_nat 1 = Some tgt2 /\
    invert n2i_AB !! Z.of_nat 0 = Some src2 /\
    nxgraph (visualize F_both acts_AB A_both n2i_AB
               (with_widths 1 10 100 options_d) net_AB).1
      !! (src2, tgt2) = Some e2 /\
    (lw_min (with_widths 1 10 100 options_d)
       <= lw_max (with_widths 1 10 100 options_d) ->
     flow_min <= log10 (Qabs 10) ->
     log10 (Qabs 10) <= log10 (Qabs 100) ->
     log10 (Qabs 100) <= flow_thr ->
     edge_width e1 <= edge_width e2) /\
    (flow_thr <= log10 (Qabs 10) ->
     edge_width e1 ==
     if Qeq_bool (flow_max - flow_min) 0
     then (1 # 2) * (lw_max (with_widths 1 10 100 options_d)
                     + lw_min (with_widths 1 10 100 options_d))
     else linear_interpolation flow_thr flow_min flow_max
            (lw_min (with_widths 1 10 100 options_d))
            (lw_max (with_widths 1 10 100 options_d))).
Proof.
  apply (C6_edge_width_monotone F_both acts_AB A_both n2i_AB
           (with_widths 1 10 100 options_d) net_AB
           (visualize F_both acts_AB A_both n2i_AB
              (with_widths 1 10 100 options_d) net_AB).1
           0 1 1 0 (Num 1) (Num 1) 10 100).
  - exact n2i_AB_NoDup.
  - run.
  - run.
  - q_neq.
  - run.
  - q_neq.
  - run.
  - q_neq.
  - run.
  - q_neq.
Defined.

(** C6, counterexample: the same flows with lw_min = 10 and lw_max = 1.
    The call completes; the log-flows 1 and 2 are the extremes and the
    threshold is 2, so both lie in [flow_min, flow_thr]; the edge with the
    smaller log-flow is the wider one. *)
Lemma C6_counterexample :
  (visualize F_both acts_AB A_both n2i_AB
     (with_widths 10 1 100 options_d) net_AB).2 = Ok tt /\
  np_min (log_flows_of F_both) = Ok 1 /\
  np_max (log_flows_of F_both) = Ok 2 /\
  (exists thr, np_percentile (log_flows_of F_both) 100 = Ok thr /\ thr == 2) /\
  mat_get F_both 0 1 = Ok 10 /\ mat_get F_both 1 0 = Ok 100 /\
  log10 (Qabs 10) = 1 /\ log10 (Qabs 100) = 2 /\
  exists e1 e2,
    nxgraph (visualize F_both acts_AB A_both n2i_AB
               (with_widths 10 1 100 options_d) net_AB).1
      !! ("B", "A") = Some e1 /\
    nxgraph (visualize F_both acts_AB A_both n2i_AB
               (with_widths 10 1 100 options_d) net_AB).1
      !! ("A", "B") = Some e2 /\
    edge_width e1 == 10 /\ edge_width e2 == 1 /\
    ~ edge_width e1 <= edge_width e2.
Proof.
  split; [run |]. split; [run |]. split; [run |].
  split; [eexists; split; [run | reflexivity] |].
  split; [run |]. split; [run |]. split; [run |]. split; [run |].
  eexists _, _. split; [run |]. split; [run |].
  split; [reflexivity |]. split; [reflexivity |].
  intros Hle. vm_compute in Hle. apply Hle. reflexivity.
Qed.

(** C7, witness: the node "akt" starts with its activity label under
    "AKT_act"; the first call hides the activity labels, the second shows
    them. *)
Lemma C7_witness :
  labels (visualize F_akt acts_akt A_akt n2i_akt
            (with_show_act false options_d) net_akt).1
    !! "AKT_act" = None /\
  exists l,
    labels (visualize F_akt acts_akt A_akt n2i_akt options_d
              (visualize F_akt acts_akt A_akt n2i_akt
                 (with_show_act false options_d) net_akt).1).1
      !! "AKT_act" = Some l /\
    label_iden l = "AKT_act".
Proof.
  refine (C7_show_act_round_trip
            F_akt acts_akt A_akt n2i_akt (with_show_act false options_d)
            F_akt acts_akt A_akt n2i_akt options_d
            net_akt
            (visualize_nodes acts_akt n2i_akt (with_show_act false options_d)
               net_akt).1
            (visualize_nodes acts_akt n2i_akt options_d
               (visualize F_akt acts_akt A_akt n2i_akt
                  (with_show_act false options_d) net_akt).1).1
            "akt" (node_of "akt") _ _ _ _ _ _ _).
  - exact net_akt_nodes_wf.
  - exact net_akt_labels_wf.
  - reflexivity.
  - reflexivity.
  - run.
  - run.
  - simpl. left.
Defined.

(** C8, witness: a string passed as color_up. *)
Lemma C8_witness :
  exists msg,
    visualize F_AB acts_AB A_AB n2i_AB
      (with_color_up (ArgOther true) options_d) net_AB
    = (net_AB, Raise (ValueError msg)).
Proof.
  apply C8_invalid_color_atomic. left. right. reflexivity.
Defined.

(** C9, witness: the example network with a zero flow matrix. *)
Lemma C9_witness :
  (forall i2n pct lmin lmax net,
     _update_edges A_AB [[0; 0]; [0; 0]] i2n pct lmin lmax net
     = (net, Raise (ValueError zero_size_max_msg))) /\
  (forall acts n2i o net net1,
     visualize_nodes acts n2i o net = (net1, Ok tt) ->
     visualize [[0; 0]; [0; 0]] acts A_AB n2i o net
     = (net1, Raise (ValueError zero_size_max_msg))) /\
  (forall acts n2i o net net',
     visualize [[0; 0]; [0; 0]] acts A_AB n2i o net <> (net', Ok tt)).
Proof.
  apply (C9_all_zero_flow_fails [[0; 0]; [0; 0]] A_AB 0 1 (Num 1)).
  - repeat constructor.
  - run.
  - q_neq.
Defined.


Section DoubleRun.
Import PrimFloat.
Local Open Scope float_scope.


End DoubleRun.

(** * The further theorems at concrete inputs *)

Lemma net_AB_labels_wf : labels_wf (labels net_AB).
Proof.
  unfold net_AB. simpl.
  repeat (apply labels_wf_insert; [| reflexivity]).
  intros k l Hl. rewrite lookup_empty in Hl. discriminate.
Defined.

Lemma net_AB_note_labels_wf : labels_wf (labels net_AB_note).
Proof.
  unfold net_AB_note, net_AB. simpl.
  repeat (apply labels_wf_insert; [| reflexivity]).
  intros k l Hl. rewrite lookup_empty in Hl. discriminate.
Defined.

(** The entries of a two-by-two matrix, one by one. *)
Ltac entry H :=
  match type of H with
  | mat_get _ ?i ?j = _ =>
      destruct i as [| [| ?]]; destruct j as [| [| ?]];
      try discriminate H; vm_compute in H;
      first [discriminate H | injection H as <-]
  end.

Lemma visualize_untouched_edge_witness :
  nxgraph (visualize F_AB acts_AB A_AB n2i_AB options_d net_AB).1
    !! ("A", "B")
  = nxgraph net_AB !! ("A", "B").
Proof.
  apply visualize_untouched_edge.
  intros p Hp. apply list_elem_of_singleton in Hp. subst p.
  vm_compute. discriminate.
Defined.

Lemma edge_colour_by_flow_sign_witness :
  exists tgt src f e,
    invert n2i_AB !! Z.of_nat 0 = Some tgt /\
    invert n2i_AB !! Z.of_nat 1 = Some src /\
    mat_get F_AB 0 1 = Ok f /\
    nxgraph (visualize F_AB acts_AB A_AB n2i_AB options_d net_AB).1
      !! (src, tgt) = Some e /\
    (0 < f -> edge_FILL_COLOR e = QColor 255 10 10 70) /\
    (f < 0 -> edge_FILL_COLOR e = QColor 10 10 255 70) /\
    (f == 0 -> edge_FILL_COLOR e = QColor 100 100 100 100).
Proof.
  apply (edge_colour_by_flow_sign F_AB acts_AB A_AB n2i_AB options_d net_AB
           (visualize F_AB acts_AB A_AB n2i_AB options_d net_AB).1 0 1
           (Num 1)).
  - exact n2i_AB_NoDup.
  - run.
  - run.
  - q_neq.
Defined.

Lemma completed_call_inputs_witness :
  (exists i' j' f', mat_get F_AB i' j' = Ok f' /\ ~ f' == 0) /\
  0 <= pct_edge options_d /\ pct_edge options_d <= 100 /\
  forall i j a,
    mat_get A_AB i j = Ok a -> adj_nonzero a ->
    exists tgt src f,
      invert n2i_AB !! Z.of_nat i = Some tgt /\
      invert n2i_AB !! Z.of_nat j = Some src /\
      (tgt, Z.of_nat i) ∈ n2i_AB /\ (src, Z.of_nat j) ∈ n2i_AB /\
      mat_get F_AB i j = Ok f /\
      is_Some (nxgraph net_AB !! (src, tgt)).
Proof.
  apply (completed_call_inputs F_AB acts_AB A_AB n2i_AB options_d net_AB
           (visualize F_AB acts_AB A_AB n2i_AB options_d net_AB).1).
  run.
Defined.

Lemma pct_edge_out_of_range_witness :
  nxgraph (visualize F_AB acts_AB A_AB n2i_AB
             (with_widths 1 10 150 options_d) net_AB).1 = nxgraph net_AB /\
  (visualize F_AB acts_AB A_AB n2i_AB
     (with_widths 1 10 150 options_d) net_AB).2 <> Ok tt /\
  forall net1,
    visualize_nodes acts_AB n2i_AB (with_widths 1 10 150 options_d) net_AB
      = (net1, Ok tt) ->
    exists msg,
      visualize F_AB acts_AB A_AB n2i_AB (with_widths 1 10 150 options_d)
        net_AB = (net1, Raise (ValueError msg)).
Proof.
  apply pct_edge_out_of_range. right. vm_compute. reflexivity.
Defined.

Lemma pct_act_out_of_range_witness :
  exists msg,
    visualize F_AB acts_AB A_AB n2i_AB (with_pct_act (-1) options_d) net_AB
    = (net_AB, Raise (ValueError msg)).
Proof.
  apply pct_act_out_of_range. left. vm_compute. reflexivity.
Defined.

Lemma weakest_flow_width_witness :
  exists tgt src e,
    invert n2i_AB !! Z.of_nat 0 = Some tgt /\
    invert n2i_AB !! Z.of_nat 1 = Some src /\
    nxgraph (visualize F_both acts_AB A_both n2i_AB options_d net_AB).1
      !! (src, tgt) = Some e /\
    edge_width e == lw_min options_d.
Proof.
  apply (weakest_flow_width F_both acts_AB A_both n2i_AB options_d net_AB
           (visualize F_both acts_AB A_both n2i_AB options_d net_AB).1
           0 1 (Num 1) 10 1 0 100).
  - exact n2i_AB_NoDup.
  - run.
  - run.
  - q_neq.
  - run.
  - q_neq.
  - intros i0 j0 f0 Hg Hnz. entry Hg; try (exfalso; apply Hnz; reflexivity);
      vm_compute; discriminate.
  - run.
  - q_neq.
  - vm_compute. reflexivity.
Defined.

Lemma uniform_flow_midpoint_witness :
  exists tgt src e,
    invert n2i_AB !! Z.of_nat 0 = Some tgt /\
    invert n2i_AB !! Z.of_nat 1 = Some src /\
    nxgraph (visualize F_AB acts_AB A_AB n2i_AB options_d net_AB).1
      !! (src, tgt) = Some e /\
    edge_width e == (lw_min options_d + lw_max options_d) / 2.
Proof.
  apply (uniform_flow_midpoint F_AB acts_AB A_AB n2i_AB options_d net_AB
           (visualize F_AB acts_AB A_AB n2i_AB options_d net_AB).1 0 1
           (Num 1) 5).
  - exact n2i_AB_NoDup.
  - run.
  - run.
  - q_neq.
  - run.
  - q_neq.
  - intros i1 j1 f1 i2 j2 f2 H1 Hz1 H2 Hz2.
    entry H1; try (exfalso; apply Hz1; reflexivity);
      entry H2; try (exfalso; apply Hz2; reflexivity); reflexivity.
Defined.

Lemma edges_idempotent_witness :
  nxgraph (visualize F_AB acts_pos A_AB n2i_AB
             (with_show_act false options_d)
             (visualize F_AB acts_AB A_AB n2i_AB options_d net_AB).1).1
  = nxgraph (visualize F_AB acts_AB A_AB n2i_AB options_d net_AB).1.
Proof.
  apply (edges_idempotent F_AB acts_AB acts_pos A_AB n2i_AB options_d
           (with_show_act false options_d) net_AB).
  - exact n2i_AB_NoDup.
  - reflexivity.
  - reflexivity.
  - reflexivity.
  - run.
Defined.

Lemma hiding_adds_no_label_witness :
  labels (visualize F_AB acts_AB A_AB n2i_AB (with_show_act false options_d)
            net_AB).1 !! "B_act" = None.
Proof.
  apply hiding_adds_no_label; [reflexivity | run].
Defined.

Lemma showing_removes_no_label_witness :
  is_Some (labels (visualize F_AB acts_AB A_AB n2i_AB options_d
                     net_AB_act).1 !! "A_act").
Proof.
  apply showing_removes_no_label; [reflexivity |]. eexists. run.
Defined.

Lemma visualize_untouched_label_witness :
  labels (visualize F_AB acts_AB A_AB n2i_AB options_d net_AB_note).1
    !! "note"
  = labels net_AB_note !! "note".
Proof.
  apply visualize_untouched_label.
  - exact net_AB_note_labels_wf.
  - intros k n Hin. simpl in Hin.
    repeat (apply elem_of_cons in Hin as [Hin | Hin];
            [injection Hin as -> ->; vm_compute;
             repeat split; discriminate |]).
    inversion Hin.
Defined.

Lemma name_labels_never_created_witness :
  is_Some (labels net_AB !! node_name (node_of "A")) \/
  (show_act options_d = true /\
   exists k' n', (k', n') ∈ nodes net_AB /\
                 node_name (node_of "A") = act_label_iden (node_iden n')).
Proof.
  apply (name_labels_never_created acts_AB n2i_AB options_d net_AB
           (visualize_nodes acts_AB n2i_AB options_d net_AB).1 "A").
  - reflexivity.
  - run.
  - simpl. left.
Defined.

Lemma saturated_node_pure_colour_witness :
  exists cu cd thr0 idx a,
    resolve_color (255, 0, 0)%Z color_up_msg (color_up options_d) = Ok cu /\
    resolve_color (0, 0, 255)%Z color_dn_msg (color_dn options_d) = Ok cd /\
    np_percentile (map Qabs acts_AB) (pct_act options_d) = Ok thr0 /\
    n2i_get n2i_AB "B" = Ok idx /\ getitem acts_AB idx = Ok a /\
    ((if Qeq_bool thr0 0 then 1 else thr0) <= Qabs a ->
     (0 < a ->
        node_FILL_COLOR (node_B_after (QColor 0 0 255 255))
        = QColor cu.1.1 cu.1.2 cu.2 255) /\
     (a < 0 ->
        node_FILL_COLOR (node_B_after (QColor 0 0 255 255))
        = QColor cd.1.1 cd.1.2 cd.2 255)).
Proof.
  apply (saturated_node_pure_colour F_AB acts_AB A_AB n2i_AB options_d net_AB
           (visualize_nodes acts_AB n2i_AB options_d net_AB).1 "B").
  - run.
  - vm_compute. right. left.
Defined.

Lemma zero_activity_white_witness :
  node_FILL_COLOR (node_A_after (QColor 255 255 255 255))
  = QColor 255 255 255 255.
Proof.
  apply (zero_activity_white F_AB acts_zero A_AB n2i_AB options_d net_AB
           (visualize_nodes acts_zero n2i_AB options_d net_AB).1 "A"
           (node_A_after (QColor 255 255 255 255)) 0%Z 0).
  - run.
  - vm_compute. left.
  - run.
  - run.
  - reflexivity.
Defined.

Lemma node_border_and_size_witness :
  exists n',
    nodes (visualize F_AB acts_AB A_AB n2i_AB options_d net_AB).1 !! 0%nat
      = Some ("A", n') /\
    node_BORDER_WIDTH n' = 2 /\
    node_BORDER_COLOR n' = QColor 40 40 40 255 /\
    (fix_node_size options_d = true ->
       node_width n' = node_width (node_of "A") /\
       node_height n' = node_height (node_of "A")) /\
    (fix_node_size options_d = false -> show_label options_d = false ->
       node_width n' = 20 /\ node_height n' = 20).
Proof.
  apply (node_border_and_size F_AB acts_AB A_AB n2i_AB options_d net_AB
           (visualize_nodes acts_AB n2i_AB options_d net_AB).1).
  - run.
  - reflexivity.
Defined.

Lemma key_free_A : key_free_elsewhere (nodes net_AB) 0 "A".
Proof.
  intros pos2 k2 n2 Hl Hne.
  destruct pos2 as [| [| pos2]]; [congruence | | discriminate Hl].
  simpl in Hl. injection Hl as <- <-. vm_compute. repeat split; discriminate.
Defined.

Lemma node_sized_by_name_label_witness :
  exists n' l L,
    nodes (visualize F_AB acts_AB A_AB n2i_AB options_d net_AB).1 !! 0%nat
      = Some ("A", n') /\
    labels net_AB !! node_name (node_of "A") = Some l /\
    label_iden L = label_iden l /\ label_parent L = label_parent l /\
    label_text L = label_text l /\ label_pos L = label_pos l /\
    label_FONT L
      = Some (match font options_d with
              | Some f => f | None => mkQFont "Arial" 10 end) /\
    ((lightness (node_FILL_COLOR n') < 200)%Z ->
       label_TEXT_COLOR L = Some Qt_white /\ label_FONT_BOLD L = Some true) /\
    ((200 <= lightness (node_FILL_COLOR n'))%Z ->
       label_TEXT_COLOR L = Some Qt_black /\
       label_FONT_BOLD L = Some false) /\
    labels (visualize F_AB acts_AB A_AB n2i_AB options_d net_AB).1
      !! node_name (node_of "A")
      = Some (setPos (- (boundingRect L).1 / 2) (- (boundingRect L).2 / 2) L)
    /\
    node_width n' = (11 # 10) * (boundingRect L).1 /\
    node_height n' = (11 # 10) * (boundingRect L).2.
Proof.
  apply (node_sized_by_name_label F_AB acts_AB A_AB n2i_AB options_d net_AB
           (visualize_nodes acts_AB n2i_AB options_d net_AB).1 0 "A").
  - exact net_AB_labels_wf.
  - reflexivity.
  - reflexivity.
  - run.
  - reflexivity.
  - exact key_free_A.
  - vm_compute. discriminate.
  - vm_compute. discriminate.
Defined.

Lemma activity_label_after_call_witness :
  exists n' idx act str_x,
    nodes (visualize F_AB acts_AB A_AB n2i_AB options_d net_AB).1
      !! 1%nat = Some ("B", n') /\
    n2i_get n2i_AB "B" = Ok idx /\ getitem acts_AB idx = Ok act /\
    pyformat (fmt_act options_d) act = Ok str_x /\
    match labels net_AB !! "B_act" with
    | None =>
        labels (visualize F_AB acts_AB A_AB n2i_AB options_d net_AB).1
          !! "B_act"
        = Some (restyled (fix_act_label options_d)
                  (match font options_d with
                   | Some f => f | None => mkQFont "Arial" 10 end)
                  n' (set_iden "B_act" (TextLabel n' str_x)))
    | Some l =>
        exists t,
          pyformat str_x act = Ok t /\
          labels (visualize F_AB acts_AB A_AB n2i_AB options_d net_AB).1
            !! "B_act"
          = Some (restyled (fix_act_label options_d)
                    (match font options_d with
                     | Some f => f | None => mkQFont "Arial" 10 end)
                    n' (set_text t l))
    end.
Proof.
  refine (activity_label_after_call F_AB acts_AB A_AB n2i_AB options_d
            net_AB
            (visualize_nodes acts_AB n2i_AB options_d net_AB).1 1 "B"
            (node_of "B") _ _ _ _ _).
  - reflexivity.
  - run.
  - reflexivity.
  - intros pos2 k2 n2 Hl Hne.
    destruct pos2 as [| [| pos2]]; [| congruence | discriminate Hl].
    simpl in Hl. injection Hl as <- <-. vm_compute.
    repeat split; discriminate.
  - vm_compute. discriminate.
Defined.

Lemma n2i_AB_values_NoDup : NoDup n2i_AB.*2.
Proof.
  apply (bool_decide_unpack _). vm_compute. exact I.
Defined.

Lemma i2n_inverts_n2i_witness :
  invert n2i_AB !! 1%Z = Some "B" <-> n2i_get n2i_AB "B" = Ok 1%Z.
Proof.
  apply i2n_inverts_n2i; [exact n2i_AB_NoDup | exact n2i_AB_values_NoDup].
Defined.

Lemma fill_monotone_in_activity_witness :
  exists r1 g1 b1 r2 g2 b2,
    node_FILL_COLOR (node_A_after (QColor 255 85 85 255))
      = QColor r1 g1 b1 255 /\
    node_FILL_COLOR (node_B_after (QColor 255 0 0 255))
      = QColor r2 g2 b2 255 /\
    (r2 <= r1)%Z /\ (g2 <= g1)%Z /\ (b2 <= b1)%Z.
Proof.
  apply (fill_monotone_in_activity F_AB acts_pos A_AB n2i_AB options_d net_AB
           (visualize_nodes acts_pos n2i_AB options_d net_AB).1
           "A" "B" _ _ 0%Z 1%Z (1 # 10) (2 # 10)
           (255, 0, 0)%Z (0, 0, 255)%Z).
  - run.
  - vm_compute. left.
  - vm_compute. right. left.
  - run.
  - run.
  - run.
  - run.
  - reflexivity.
  - reflexivity.
  - vm_compute. repeat split; discriminate.
  - vm_compute. repeat split; discriminate.
  - left. split; vm_compute; reflexivity.
  - vm_compute. discriminate.
Defined.
